(** * kvfifo: a key/value FIFO queue with copy-on-write sharing

    Shallow embedding of [src/kvfifo.h].  The class template
    [kvfifo<K, V>] is modelled over an arbitrary key type [K] ordered by
    [operator<] (class [KeyOrder]) and an arbitrary value type [V].

    - [std::list<std::pair<K const, V>>] is a list of nodes; every node
      carries an identity ([node]), which is what a list iterator denotes.
    - [std::map<K, std::list<iterator>>] is an association list kept in
      ascending key order.
    - [std::shared_ptr<container_t>] is an address into a heap of storage
      cells; [use_count] counts the handles that hold the address.
    - exceptions, the scope guard and undefined behaviour are explicit in
      the result type [outcome].                                          *)

From stdpp Require Import base list sorting.
From Stdlib Require Import ZArith Lia.
From Stdlib Require String.
Import String.StringSyntax.
Local Open Scope string_scope.
Local Open Scope nat_scope.

Set Default Proof Using "Type".

(** ** Keys: the requirements [std::map] puts on [K] *)

Class KeyOrder (K : Type) := {
  key_lt : K → K → bool;
  key_lt_irrefl : ∀ x, key_lt x x = false;
  key_lt_trans : ∀ x y z, key_lt x y = true → key_lt y z = true → key_lt x z = true;
  key_lt_total : ∀ x y, key_lt x y = false → key_lt y x = false → x = y
}.

(** Two keys are equivalent for [std::map] when neither is less. *)
Definition key_equiv `{KeyOrder K} (a b : K) : bool :=
  negb (key_lt a b) && negb (key_lt b a).

Lemma key_equiv_true `{KeyOrder K} (a b : K) : key_equiv a b = true ↔ a = b.
Proof.
  unfold key_equiv. split.
  - intros E. apply andb_true_iff in E as [E1 E2].
    apply negb_true_iff in E1, E2. by apply key_lt_total.
  - intros ->. by rewrite key_lt_irrefl.
Qed.

#[global] Instance key_eq_dec `{KeyOrder K} : EqDecision K.
Proof.
  intros a b. destruct (key_equiv a b) eqn:E.
  - left. by apply key_equiv_true.
  - right. intros Hab. apply key_equiv_true in Hab. congruence.
Defined.

#[global, refine] Instance Z_key_order : KeyOrder Z :=
  {| key_lt := Z.ltb |}.
Proof.
  - intros x. apply Z.ltb_irrefl.
  - intros x y z ?%Z.ltb_lt ?%Z.ltb_lt. apply Z.ltb_lt. lia.
  - intros x y ?%Z.ltb_ge ?%Z.ltb_ge. lia.
Defined.

(** ** Exceptions and results *)

Inductive exn :=
  | invalid_argument (what : String.string)
  | bad_alloc.

(** The two error kinds of the container, by the message of the
    [std::invalid_argument] that is thrown. *)
Definition EmptyCollection : exn := invalid_argument "Empty queue".
Definition KeyNotFound : exn := invalid_argument "Key not found".

(** List nodes and storage cells are named by numbers. *)
Abbreviation node := nat.
Abbreviation addr := nat.

Section Model.
Context {K V : Type} `{KO : KeyOrder K}.

(** ** [std::list<std::pair<K const, V>>] with node identities *)

#[local] Abbreviation k_v_queue_t := (list (node * (K * V))).

Definition fresh_node (l : k_v_queue_t) : node := S (foldr Nat.max 0 (l.*1)).

(** [push_back]: a new node at the end; [std::prev(end())] is then
    [last_node]. *)
Definition list_push_back (e : K * V) (l : k_v_queue_t) : k_v_queue_t :=
  l ++ [(fresh_node l, e)].

Definition last_node (l : k_v_queue_t) : option node := fst <$> last l.

Definition list_pop_back (l : k_v_queue_t) : k_v_queue_t := removelast l.

Definition list_pop_front (l : k_v_queue_t) : k_v_queue_t := tail l.

Fixpoint list_get (n : node) (l : k_v_queue_t) : option (K * V) :=
  match l with
  | [] => None
  | (n', e) :: l' => if decide (n' = n) then Some e else list_get n l'
  end.

(** [erase(it)] *)
Definition list_erase (n : node) (l : k_v_queue_t) : k_v_queue_t :=
  filter (λ x, x.1 ≠ n) l.

(** [l.splice(l.end(), l, it)]: the node moves to the end and keeps its
    identity.  [None] when [it] denotes no node of [l]. *)
Definition list_splice_end (n : node) (l : k_v_queue_t) : option k_v_queue_t :=
  match list_get n l with
  | Some e => Some (list_erase n l ++ [(n, e)])
  | None => None
  end.

(** assignment through a [V &] that refers into node [n] *)
Fixpoint list_set_value (n : node) (v : V) (l : k_v_queue_t) : k_v_queue_t :=
  match l with
  | [] => []
  | (n', (k, v')) :: l' =>
      if decide (n' = n) then (n', (k, v)) :: l'
      else (n', (k, v')) :: list_set_value n v l'
  end.

(** ** [std::map<K, std::list<iterator>>] *)

#[local] Abbreviation bucket_t := (list node).
#[local] Abbreviation k_v_map_t := (list (K * bucket_t)).

Fixpoint map_find (k : K) (m : k_v_map_t) : option bucket_t :=
  match m with
  | [] => None
  | (k', b) :: m' => if key_equiv k' k then Some b else map_find k m'
  end.

(** [insert({k, b})]: no effect when the key is already there. *)
Fixpoint map_insert (k : K) (b : bucket_t) (m : k_v_map_t) : k_v_map_t :=
  match m with
  | [] => [(k, b)]
  | (k', b') :: m' =>
      if key_lt k k' then (k, b) :: (k', b') :: m'
      else if key_lt k' k then (k', b') :: map_insert k b m'
      else (k', b') :: m'
  end.

(** [erase(it)] where [it] is the position of key [k] *)
Fixpoint map_erase (k : K) (m : k_v_map_t) : k_v_map_t :=
  match m with
  | [] => []
  | (k', b) :: m' => if key_equiv k' k then m' else (k', b) :: map_erase k m'
  end.

(** a change of [it->second] in place *)
Fixpoint map_adjust (f : bucket_t → bucket_t) (k : K) (m : k_v_map_t) : k_v_map_t :=
  match m with
  | [] => []
  | (k', b) :: m' =>
      if key_equiv k' k then (k', f b) :: m' else (k', b) :: map_adjust f k m'
  end.

(** ** [container_t] *)

Record container_t := Container {
  iterator_list_map : k_v_map_t;
  pair_list : k_v_queue_t
}.

Definition empty_container : container_t := Container [] [].

Definition set_pair_list (f : k_v_queue_t → k_v_queue_t) (c : container_t) :=
  Container (iterator_list_map c) (f (pair_list c)).

Definition set_map (f : k_v_map_t → k_v_map_t) (c : container_t) :=
  Container (f (iterator_list_map c)) (pair_list c).

(** The second loop of the copy constructor: one step per node of the
    new list. *)
Definition index_node (new_map : k_v_map_t) (it : node * (K * V)) : k_v_map_t :=
  match map_find it.2.1 new_map with
  | None => map_insert it.2.1 [it.1] new_map
  | Some _ => map_adjust (λ b, b ++ [it.1]) it.2.1 new_map
  end.

(** [container_t(container_t const &other)] *)
Definition container_copy (other : container_t) : container_t :=
  let new_list := foldl (λ acc it, list_push_back it.2 acc) [] (pair_list other) in
  let new_map := foldl index_node [] new_list in
  Container new_map new_list.

(** ** Instances, guards and the heap of storage cells *)

(** The two data members of [kvfifo]; [dataPtr = None] is the null
    pointer. *)
Record kvfifo := Kvfifo {
  unshareable : bool;
  dataPtr : option addr
}.

Record copy_guard_t := Guard {
  guarded : nat;
  guarded_data : option addr;
  guarded_unshareable : bool;
  rollback : bool
}.

(** The state of a program that uses the container: the storage cells
    made by [std::make_shared], the [kvfifo] objects of the program
    ([None]: the object's lifetime has ended), the guards that are alive
    (innermost first), and the allocator: [alloc_budget = Some n] lets
    [n] more allocations succeed and fails the next, [None] never fails. *)
Record world := World {
  heap : list container_t;
  objs : list (option kvfifo);
  guards : list copy_guard_t;
  alloc_budget : option nat
}.

Inductive outcome (A : Type) :=
  | Ret (a : A) (w : world)
  | Throw (e : exn) (w : world)
  | Undefined.
Global Arguments Ret {A} a w.
Global Arguments Throw {A} e w.
Global Arguments Undefined {A}.

Definition M (A : Type) := world → outcome A.

Definition ret {A} (a : A) : M A := λ w, Ret a w.

Definition bind {A B} (m : M A) (f : A → M B) : M B := λ w,
  match m w with
  | Ret a w' => f a w'
  | Throw e w' => Throw e w'
  | Undefined => Undefined
  end.

(** The transfer of control of a [throw], with the exception already
    built: it is what [throw;] in a handler and the end of a guard's
    scope do with the exception in flight. *)
Definition throw {A} (e : exn) : M A := λ w, Throw e w.

Definition undefined {A} : M A := λ _, Undefined.

Notation "'do' x <- c1 ; c2" := (bind c1 (λ x, c2))
  (at level 10, x name, c1 at level 100, c2 at level 200).

(** [try { body } catch (...) { handler; throw; }] *)
Definition catch_rethrow {A} (body : M A) (handler : M unit) : M A := λ w,
  match body w with
  | Throw e w' =>
      match handler w' with
      | Ret _ w'' => Throw e w''
      | Throw e' w'' => Throw e' w''
      | Undefined => Undefined
      end
  | r => r
  end.

(** One request to the allocator. *)
Definition alloc : M unit := λ w,
  match alloc_budget w with
  | None => Ret tt w
  | Some 0 => Throw bad_alloc w
  | Some (S n) => Ret tt (World (heap w) (objs w) (guards w) (Some n))
  end.

(** [throw std::invalid_argument(what)]: the exception that is built
    holds a copy of the message, which takes one request to the
    allocator; when that request fails, [bad_alloc] is thrown in its
    place. *)
Definition raise {A} (e : exn) : M A := do _ <- alloc; throw e.

(** [std::make_shared<container_t>(c)]; the allocations that building
    [c] takes (the copy constructor of [container_t]) are counted
    with it, as one request. *)
Definition make_shared (c : container_t) : M addr :=
  do _ <- alloc;
  λ w, Ret (length (heap w)) (World (heap w ++ [c]) (objs w) (guards w) (alloc_budget w)).

Definition get_obj (this : nat) : M kvfifo := λ w,
  match objs w !! this with
  | Some (Some o) => Ret o w
  | _ => Undefined
  end.

Definition set_obj (this : nat) (o : kvfifo) : M unit := λ w,
  Ret tt (World (heap w) (<[this := Some o]> (objs w)) (guards w) (alloc_budget w)).

Definition set_dataPtr (this : nat) (p : option addr) : M unit :=
  do o <- get_obj this; set_obj this (Kvfifo (unshareable o) p).

Definition set_unshareable (this : nat) (b : bool) : M unit :=
  do o <- get_obj this; set_obj this (Kvfifo b (dataPtr o)).

(** [*p]: undefined for the null pointer. *)
Definition deref (p : option addr) : M container_t := λ w,
  match p with
  | Some a => match heap w !! a with Some c => Ret c w | None => Undefined end
  | None => Undefined
  end.

Definition store (p : option addr) (c : container_t) : M unit := λ w,
  match p with
  | Some a =>
      if decide (a < length (heap w))
      then Ret tt (World (<[a := c]> (heap w)) (objs w) (guards w) (alloc_budget w))
      else Undefined
  | None => Undefined
  end.

(** A statement [dataPtr->... ] that changes the cell in place; [None]
    from [f] is a use of an iterator that denotes no node. *)
Definition update_data (this : nat) (f : container_t → option container_t) : M unit :=
  do o <- get_obj this;
  do c <- deref (dataPtr o);
  match f c with
  | Some c' => store (dataPtr o) c'
  | None => undefined
  end.

Definition read_data (this : nat) : M container_t :=
  do o <- get_obj this; deref (dataPtr o).

Definition points_to (a : addr) (p : option addr) : bool :=
  match p with Some a' => Nat.eqb a a' | None => false end.

Definition obj_ptr (o : option kvfifo) : option addr :=
  match o with Some o => dataPtr o | None => None end.

(** [p.use_count()]: the objects and the guards that hold [p]. *)
Definition use_count_at (a : addr) (w : world) : nat :=
  length (List.filter (λ o, points_to a (obj_ptr o)) (objs w))
  + length (List.filter (λ g, points_to a (guarded_data g)) (guards w)).

Definition use_count (p : option addr) : M nat := λ w,
  Ret (match p with Some a => use_count_at a w | None => 0 end) w.

(** *** [copy_guard_t] *)

Definition guard_ctor (to_guard : nat) : M unit :=
  do o <- get_obj to_guard;
  λ w, Ret tt (World (heap w) (objs w)
                 (Guard to_guard (dataPtr o) (unshareable o) true :: guards w)
                 (alloc_budget w)).

Definition no_rollback : M unit := λ w,
  match guards w with
  | g :: gs =>
      Ret tt (World (heap w) (objs w)
                (Guard (guarded g) (guarded_data g) (guarded_unshareable g) false :: gs)
                (alloc_budget w))
  | [] => Undefined
  end.

(** [~copy_guard_t()]: the swap leaves the pointer of the failed attempt
    in the guard, which dies with it. *)
Definition guard_dtor : M unit := λ w,
  match guards w with
  | g :: gs =>
      let w' := World (heap w) (objs w) gs (alloc_budget w) in
      if rollback g
      then set_obj (guarded g) (Kvfifo (guarded_unshareable g) (guarded_data g)) w'
      else Ret tt w'
  | [] => Undefined
  end.

(** The scope of a [copy_guard_t guard(this)]: the destructor runs when
    the scope is left, by return or by exception. *)
Definition leave_scope {A} (r : outcome A) : outcome A :=
  match r with
  | Ret a w' => (do _ <- guard_dtor; ret a) w'
  | Throw e w' => (do _ <- guard_dtor; throw e) w'
  | Undefined => Undefined
  end.

Definition with_guard {A} (this : nat) (body : M A) : M A :=
  do _ <- guard_ctor this;
  λ w, leave_scope (body w).

(** *** [aboutToModify] *)

Definition aboutToModify (this : nat) (markUnshareable : bool) : M unit :=
  do o <- get_obj this;
  do n <- use_count (dataPtr o);
  do _ <- (if (2 <? n) && negb (unshareable o)
      then do c <- deref (dataPtr o);
           do p <- make_shared (container_copy c);
           set_dataPtr this (Some p)
      else ret tt);
  set_unshareable this markUnshareable.

(** *** Constructors, assignment, destructor *)

(** [kvfifo()] *)
Definition default_ctor : M kvfifo :=
  do p <- make_shared empty_container; ret (Kvfifo false (Some p)).

(** [kvfifo(kvfifo const &other)]; [unshareable] takes its default
    member initialiser. *)
Definition copy_ctor (other : nat) : M kvfifo :=
  do o <- get_obj other;
  if negb (unshareable o)
  then ret (Kvfifo false (dataPtr o))
  else do c <- deref (dataPtr o);
       do p <- make_shared (container_copy c);
       ret (Kvfifo false (Some p)).

(** [kvfifo(kvfifo &&other) noexcept = default]: the flag is copied, the
    pointer is moved and [other] is left with the null pointer. *)
Definition move_ctor (other : nat) : M kvfifo :=
  do o <- get_obj other;
  do _ <- set_obj other (Kvfifo (unshareable o) None);
  ret o.

(** [operator=(kvfifo other)], given the parameter object. *)
Definition assign (this : nat) (other : kvfifo) : M unit :=
  do _ <- (if negb (unshareable other)
      then set_dataPtr this (dataPtr other)
      else do c <- deref (dataPtr other);
           do p <- make_shared (container_copy c);
           set_dataPtr this (Some p));
  set_unshareable this false.

(** [x = y] and [x = std::move(y)]: the parameter is copy- or
    move-constructed from the argument first. *)
Definition copy_assign (this src : nat) : M unit :=
  do other <- copy_ctor src; assign this other.

Definition move_assign (this src : nat) : M unit :=
  do other <- move_ctor src; assign this other.

(** A declaration [kvfifo y(...)]: the new object gets the next index. *)
Definition declare (ctor : M kvfifo) : M nat :=
  do o <- ctor;
  λ w, Ret (length (objs w))
           (World (heap w) (objs w ++ [Some o]) (guards w) (alloc_budget w)).

(** [~kvfifo()] *)
Definition destroy (this : nat) : M unit :=
  do _ <- get_obj this;
  λ w, Ret tt (World (heap w) (<[this := None]> (objs w)) (guards w) (alloc_budget w)).

(** *** Queries *)

Definition size (this : nat) : M nat :=
  do o <- get_obj this;
  match dataPtr o with
  | None => ret 0
  | Some _ => do c <- deref (dataPtr o); ret (length (pair_list c))
  end.

Definition empty (this : nat) : M bool :=
  do o <- get_obj this;
  match dataPtr o with
  | None => ret true
  | Some _ =>
      do c <- deref (dataPtr o);
      ret (match pair_list c with [] => true | _ => false end)
  end.

Definition count (this : nat) (k : K) : M nat :=
  do o <- get_obj this;
  match dataPtr o with
  | None => ret 0
  | Some _ =>
      do c <- deref (dataPtr o);
      match map_find k (iterator_list_map c) with
      | None => ret 0
      | Some b => ret (length b)
      end
  end.

(** *** Structural mutation *)

(** What [push] does to the cell after [pair_list.push_back]: inside the
    [try] block, by the result [it] of the earlier [find]. *)
Definition push_index (this : nat) (k : K) (it : option bucket_t) : M unit :=
  match it with
  | None =>
      do _ <- alloc;   (* new_list.push_back *)
      do _ <- alloc;   (* iterator_list_map.insert *)
      update_data this (λ c,
        match last_node (pair_list c) with
        | Some n => Some (set_map (map_insert k [n]) c)
        | None => None
        end)
  | Some _ =>
      do _ <- alloc;   (* it->second.push_back *)
      update_data this (λ c,
        match last_node (pair_list c) with
        | Some n => Some (set_map (map_adjust (λ b, b ++ [n]) k) c)
        | None => None
        end)
  end.

Definition push (this : nat) (k : K) (v : V) : M unit :=
  do o <- get_obj this;
  do _ <- (match dataPtr o with
           | None => do p <- make_shared empty_container; set_dataPtr this (Some p)
           | Some _ => ret tt
           end);
  with_guard this (
    do _ <- aboutToModify this false;
    do c <- read_data this;
    let it := map_find k (iterator_list_map c) in
    do _ <- alloc;     (* pair_list.push_back *)
    do _ <- update_data this (λ c, Some (set_pair_list (list_push_back (k, v)) c));
    do _ <- catch_rethrow (push_index this k it)
              (update_data this (λ c, Some (set_pair_list list_pop_back c)));
    no_rollback).

(** The statements of [pop()] on the cell, after [aboutToModify]. *)
Definition pop_front_cell (c : container_t) : option container_t :=
  match pair_list c with
  | [] => None
  | (_, (k, _)) :: _ =>
      match map_find k (iterator_list_map c) with
      | None | Some [] => None
      | Some (_ :: b) =>
          let m := map_adjust tail k (iterator_list_map c) in
          let m := match b with [] => map_erase k m | _ => m end in
          Some (Container m (list_pop_front (pair_list c)))
      end
  end.

Definition pop (this : nat) : M unit :=
  do e <- empty this;
  if e then raise EmptyCollection
  else with_guard this (
    do _ <- aboutToModify this false;
    do _ <- update_data this pop_front_cell;
    no_rollback).

(** The [else] branch of [pop(K const &)], for a bucket [b] found at [k]. *)
Definition pop_key_cell (k : K) (c : container_t) : option container_t :=
  match map_find k (iterator_list_map c) with
  | None | Some [] => None
  | Some (n :: b) =>
      match list_get n (pair_list c) with
      | None => None
      | Some _ =>
          let l := list_erase n (pair_list c) in
          let m := map_adjust tail k (iterator_list_map c) in
          let m := match b with [] => map_erase k m | _ => m end in
          Some (Container m l)
      end
  end.

Definition pop_key (this : nat) (k : K) : M unit :=
  do e <- empty this;
  if e then raise KeyNotFound
  else with_guard this (
    do _ <- aboutToModify this false;
    do c <- read_data this;
    match map_find k (iterator_list_map c) with
    | None => raise KeyNotFound
    | Some _ =>
        do _ <- update_data this (pop_key_cell k);
        no_rollback
    end).

(** The loop of [move_to_back] over the bucket [b]. *)
Fixpoint splice_all (b : bucket_t) (l : k_v_queue_t) : option k_v_queue_t :=
  match b with
  | [] => Some l
  | it2 :: b' =>
      match list_splice_end it2 l with
      | Some l' => splice_all b' l'
      | None => None
      end
  end.

Definition move_to_back_cell (k : K) (c : container_t) : option container_t :=
  match map_find k (iterator_list_map c) with
  | None => None
  | Some b =>
      match splice_all b (pair_list c) with
      | Some l => Some (Container (iterator_list_map c) l)
      | None => None
      end
  end.

Definition move_to_back (this : nat) (k : K) : M unit :=
  do e <- empty this;
  if e then raise KeyNotFound
  else with_guard this (
    do _ <- aboutToModify this false;
    do c <- read_data this;
    match map_find k (iterator_list_map c) with
    | None => raise KeyNotFound
    | Some _ =>
        do _ <- update_data this (move_to_back_cell k);
        no_rollback
    end).

Definition clear (this : nat) : M unit :=
  do o <- get_obj this;
  match dataPtr o with
  | None => ret tt
  | Some _ =>
      with_guard this (
        do _ <- aboutToModify this false;
        do _ <- update_data this (λ _, Some (Container [] []));
        no_rollback)
  end.

(** *** Accessors *)

(** What a returned [std::pair<K const &, V &>] refers to: a node of a
    storage cell. *)
Record entry_ref := EntryRef {
  ref_cell : addr;
  ref_node : node
}.

(** Reading the pair behind the references. *)
Definition ref_read (r : entry_ref) : M (K * V) :=
  do c <- deref (Some (ref_cell r));
  match list_get (ref_node r) (pair_list c) with
  | Some e => ret e
  | None => undefined
  end.

(** [r.second = v] *)
Definition ref_write (r : entry_ref) (v : V) : M unit :=
  do c <- deref (Some (ref_cell r));
  match list_get (ref_node r) (pair_list c) with
  | Some _ => store (Some (ref_cell r)) (set_pair_list (list_set_value (ref_node r) v) c)
  | None => undefined
  end.

Definition front_node (c : container_t) : option node := fst <$> head (pair_list c).
Definition back_node (c : container_t) : option node := fst <$> last (pair_list c).

(** [it->second.front()] and [it->second.back()] for [it = find(key)]. *)
Definition first_node (key : K) (c : container_t) : option node :=
  match map_find key (iterator_list_map c) with
  | Some b => head b
  | None => None
  end.
Definition last_of_key_node (key : K) (c : container_t) : option node :=
  match map_find key (iterator_list_map c) with
  | Some b => last b
  | None => None
  end.

(** The [return {..., ...}] of an accessor: references into the node
    that [pick] selects in the cell of [this]. *)
Definition return_ref (this : nat) (pick : container_t → option node) : M entry_ref :=
  do o <- get_obj this;
  do c <- deref (dataPtr o);
  match dataPtr o, pick c with
  | Some a, Some n => ret (EntryRef a n)
  | _, _ => undefined
  end.

Definition front_const (this : nat) : M entry_ref :=
  do e <- empty this;
  if e then raise EmptyCollection else return_ref this front_node.

Definition front (this : nat) : M entry_ref :=
  do e <- empty this;
  if e then raise EmptyCollection
  else with_guard this (
    do _ <- aboutToModify this true;
    do _ <- no_rollback;
    return_ref this front_node).

Definition back_const (this : nat) : M entry_ref :=
  do e <- empty this;
  if e then raise EmptyCollection else return_ref this back_node.

Definition back (this : nat) : M entry_ref :=
  do e <- empty this;
  if e then raise EmptyCollection
  else with_guard this (
    do _ <- aboutToModify this true;
    do _ <- no_rollback;
    return_ref this back_node).

Definition first_const (this : nat) (key : K) : M entry_ref :=
  do e <- empty this;
  if e then raise KeyNotFound
  else
    do c <- read_data this;
    match map_find key (iterator_list_map c) with
    | None => raise KeyNotFound
    | Some _ => return_ref this (first_node key)
    end.

Definition first (this : nat) (key : K) : M entry_ref :=
  do e <- empty this;
  if e then raise KeyNotFound
  else with_guard this (
    do _ <- aboutToModify this true;
    do c <- read_data this;
    match map_find key (iterator_list_map c) with
    | None => raise KeyNotFound
    | Some _ =>
        do _ <- no_rollback;
        return_ref this (first_node key)
    end).

Definition last_const (this : nat) (key : K) : M entry_ref :=
  do e <- empty this;
  if e then raise KeyNotFound
  else
    do c <- read_data this;
    match map_find key (iterator_list_map c) with
    | None => raise KeyNotFound
    | Some _ => return_ref this (last_of_key_node key)
    end.

Definition last_of_key (this : nat) (key : K) : M entry_ref :=
  do e <- empty this;
  if e then raise KeyNotFound
  else with_guard this (
    do _ <- aboutToModify this true;
    do c <- read_data this;
    match map_find key (iterator_list_map c) with
    | None => raise KeyNotFound
    | Some _ =>
        do _ <- no_rollback;
        return_ref this (last_of_key_node key)
    end).

(** *** [k_iterator] *)

(** A position in the map of a cell; [k_map = None] is the
    value-initialised iterator. *)
Record k_iterator := KIterator {
  k_map : option addr;
  k_pos : nat
}.

Definition k_begin (this : nat) : M k_iterator :=
  do o <- get_obj this;
  match dataPtr o with
  | None => ret (KIterator None 0)
  | Some a => do _ <- deref (Some a); ret (KIterator (Some a) 0)
  end.

Definition k_end (this : nat) : M k_iterator :=
  do o <- get_obj this;
  match dataPtr o with
  | None => ret (KIterator None 0)
  | Some a =>
      do c <- deref (Some a);
      ret (KIterator (Some a) (length (iterator_list_map c)))
  end.

(** [*it] *)
Definition k_deref (it : k_iterator) : M K :=
  do c <- deref (k_map it);
  match iterator_list_map c !! k_pos it with
  | Some (k, _) => ret k
  | None => undefined
  end.

(** [++it]: defined where [it] stands at an entry of the map; at the
    end of the map, and for the value-initialised iterator, the
    behaviour is undefined. *)
Definition k_incr (it : k_iterator) : M k_iterator :=
  do c <- deref (k_map it);
  if decide (k_pos it < length (iterator_list_map c))
  then ret (KIterator (k_map it) (S (k_pos it)))
  else undefined.

(** [--it]: defined after the first position of the map, up to its
    end; at the first position, and for the value-initialised iterator,
    the behaviour is undefined. *)
Definition k_decr (it : k_iterator) : M k_iterator :=
  do c <- deref (k_map it);
  match k_pos it with
  | 0 => undefined
  | S n =>
      if decide (k_pos it ≤ length (iterator_list_map c))
      then ret (KIterator (k_map it) n)
      else undefined
  end.

Definition k_iterator_eqb (a b : k_iterator) : bool :=
  bool_decide (k_map a = k_map b) && Nat.eqb (k_pos a) (k_pos b).

(** The keys read by a loop from [it] until [it == e], stepping with
    [++it], for at most [fuel] rounds. *)
Fixpoint k_collect (fuel : nat) (it e : k_iterator) : M (list K) :=
  if k_iterator_eqb it e then ret []
  else match fuel with
       | 0 => undefined
       | S fuel' =>
           do k <- k_deref it;
           do it' <- k_incr it;
           do ks <- k_collect fuel' it' e;
           ret (k :: ks)
       end.

(** The keys read by a loop from [it] back until [it == b], stepping
    with [--it] before each read, for at most [fuel] rounds. *)
Fixpoint k_collect_back (fuel : nat) (it b : k_iterator) : M (list K) :=
  if k_iterator_eqb it b then ret []
  else match fuel with
       | 0 => undefined
       | S fuel' =>
           do it' <- k_decr it;
           do k <- k_deref it';
           do ks <- k_collect_back fuel' it' b;
           ret (k :: ks)
       end.

(** *** Programs that use the container *)

Inductive accessor :=
  | AFront
  | ABack
  | AFirst (key : K)
  | ALast (key : K).

(** The non-const and the const overload that an accessor names. *)
Definition call (this : nat) (a : accessor) : M entry_ref :=
  match a with
  | AFront => front this
  | ABack => back this
  | AFirst key => first this key
  | ALast key => last_of_key this key
  end.

Definition call_const (this : nat) (a : accessor) : M entry_ref :=
  match a with
  | AFront => front_const this
  | ABack => back_const this
  | AFirst key => first_const this key
  | ALast key => last_const this key
  end.

(** The pair that a const accessor shows, read at once. *)
Definition peek (this : nat) (a : accessor) : M (K * V) :=
  do r <- call_const this a; ref_read r.

(** One statement of a client program.  Objects are named by the order
    of their declaration.  A reference returned by a non-const accessor
    is used within the statement that obtains it. *)
Inductive op :=
  | DeclareNew                           (* kvfifo y;               *)
  | DeclareCopy (src : nat)              (* kvfifo y(x);            *)
  | DeclareMove (src : nat)              (* kvfifo y(std::move(x)); *)
  | Assign (dst src : nat)               (* x = y;                  *)
  | MoveAssign (dst src : nat)           (* x = std::move(y);       *)
  | Destroy (x : nat)                    (* end of the lifetime of x *)
  | Push (x : nat) (k : K) (v : V)       (* x.push(k, v);           *)
  | Pop (x : nat)                        (* x.pop();                *)
  | PopKey (x : nat) (k : K)             (* x.pop(k);               *)
  | MoveToBack (x : nat) (k : K)         (* x.move_to_back(k);      *)
  | Clear (x : nat)                      (* x.clear();              *)
  | Access (x : nat) (a : accessor)      (* x.front(); ...          *)
  | Write (x : nat) (a : accessor) (v : V). (* x.front().second = v; ... *)

Definition run_op (o : op) : M unit :=
  match o with
  | DeclareNew => do _ <- declare default_ctor; ret tt
  | DeclareCopy src => do _ <- declare (copy_ctor src); ret tt
  | DeclareMove src => do _ <- declare (move_ctor src); ret tt
  | Assign dst src => copy_assign dst src
  | MoveAssign dst src => move_assign dst src
  | Destroy x => destroy x
  | Push x k v => push x k v
  | Pop x => pop x
  | PopKey x k => pop_key x k
  | MoveToBack x k => move_to_back x k
  | Clear x => clear x
  | Access x a => do _ <- call x a; ret tt
  | Write x a v => do r <- call x a; ref_write r v
  end.

(** The statements that call a member function which may change the
    queue of [y], or hand out a reference for changing a value in it. *)
Definition mutates (y : nat) (o : op) : Prop :=
  match o with
  | Push x _ _ | Pop x | PopKey x _ | MoveToBack x _ | Clear x
  | Access x _ | Write x _ _ => x = y
  | _ => False
  end.

(** The structural mutations of [y]: insert, remove, move, clear. *)
Definition structural (y : nat) (o : op) : Prop :=
  match o with
  | Push x _ _ | Pop x | PopKey x _ | MoveToBack x _ | Clear x => x = y
  | _ => False
  end.

Definition set_budget (b : option nat) (w : world) : world :=
  World (heap w) (objs w) (guards w) b.

(** The call threw [e]; the call returned. *)
Definition raises {A} (res : outcome A) (e : exn) : Prop :=
  match res with Throw e' _ => e' = e | _ => False end.

Definition returns {A} (res : outcome A) : Prop :=
  match res with Ret _ _ => True | _ => False end.

(** A statement together with the state of the allocator it runs in. *)
Definition stmt : Type := option nat * op.

(** The world after a statement, whether it returned or threw (the
    client catches); [None] when the behaviour is undefined. *)
Definition step (s : stmt) (w : world) : option world :=
  match run_op s.2 (set_budget s.1 w) with
  | Ret _ w' => Some w'
  | Throw _ w' => Some w'
  | Undefined => None
  end.

Fixpoint exec (prog : list stmt) (w : world) : option world :=
  match prog with
  | [] => Some w
  | s :: prog' =>
      match step s w with
      | Some w' => exec prog' w'
      | None => None
      end
  end.

Definition init : world := World [] [] [] None.

(** [x.push(k, v)] for each pair of [kvs], with an allocator that does
    not fail. *)
Definition pushes (x : nat) (kvs : list (K * V)) : list stmt :=
  (λ kv, (None, Push x kv.1 kv.2)) <$> kvs.

(** *** What a client can observe of an object *)

(** The storage of an object; a null [dataPtr] stands for an empty
    queue. *)
Definition contents (w : world) (x : nat) : container_t :=
  match objs w !! x with
  | Some (Some o) =>
      match dataPtr o with
      | Some a => default empty_container (heap w !! a)
      | None => empty_container
      end
  | _ => empty_container
  end.

Definition entries (c : container_t) : list (K * V) := (pair_list c).*2.

Definition keys (c : container_t) : list K := (iterator_list_map c).*1.

Definition live (w : world) (x : nat) : Prop := ∃ o, objs w !! x = Some (Some o).

(** The entries that hold key [k], oldest first. *)
Definition with_key (k : K) (es : list (K * V)) : list (K * V) :=
  filter (λ e, e.1 = k) es.

(** The entries that hold another key than [k], in their order. *)
Definition without_key (k : K) (es : list (K * V)) : list (K * V) :=
  filter (λ e, e.1 ≠ k) es.

(** The entries without the oldest one that holds key [k]. *)
Fixpoint remove_first (k : K) (es : list (K * V)) : list (K * V) :=
  match es with
  | [] => []
  | e :: es' => if decide (e.1 = k) then es' else e :: remove_first k es'
  end.

(** The entry that an accessor is about, and the error it raises when
    there is none. *)
Definition select (a : accessor) (es : list (K * V)) : option (K * V) :=
  match a with
  | AFront => head es
  | ABack => last es
  | AFirst key => head (with_key key es)
  | ALast key => last (with_key key es)
  end.

Definition error_of (a : accessor) : exn :=
  match a with
  | AFront | ABack => EmptyCollection
  | AFirst _ | ALast _ => KeyNotFound
  end.

Definition pick_of (a : accessor) : container_t → option node :=
  match a with
  | AFront => front_node
  | ABack => back_node
  | AFirst key => first_node key
  | ALast key => last_of_key_node key
  end.

(** The four accessors of either kind, by what they share. *)

(** The part of a non-const accessor that follows [aboutToModify]. *)
Definition accessor_rest (this : nat) (acc : accessor) : M entry_ref :=
  match acc with
  | AFront | ABack => do _ <- no_rollback; return_ref this (pick_of acc)
  | AFirst key | ALast key =>
      do c <- read_data this;
      match map_find key (iterator_list_map c) with
      | None => raise KeyNotFound
      | Some _ => do _ <- no_rollback; return_ref this (pick_of acc)
      end
  end.

(** The part of a const accessor that follows the test of [empty()]. *)
Definition accessor_const_rest (this : nat) (acc : accessor) : M entry_ref :=
  match acc with
  | AFront | ABack => return_ref this (pick_of acc)
  | AFirst key | ALast key =>
      do c <- read_data this;
      match map_find key (iterator_list_map c) with
      | None => raise KeyNotFound
      | Some _ => return_ref this (pick_of acc)
      end
  end.

(** The number that [count(k)] returns for object [x]. *)
Definition count_of (w : world) (x : nat) (k : K) : nat :=
  match count x k w with Ret n _ => n | _ => 0 end.

(** The reference [r] goes into the storage of [this] and shows [e]. *)
Definition refers_to (w : world) (this : nat) (r : entry_ref) (e : K * V) : Prop :=
  ∃ o c, objs w !! this = Some (Some o) ∧ dataPtr o = Some (ref_cell r) ∧
         heap w !! ref_cell r = Some c ∧
         list_get (ref_node r) (pair_list c) = Some e.

(** [peek] then [pop], [n] times: the pairs seen at the front. *)
Fixpoint drain (n : nat) (this : nat) : M (list (K * V)) :=
  match n with
  | 0 => ret []
  | S n' =>
      do e <- peek this AFront;
      do _ <- pop this;
      do es <- drain n' this;
      ret (e :: es)
  end.

(** ** The invariants of a storage cell and of a world *)

(** The nodes that hold key [k], in queue order. *)
Definition nodes_of (k : K) (l : k_v_queue_t) : list node :=
  (filter (λ x, x.2.1 = k) l).*1.

Definition bucket_of (b : list node) : option bucket_t :=
  match b with [] => None | _ => Some b end.

(** I1-I3: node identities are distinct, the map is in ascending key
    order, and the bucket of every key lists exactly the nodes that hold
    the key, in queue order; a key without nodes has no bucket. *)
Record wf_container (c : container_t) : Prop := {
  wf_nodes : NoDup (pair_list c).*1;
  wf_sorted : StronglySorted (λ a b, key_lt a b = true) (keys c);
  wf_index : ∀ k, map_find k (iterator_list_map c) = bucket_of (nodes_of k (pair_list c))
}.

(** I4 for a pair of objects. *)
Definition pinned_private (w : world) : Prop :=
  ∀ i j o o' a, i ≠ j →
    objs w !! i = Some (Some o) → objs w !! j = Some (Some o') →
    unshareable o = true → dataPtr o = Some a → dataPtr o' ≠ Some a.

Record wf_world (w : world) : Prop := {
  wf_guards : guards w = [];
  wf_ptrs : ∀ i o a, objs w !! i = Some (Some o) → dataPtr o = Some a → a < length (heap w);
  wf_cells : ∀ a c, heap w !! a = Some c → wf_container c;
  wf_pinned : pinned_private w
}.

(** An object [o'] that takes slot [x] of the object table gets in the
    way of no other object: it shares a cell only when neither is
    pinned. *)
Definition no_conflict (w : world) (x : nat) (o' : kvfifo) : Prop :=
  ∀ j oj a, j ≠ x → objs w !! j = Some (Some oj) →
    dataPtr o' = Some a → dataPtr oj = Some a →
    unshareable o' = false ∧ unshareable oj = false.

(** What a call on [this] leaves alone: the other objects and what they
    hold. *)
Definition frame (this : nat) (w w' : world) : Prop :=
  length (objs w') = length (objs w) ∧
  ∀ j, j ≠ this → objs w' !! j = objs w !! j ∧ contents w' j = contents w j.

(** A call that had no effect that a client can see. *)
Record unchanged (w w' : world) : Prop := {
  unch_wf : wf_world w';
  unch_length : length (objs w') = length (objs w);
  unch_live : ∀ x, live w' x ↔ live w x;
  unch_contents : ∀ x, contents w' x = contents w x
}.

(** The world in which a call ended by an exception shows what [w]
    showed. *)
Definition intact {A} (w : world) (res : outcome A) : Prop :=
  match res with
  | Throw _ w' => unchanged w w'
  | _ => True
  end.

(** A call on [this] that returned: the object now holds storage of
    its own, with [unshareable = mark]. *)
Record modified (this : nat) (mark : bool) (w w' : world) : Prop := {
  mod_wf : wf_world w';
  mod_frame : frame this w w';
  mod_obj : ∃ a, objs w' !! this = Some (Some (Kvfifo mark (Some a)));
  mod_budget : alloc_budget w = None → alloc_budget w' = None
}.

(** The state inside a guarded call on [this] after [aboutToModify]:
    [this] points to the cell [a2], which no other object holds; the
    cell is the one it had ([a]) or a copy made at the end of the heap. *)
Record owned (w : world) (this : nat) (o : kvfifo) (a : addr) (c : container_t)
    (mark : bool) (w2 : world) (a2 : addr) (c2 : container_t) : Prop := {
  own_guards : guards w2 = [Guard this (Some a) (unshareable o) true];
  own_objs : objs w2 = <[this := Some (Kvfifo mark (Some a2))]> (objs w);
  own_cell : heap w2 !! a2 = Some c2;
  own_entries : entries c2 = entries c;
  own_wf : wf_container c2;
  own_private : ∀ j o', j ≠ this → objs w !! j = Some (Some o') → dataPtr o' ≠ Some a2;
  own_heap : (a2 = a ∧ c2 = c ∧ heap w2 = heap w)
             ∨ (a2 = length (heap w) ∧ heap w2 = heap w ++ [c2]);
  own_budget : alloc_budget w2 = alloc_budget w
               ∨ ∃ n, alloc_budget w = Some (S n) ∧ alloc_budget w2 = Some n
}.

(** How the result [res] of a call in the world [w] goes with its error
    [e] and the condition [cond] of that error: [e] is thrown only when
    [cond] holds and the call returns only when it does not; when
    [cond] holds the call throws [e], or [bad_alloc] if the allocator
    can fail; with an allocator that does not fail, [e] is thrown
    exactly when [cond] holds, and otherwise the call returns; and a
    call that throws leaves every object showing what it showed. *)
Definition error_law {A} (w : world) (res : outcome A) (e : exn) (cond : Prop) : Prop :=
  (raises res e → cond) ∧
  (returns res → ¬ cond) ∧
  (cond → raises res e ∨ (alloc_budget w ≠ None ∧ raises res bad_alloc)) ∧
  (alloc_budget w = None → (cond → raises res e) ∧ (¬ cond → returns res)) ∧
  intact w res.

(** The body [rest] of a guarded member function of [this], run after
    [aboutToModify] with the guard [g] alive: when it returns, it has
    written to the cell of [this] only and has left the object table
    alone; when it throws, the guard has put back the pointer and the
    flag it holds. *)
Definition guarded_body {A} (this : nat) (rest : M A) : Prop :=
  ∀ h os g b u a c,
    os !! this = Some (Some (Kvfifo u (Some a))) → h !! a = Some c → rollback g = true →
    match leave_scope (rest (World h os [g] b)) with
    | Ret _ w' =>
        objs w' = os ∧ length (heap w') = length h ∧ ∀ a', a' ≠ a → heap w' !! a' = h !! a'
    | Throw _ w' =>
        objs w' = <[guarded g := Some (Kvfifo (guarded_unshareable g) (guarded_data g))]> os
    | Undefined => True
    end.

(** Such a body makes no request to the allocator when it returns:
    what it returns with an allocator that does not fail, it returns
    with every other, and leaves the allocator as it is. *)
Definition asks_no_memory {A} (this : nat) (rest : M A) : Prop :=
  ∀ h os g b u a c r w1,
    os !! this = Some (Some (Kvfifo u (Some a))) → h !! a = Some c → rollback g = true →
    leave_scope (rest (World h os [g] None)) = Ret r w1 →
    leave_scope (rest (World h os [g] b)) = Ret r (set_budget b w1).

(** No other object holds the storage of [x]. *)
Definition sole_owner (w : world) (x : nat) : Prop :=
  ∀ o a j oj, objs w !! x = Some (Some o) → dataPtr o = Some a →
    j ≠ x → objs w !! j = Some (Some oj) → dataPtr oj ≠ Some a.

(** The structural mutations that take entries out or reorder them. *)
Definition removal (y : nat) (o : op) : Prop :=
  match o with
  | Pop x | PopKey x _ | MoveToBack x _ | Clear x => x = y
  | _ => False
  end.


End Model.

Notation "'do' x <- c1 ; c2" := (bind c1 (λ x, c2))
  (at level 10, x name, c1 at level 100, c2 at level 200).

(** ** Client programs over integer keys and values *)

Module Demo.

Definition a : Z := 1%Z.
Definition b : Z := 2%Z.

Abbreviation zstmt := (stmt (K:=Z) (V:=Z)).
Abbreviation zworld := (world (K:=Z) (V:=Z)).

Definition ok (o : op (K:=Z) (V:=Z)) : zstmt := (None, o).

Definition world_of (prog : list zstmt) : zworld := default init (exec prog init).

(** insert (a,1), (b,2), (a,3) into a new queue *)
Definition aba : list zstmt :=
  [ok DeclareNew; ok (Push 0 a 1%Z); ok (Push 0 b 2%Z); ok (Push 0 a 3%Z)].

Definition w_aba : zworld := Eval vm_compute in world_of aba.

(** ... and copy the queue: objects 0 and 1 share one cell *)
Definition shared : list zstmt := aba ++ [ok (DeclareCopy 0)].

Definition w_shared : zworld := Eval vm_compute in world_of shared.

(** ... or call the non-const [front()]: object 0 is pinned *)
Definition pinned : list zstmt := aba ++ [ok (Access 0 AFront)].

Definition w_pinned : zworld := Eval vm_compute in world_of pinned.

(** ... and then move from it: object 0 keeps the flag and has no
    storage, object 1 has taken the storage over *)
Definition moved : list zstmt := pinned ++ [ok (DeclareMove 0)].

Definition w_moved : zworld := Eval vm_compute in world_of moved.

(** an empty queue *)
Definition w_empty : zworld := Eval vm_compute in world_of [ok DeclareNew].

(** the worlds after one more statement *)
Definition w_popped : zworld := Eval vm_compute in world_of (aba ++ [ok (Pop 0)]).

Definition w_written : zworld :=
  Eval vm_compute in world_of (aba ++ [ok (Write 0 AFront 9%Z)]).

Definition w_cow : zworld := Eval vm_compute in world_of (shared ++ [ok (Pop 1)]).

Definition w_failed : zworld := Eval vm_compute in world_of (shared ++ [ok (PopKey 1 7%Z)]).

Definition w_revived : zworld := Eval vm_compute in world_of (moved ++ [ok (Push 0 5 5)%Z]).


End Demo.

(** * Proofs *)

Section Facts.
Context {K V : Type} `{KO : KeyOrder K}.

Implicit Types (k : K) (v : V) (n : node) (m : list (K * list node)).
Implicit Types (l : list (node * (K * V))) (c : container_t (K:=K) (V:=V)).
Implicit Types (w : world (K:=K) (V:=V)) (h : list (container_t (K:=K) (V:=V))).
Implicit Types (os : list (option kvfifo)) (gs : list copy_guard_t) (g : copy_guard_t).

(** ** Keys *)

Lemma key_equiv_decide k k' : key_equiv k k' = bool_decide (k = k').
Proof.
  destruct (key_equiv k k') eqn:E.
  - apply key_equiv_true in E. by rewrite bool_decide_eq_true_2.
  - rewrite bool_decide_eq_false_2; [done|].
    intros Hk%key_equiv_true. congruence.
Qed.

Lemma key_lt_neq k k' : key_lt k k' = true → k ≠ k'.
Proof. intros Hlt ->. rewrite key_lt_irrefl in Hlt. done. Qed.

(** ** The map *)

Lemma map_find_cons k k' b m :
  map_find k ((k', b) :: m) = if decide (k' = k) then Some b else map_find k m.
Proof. cbn [map_find]. rewrite key_equiv_decide. by case_bool_decide; case_decide. Qed.

Lemma map_find_insert k k' b m :
  map_find k m = None →
  map_find k' (map_insert k b m) = if decide (k' = k) then Some b else map_find k' m.
Proof.
  induction m as [|[k0 b0] m IH]; intros Hnone.
  - cbn [map_insert]. rewrite map_find_cons. by repeat case_decide.
  - rewrite map_find_cons in Hnone. case_decide as Hk0; [done|].
    cbn [map_insert]. destruct (key_lt k k0) eqn:E1; [|destruct (key_lt k0 k) eqn:E2].
    + rewrite (map_find_cons k' k). repeat case_decide; congruence.
    + rewrite !(map_find_cons k' k0), IH by done. repeat case_decide; congruence.
    + destruct Hk0. symmetry. by apply key_lt_total.
Qed.

Lemma map_find_adjust f k k' m :
  map_find k' (map_adjust f k m) =
    if decide (k' = k) then f <$> map_find k m else map_find k' m.
Proof.
  induction m as [|[k0 b0] m IH]; [by case_decide|].
  cbn [map_adjust]. rewrite key_equiv_decide. case_bool_decide as E.
  - subst k0. rewrite !map_find_cons. repeat case_decide; simpl; congruence.
  - rewrite !map_find_cons, IH. repeat case_decide; congruence.
Qed.

Lemma keys_adjust f k m : (map_adjust f k m).*1 = m.*1.
Proof.
  induction m as [|[k0 b0] m IH]; [done|].
  cbn [map_adjust]. destruct (key_equiv k0 k); [done|]. by cbn; rewrite IH.
Qed.

Lemma keys_insert_elem k k' b m :
  k' ∈ (map_insert k b m).*1 → k' = k ∨ k' ∈ m.*1.
Proof.
  induction m as [|[k0 b0] m IH]; cbn.
  - rewrite list_elem_of_singleton. auto.
  - destruct (key_lt k k0); [|destruct (key_lt k0 k)]; cbn;
      rewrite ?elem_of_cons; naive_solver.
Qed.

Lemma keys_erase_elem k k' m : k' ∈ (map_erase k m).*1 → k' ∈ m.*1.
Proof.
  induction m as [|[k0 b0] m IH]; cbn; [done|].
  destruct (key_equiv k0 k); cbn; rewrite ?elem_of_cons; naive_solver.
Qed.

Abbreviation key_sorted := (StronglySorted (λ a b : K, key_lt a b = true)).

Lemma sorted_insert k b m : key_sorted m.*1 → key_sorted (map_insert k b m).*1.
Proof.
  induction m as [|[k0 b0] m IH]; intros Hs; cbn.
  - repeat constructor.
  - cbn in Hs. apply StronglySorted_inv in Hs as [Hs Hall].
    destruct (key_lt k k0) eqn:E1; [|destruct (key_lt k0 k) eqn:E2]; cbn.
    + constructor; [by constructor|]. constructor; [done|].
      eapply Forall_impl; [exact Hall|]. intros x Hx. by eapply key_lt_trans.
    + constructor; [by apply IH|]. apply Forall_forall. intros x Hx.
      apply keys_insert_elem in Hx as [->|Hx]; [done|].
      by eapply Forall_forall in Hall.
    + by constructor.
Qed.

Lemma sorted_erase k m : key_sorted m.*1 → key_sorted (map_erase k m).*1.
Proof.
  induction m as [|[k0 b0] m IH]; intros Hs; cbn; [constructor|].
  cbn in Hs. apply StronglySorted_inv in Hs as [Hs Hall].
  destruct (key_equiv k0 k); [done|]. cbn. constructor; [by apply IH|].
  apply Forall_forall. intros x Hx%keys_erase_elem. by eapply Forall_forall in Hall.
Qed.

Lemma map_find_not_elem k m : k ∉ m.*1 → map_find k m = None.
Proof.
  induction m as [|[k0 b0] m IH]; [done|]. cbn [fmap list_fmap fst].
  rewrite not_elem_of_cons, map_find_cons. intros [? ?]. case_decide; [congruence|auto].
Qed.

Lemma map_find_elem k b m : map_find k m = Some b → k ∈ m.*1.
Proof.
  induction m as [|[k0 b0] m IH]; [done|]. rewrite map_find_cons. cbn.
  case_decide; [subst; left|right; auto].
Qed.

Lemma map_find_erase k k' m :
  key_sorted m.*1 →
  map_find k' (map_erase k m) = if decide (k' = k) then None else map_find k' m.
Proof.
  induction m as [|[k0 b0] m IH]; intros Hs; [by case_decide|].
  cbn in Hs. apply StronglySorted_inv in Hs as [Hs Hall].
  cbn [map_erase]. rewrite key_equiv_decide. case_bool_decide as E.
  - subst k0. rewrite map_find_cons. repeat case_decide; try congruence.
    subst k'. apply map_find_not_elem. intros Hin.
    eapply Forall_forall in Hall; [|exact Hin]. by rewrite key_lt_irrefl in Hall.
  - rewrite !map_find_cons, IH by done. repeat case_decide; congruence.
Qed.

(** ** The list of nodes *)

Lemma list_get_elem n e l : list_get n l = Some e → (n, e) ∈ l.
Proof.
  induction l as [|[n' e'] l IH]; [done|]. cbn.
  case_decide; [intros [= ->]; subst; left|right; auto].
Qed.

Lemma list_get_None n l : n ∉ l.*1 → list_get n l = None.
Proof.
  induction l as [|[n' e'] l IH]; [done|]. cbn.
  rewrite not_elem_of_cons. intros [? ?]. case_decide; [congruence|auto].
Qed.

Lemma list_get_NoDup n e l : NoDup l.*1 → (n, e) ∈ l → list_get n l = Some e.
Proof.
  induction l as [|[n' e'] l IH]; [by intros _ ?%elem_of_nil|].
  cbn. intros [Hn Hl]%NoDup_cons [[= -> ->]|Hin]%elem_of_cons.
  - by case_decide.
  - case_decide; [|by apply IH]. subst n'. destruct Hn.
    by apply (list_elem_of_fmap_2 fst) in Hin.
Qed.

Lemma list_erase_notin n l : n ∉ l.*1 → list_erase n l = l.
Proof.
  unfold list_erase. induction l as [|[n' e'] l IH]; [done|].
  rewrite fmap_cons, not_elem_of_cons. cbn [fst]. intros [? ?].
  rewrite filter_cons_True by (cbn; congruence). f_equal. auto.
Qed.

Lemma list_erase_middle n e l1 l2 :
  NoDup (l1 ++ (n, e) :: l2).*1 → list_erase n (l1 ++ (n, e) :: l2) = l1 ++ l2.
Proof.
  rewrite fmap_app, fmap_cons. cbn. intros Hnd.
  apply NoDup_app in Hnd as (Hnd1 & Hdisj & Hnd2).
  apply NoDup_cons in Hnd2 as [Hn2 Hnd2].
  unfold list_erase. rewrite filter_app, filter_cons_False by (cbn; auto).
  fold (list_erase n l1). fold (list_erase n l2).
  rewrite !list_erase_notin; [done|done|].
  intros Hin. apply (Hdisj _ Hin). left.
Qed.

Lemma filter_first {A} (P : A → Prop) `{!∀ x, Decision (P x)} (xs : list A) x r :
  filter P xs = x :: r →
  ∃ ys zs, xs = ys ++ x :: zs ∧ filter P ys = [] ∧ P x ∧ filter P zs = r.
Proof.
  induction xs as [|y xs IH]; [done|]. rewrite filter_cons. case_decide as Hy.
  - intros [= -> <-]. by exists [], xs.
  - intros (ys & zs & -> & ? & ? & ?)%IH. exists (y :: ys), zs.
    by rewrite filter_cons_False.
Qed.

Lemma nodes_of_app k l1 l2 : nodes_of k (l1 ++ l2) = nodes_of k l1 ++ nodes_of k l2.
Proof. unfold nodes_of. by rewrite filter_app, fmap_app. Qed.

Lemma nodes_of_cons k n k' v l :
  nodes_of k ((n, (k', v)) :: l) =
    if decide (k' = k) then n :: nodes_of k l else nodes_of k l.
Proof. unfold nodes_of. rewrite filter_cons. cbn. by case_decide. Qed.

Lemma nodes_of_elem k n l : n ∈ nodes_of k l → n ∈ l.*1.
Proof.
  unfold nodes_of. intros ([n' e] & -> & [_ Hin]%list_elem_of_filter)%list_elem_of_fmap.
  by apply (list_elem_of_fmap_2 fst) in Hin.
Qed.

Lemma entries_with_key k l :
  with_key k l.*2 = (filter (λ x : node * (K * V), x.2.1 = k) l).*2.
Proof.
  unfold with_key. induction l as [|[n [k' v]] l IH]; [done|].
  rewrite fmap_cons, !filter_cons. cbn [fst snd].
  case_decide; [rewrite fmap_cons; cbn [snd]; f_equal|]; exact IH.
Qed.

Lemma length_nodes_of k l : length (nodes_of k l) = length (with_key k l.*2).
Proof. rewrite entries_with_key. unfold nodes_of. by rewrite !length_fmap. Qed.

Lemma fresh_node_bound l n : n ∈ l.*1 → n < fresh_node l.
Proof.
  unfold fresh_node. induction l as [|[n' e] l IH]; [by intros ?%elem_of_nil|].
  cbn. intros [->|Hin]%elem_of_cons; [lia|]. apply IH in Hin. lia.
Qed.

Lemma fresh_node_notin l : fresh_node l ∉ l.*1.
Proof. intros Hin%fresh_node_bound. lia. Qed.

Lemma node_unique l x y : NoDup l.*1 → x ∈ l → y ∈ l → x.1 = y.1 → x = y.
Proof.
  destruct x as [n e], y as [n' e']. cbn. intros Hnd Hx Hy <-.
  apply (list_get_NoDup _ _ _ Hnd) in Hx, Hy. congruence.
Qed.

Lemma filter_ext_in {A} (P Q : A → Prop)
    `{!∀ x, Decision (P x), !∀ x, Decision (Q x)} (xs : list A) :
  (∀ x, x ∈ xs → P x ↔ Q x) → filter P xs = filter Q xs.
Proof.
  induction xs as [|x xs IH]; intros Hiff; [done|].
  rewrite !filter_cons, IH by (intros; apply Hiff; by right).
  pose proof (Hiff x (list_elem_of_here _ _)).
  do 2 case_decide; naive_solver.
Qed.

Lemma omap_fst_id {A B} (g : A → option (A * B)) (xs : list (A * B)) :
  (∀ x, x ∈ xs → g x.1 = Some x) → omap g xs.*1 = xs.
Proof.
  induction xs as [|x xs IH]; intros Hg; [done|]. cbn.
  rewrite (Hg x) by left. f_equal. apply IH. intros; apply Hg; by right.
Qed.

Lemma remove_first_middle k (es1 es2 : list (K * V)) e :
  with_key k es1 = [] → e.1 = k → remove_first k (es1 ++ e :: es2) = es1 ++ es2.
Proof.
  unfold with_key. induction es1 as [|e1 es1 IH]; cbn [app remove_first].
  - intros _ ?. by case_decide.
  - rewrite filter_cons. case_decide; [done|]. intros ? ?. f_equal. auto.
Qed.

(** ** Storage cells keep their invariant *)

Lemma bucket_of_Some (b b' : list node) : bucket_of b = Some b' → b = b' ∧ b' ≠ [].
Proof. destruct b; [done|]. by intros [= <-]. Qed.

Lemma wf_empty : wf_container (K:=K) (V:=V) empty_container.
Proof. split; cbn; [constructor|constructor|done]. Qed.

Lemma wf_index_node m l n k v :
  wf_container (Container m l) → n ∉ l.*1 →
  wf_container (Container (index_node m (n, (k, v))) (l ++ [(n, (k, v))])).
Proof.
  intros [Hnd Hs Hidx] Hn. unfold keys in Hs. cbn [pair_list iterator_list_map] in *.
  split; cbn [pair_list iterator_list_map].
  - rewrite fmap_app. apply NoDup_app. split_and!; [done| |apply NoDup_singleton].
    intros x Hx ->%list_elem_of_singleton. done.
  - unfold keys, index_node. cbn [iterator_list_map fst snd].
    destruct (map_find k m); [by rewrite keys_adjust|by apply sorted_insert].
  - intros k'. rewrite nodes_of_app, nodes_of_cons. unfold index_node. cbn [fst snd].
    pose proof (Hidx k) as Hk. pose proof (Hidx k') as Hk'.
    destruct (map_find k m) as [b|] eqn:E.
    + symmetry in Hk. apply bucket_of_Some in Hk as [Hk Hb].
      rewrite map_find_adjust. case_decide as Hkk.
      * subst k'. rewrite decide_True by done. rewrite E, Hk. cbn.
        destruct b; [done|]. done.
      * rewrite decide_False by congruence. by rewrite app_nil_r.
    + rewrite map_find_insert by done. case_decide as Hkk.
      * subst k'. rewrite decide_True by done.
        destruct (nodes_of k l); [done|discriminate].
      * rewrite decide_False by congruence. by rewrite app_nil_r.
Qed.

Lemma pop_key_cell_spec k c b :
  wf_container c → map_find k (iterator_list_map c) = Some b →
  ∃ c' l1 n e l2,
    pop_key_cell k c = Some c' ∧ wf_container c' ∧
    pair_list c = l1 ++ (n, e) :: l2 ∧ with_key k l1.*2 = [] ∧ e.1 = k ∧
    pair_list c' = l1 ++ l2.
Proof.
  destruct c as [m l]. intros [Hnd Hs Hidx] Hb. unfold keys in Hs.
  cbn [pair_list iterator_list_map] in *.
  pose proof (Hidx k) as Hk. rewrite Hb in Hk. symmetry in Hk.
  apply bucket_of_Some in Hk as [Hk Hne]. destruct b as [|n b]; [done|].
  unfold nodes_of in Hk.
  destruct (filter (λ x, x.2.1 = k) l) as [|[n' e] r] eqn:Hf; [done|].
  rewrite fmap_cons in Hk. cbn [fst] in Hk. injection Hk as -> <-.
  apply filter_first in Hf as (l1 & l2 & -> & Hl1 & He & Hl2). cbn in He.
  assert (Hr1 : nodes_of k l1 = []) by (unfold nodes_of; by rewrite Hl1).
  assert (Hr2 : nodes_of k l2 = r.*1) by (unfold nodes_of; by rewrite Hl2).
  assert (Hnd' : NoDup (l1 ++ l2).*1).
  { revert Hnd. rewrite !fmap_app, fmap_cons, !NoDup_app, NoDup_cons.
    intros (? & Hd & ? & ?). split_and!; [done| |done].
    intros x Hx Hx2. apply (Hd x Hx). by right. }
  eexists _, l1, n, e, l2. unfold pop_key_cell. cbn [iterator_list_map pair_list].
  rewrite Hb, (list_get_NoDup n e) by (done || (apply elem_of_app; right; left)).
  rewrite list_erase_middle by done.
  split_and!; [done| |done|by rewrite entries_with_key, Hl1|done|done].
  split; cbn [iterator_list_map pair_list].
  - done.
  - unfold keys. cbn [iterator_list_map].
    destruct (r.*1); [apply sorted_erase|]; by rewrite keys_adjust.
  - intros k'. pose proof (Hidx k') as Hk'.
    destruct e as [ke ve]. cbn in He. subst ke.
    rewrite nodes_of_app, nodes_of_cons in Hk'. rewrite nodes_of_app.
    assert (Hfind : map_find k' (map_adjust tail k m) =
                    if decide (k' = k) then Some r.*1 else map_find k' m).
    { rewrite map_find_adjust, Hb. done. }
    destruct (decide (k' = k)) as [->|Hkk].
    + rewrite Hr1, Hr2. cbn [app]. destruct (r.*1) eqn:Er.
      * rewrite map_find_erase by (by rewrite keys_adjust). by rewrite decide_True.
      * done.
    + rewrite decide_False in Hk' by congruence.
      destruct (r.*1); [|congruence].
      rewrite map_find_erase by (by rewrite keys_adjust).
      rewrite decide_False by done. congruence.
Qed.

Lemma pop_front_cell_spec c n e l' :
  wf_container c → pair_list c = (n, e) :: l' →
  ∃ c', pop_front_cell c = Some c' ∧ wf_container c' ∧ pair_list c' = l'.
Proof.
  destruct c as [m l]. intros Hwf Hl. cbn [pair_list] in Hl. subst l.
  destruct e as [k v].
  pose proof (wf_index _ Hwf k) as Hk. cbn [pair_list iterator_list_map] in Hk.
  rewrite nodes_of_cons, decide_True in Hk by done. cbn [bucket_of] in Hk.
  destruct (pop_key_cell_spec k _ _ Hwf Hk)
    as (c' & l1 & n1 & e1 & l2 & Hpop & Hwf' & Hl & Hl1 & He1 & Hl').
  cbn [pair_list] in Hl. destruct l1 as [|x l1].
  - cbn [app] in Hl. injection Hl as <- <- <-. exists c'. split_and!; [|done|done].
    rewrite <-Hpop. unfold pop_front_cell, pop_key_cell.
    cbn [pair_list iterator_list_map]. rewrite Hk. cbn [list_get].
    rewrite decide_True by done. unfold list_erase.
    rewrite filter_cons_False by (cbn; auto). fold (list_erase n l').
    rewrite list_erase_notin; [done|].
    pose proof (wf_nodes _ Hwf) as Hnd. cbn [pair_list] in Hnd.
    rewrite fmap_cons in Hnd. by apply NoDup_cons in Hnd as [? _].
  - cbn [app] in Hl. injection Hl as <- _. exfalso. revert Hl1.
    unfold with_key. rewrite fmap_cons, filter_cons_True; done.
Qed.

Lemma omap_ext_in {A B} (f g : A → option B) (xs : list A) :
  (∀ x, x ∈ xs → f x = g x) → omap f xs = omap g xs.
Proof.
  induction xs as [|x xs IH]; intros Hfg; [done|]. cbn.
  rewrite (Hfg x) by left. rewrite IH; [done|]. intros; apply Hfg; by right.
Qed.

Lemma list_get_app n l1 l2 :
  list_get n (l1 ++ l2) =
    match list_get n l1 with Some e => Some e | None => list_get n l2 end.
Proof.
  induction l1 as [|[n1 e1] l1 IH]; [done|]. cbn. by case_decide.
Qed.

Lemma splice_all_spec (b : list node) l :
  NoDup l.*1 → NoDup b → (∀ n, n ∈ b → n ∈ l.*1) →
  splice_all b l =
    Some (filter (λ x, x.1 ∉ b) l ++ omap (λ n, pair n <$> list_get n l) b).
Proof.
  revert l. induction b as [|n b IH]; intros l Hnd Hb Hsub.
  - cbn. rewrite app_nil_r. f_equal. symmetry. clear.
    induction l as [|x l IHl]; [done|].
    rewrite filter_cons_True by (intros ?%elem_of_nil; done). by f_equal.
  - apply NoDup_cons in Hb as [Hn Hb]. cbn [splice_all]. unfold list_splice_end.
    destruct (list_get n l) as [e|] eqn:Hget.
    2:{ exfalso. assert (n ∈ l.*1) as Hin by (apply Hsub; left).
        apply list_elem_of_fmap in Hin as ([n' e'] & -> & Hin).
        by rewrite (list_get_NoDup _ e') in Hget. }
    pose proof (list_get_elem _ _ _ Hget) as Hin.
    apply list_elem_of_split in Hin as (l1 & l2 & ->).
    rewrite list_erase_middle by done.
    assert (Hnd' : NoDup ((l1 ++ l2) ++ [(n, e)]).*1).
    { revert Hnd. rewrite !fmap_app, !fmap_cons, !NoDup_app, !NoDup_cons. cbn.
      intros (? & Hd & ? & ?). split_and!; [done| | done| | | ].
      - intros x Hx Hx2. apply (Hd x Hx). by right.
      - intros x [Hx|Hx]%elem_of_app ->%list_elem_of_singleton; [|done].
        apply (Hd _ Hx). left.
      - apply not_elem_of_nil.
      - constructor. }
    rewrite IH; [|done|done|].
    2:{ intros n' Hn'. pose proof (Hsub n' (list_elem_of_further _ _ _ Hn')) as Hin.
        revert Hin. rewrite !fmap_app, !fmap_cons, !elem_of_app, !elem_of_cons. cbn.
        naive_solver. }
    f_equal. rewrite !filter_app, filter_cons_True by done.
    rewrite filter_cons_False by (cbn; intros Hx; apply Hx; left).
    rewrite !(filter_ext_in (λ x, x.1 ∉ n :: b) (λ x, x.1 ∉ b) l1),
            !(filter_ext_in (λ x, x.1 ∉ n :: b) (λ x, x.1 ∉ b) l2).
    2,3: intros [n' e'] Hx; cbn; rewrite not_elem_of_cons; split; [naive_solver|];
         intros ?; split; [|done]; intros ->;
         revert Hnd; rewrite !fmap_app, !fmap_cons, !NoDup_app, !NoDup_cons; cbn;
         intros (? & Hd & Hn2 & ?); apply (list_elem_of_fmap_2 fst) in Hx; cbn in Hx.
    2:{ done. }
    2:{ apply (Hd _ Hx). left. }
    rewrite <-!app_assoc. f_equal. f_equal. cbn [omap list_omap app].
    rewrite list_get_NoDup with (e:=e) by (done || (apply elem_of_app; right; left)).
    cbn. f_equal. apply omap_ext_in. intros n' Hn'.
    assert (n ≠ n') by congruence.
    rewrite !list_get_app. cbn [list_get]. rewrite !decide_False by done.
    by destruct (list_get n' l1), (list_get n' l2).
Qed.

Lemma entries_without_key k l :
  without_key k l.*2 = (filter (λ x : node * (K * V), x.2.1 ≠ k) l).*2.
Proof.
  unfold without_key. induction l as [|[n [k' v]] l IH]; [done|].
  rewrite fmap_cons, !filter_cons. cbn [fst snd].
  case_decide; [rewrite fmap_cons; cbn [snd]; f_equal|]; exact IH.
Qed.

Lemma nodes_of_filter_same k l :
  nodes_of k (filter (λ x, x.2.1 = k) l) = nodes_of k l.
Proof. unfold nodes_of. f_equal. by rewrite list_filter_filter_l. Qed.

Lemma nodes_of_filter_other k k' l :
  k' ≠ k → nodes_of k' (filter (λ x, x.2.1 = k) l) = [].
Proof.
  intros Hk. unfold nodes_of. rewrite list_filter_filter.
  induction l as [|x l IH]; [done|]. rewrite filter_cons_False; [done|]. naive_solver.
Qed.

Lemma nodes_of_filter_ne_same k l : nodes_of k (filter (λ x, x.2.1 ≠ k) l) = [].
Proof.
  unfold nodes_of. rewrite list_filter_filter.
  induction l as [|x l IH]; [done|]. rewrite filter_cons_False; [done|]. naive_solver.
Qed.

Lemma nodes_of_filter_ne_other k k' l :
  k' ≠ k → nodes_of k' (filter (λ x, x.2.1 ≠ k) l) = nodes_of k' l.
Proof.
  intros Hk. unfold nodes_of. f_equal. rewrite list_filter_filter.
  apply list_filter_iff. naive_solver.
Qed.

Lemma NoDup_filter_ids (P : node * (K * V) → Prop) `{!∀ x, Decision (P x)} l :
  NoDup l.*1 → NoDup (filter P l).*1.
Proof.
  induction l as [|x l IH]; [done|]. rewrite fmap_cons, NoDup_cons, filter_cons.
  intros [Hx Hnd]. case_decide; [|auto]. rewrite fmap_cons, NoDup_cons. split; [|auto].
  intros (y & Hxy & [_ Hy]%list_elem_of_filter)%list_elem_of_fmap.
  apply Hx. rewrite Hxy. by apply list_elem_of_fmap_2.
Qed.

Lemma move_to_back_cell_spec k c b :
  wf_container c → map_find k (iterator_list_map c) = Some b →
  ∃ c', move_to_back_cell k c = Some c' ∧ wf_container c' ∧
        pair_list c' = filter (λ x, x.2.1 ≠ k) (pair_list c)
                       ++ filter (λ x, x.2.1 = k) (pair_list c).
Proof.
  destruct c as [m l]. intros [Hnd Hs Hidx] Hb. unfold keys in Hs.
  cbn [pair_list iterator_list_map] in *.
  pose proof (Hidx k) as Hk. rewrite Hb in Hk. symmetry in Hk.
  apply bucket_of_Some in Hk as [Hk Hne]. subst b.
  assert (Hnb : NoDup (nodes_of k l)) by (by apply NoDup_filter_ids).
  unfold move_to_back_cell. cbn [pair_list iterator_list_map].
  rewrite Hb, splice_all_spec by (done || (intros; by eapply nodes_of_elem)).
  eexists. split; [done|].
  assert (Hl : filter (λ x, x.1 ∉ nodes_of k l) l ++
               omap (λ n, pair n <$> list_get n l) (nodes_of k l)
             = filter (λ x, x.2.1 ≠ k) l ++ filter (λ x, x.2.1 = k) l).
  { f_equal.
    - apply filter_ext_in. intros x Hx. split.
      + intros Hn Hxk. apply Hn. unfold nodes_of.
        apply (list_elem_of_fmap_2 fst). by apply list_elem_of_filter.
      + intros Hxk Hin. apply Hxk. unfold nodes_of in Hin.
        apply list_elem_of_fmap in Hin as (y & Hxy & [Hyk Hy]%list_elem_of_filter).
        by rewrite (node_unique l x y).
    - unfold nodes_of. apply omap_fst_id.
      intros [n e] [_ Hx]%list_elem_of_filter. cbn.
      by rewrite (list_get_NoDup _ e). }
  rewrite Hl. split; [|done]. split; cbn [pair_list iterator_list_map].
  - rewrite fmap_app. apply NoDup_app. split_and!; [by apply NoDup_filter_ids| |by apply NoDup_filter_ids].
    intros n (x & -> & [Hx1 Hx]%list_elem_of_filter)%list_elem_of_fmap.
    intros (y & Hxy & [Hy1 Hy]%list_elem_of_filter)%list_elem_of_fmap.
    apply Hx1. by rewrite (node_unique l x y).
  - done.
  - intros k'. rewrite Hidx, nodes_of_app. destruct (decide (k' = k)) as [->|Hkk].
    + by rewrite nodes_of_filter_ne_same, nodes_of_filter_same.
    + by rewrite nodes_of_filter_ne_other, nodes_of_filter_other, app_nil_r.
Qed.

Lemma set_value_ids n v l : (list_set_value n v l).*1 = l.*1.
Proof.
  induction l as [|[n' [k' v']] l IH]; [done|]. cbn [list_set_value].
  case_decide; [done|]. rewrite !fmap_cons. by f_equal.
Qed.

Lemma set_value_keys n v l : (list_set_value n v l).*2.*1 = l.*2.*1.
Proof.
  induction l as [|[n' [k' v']] l IH]; [done|]. cbn [list_set_value].
  case_decide; [done|]. rewrite !fmap_cons. by f_equal.
Qed.

Lemma set_value_nodes_of k n v l : nodes_of k (list_set_value n v l) = nodes_of k l.
Proof.
  induction l as [|[n' [k' v']] l IH]; [done|]. cbn [list_set_value].
  case_decide; rewrite !nodes_of_cons; [done|]. by rewrite IH.
Qed.

Lemma wf_set_value n v c :
  wf_container c → wf_container (set_pair_list (list_set_value n v) c).
Proof.
  intros [Hnd Hs Hidx]. split; cbn [set_pair_list pair_list iterator_list_map].
  - by rewrite set_value_ids.
  - done.
  - intros k. by rewrite set_value_nodes_of.
Qed.

Lemma copy_list_spec (acc l : list (node * (K * V))) :
  let r := foldl (λ acc it, list_push_back it.2 acc) acc l in
  r.*2 = acc.*2 ++ l.*2 ∧ (NoDup acc.*1 → NoDup r.*1).
Proof.
  revert acc. induction l as [|x l IH]; intros acc; cbn.
  - by rewrite app_nil_r.
  - destruct (IH (list_push_back x.2 acc)) as [IH1 IH2]. split.
    + rewrite IH1. unfold list_push_back. rewrite fmap_app, <-app_assoc. done.
    + intros Hnd. apply IH2. unfold list_push_back.
      rewrite fmap_app. apply NoDup_app. split_and!; [done| |apply NoDup_singleton].
      intros n Hn ->%list_elem_of_singleton. by apply fresh_node_notin in Hn.
Qed.

Lemma index_all_wf l :
  NoDup l.*1 → wf_container (Container (foldl index_node [] l) l).
Proof.
  induction l as [|[n [k v]] l IH] using rev_ind; intros Hnd.
  - apply wf_empty.
  - rewrite foldl_snoc. rewrite fmap_app in Hnd.
    apply NoDup_app in Hnd as (Hnd & Hd & _). apply wf_index_node; [auto|].
    intros Hn. apply (Hd _ Hn). left.
Qed.

Lemma container_copy_wf c : wf_container (container_copy c).
Proof.
  unfold container_copy. apply index_all_wf.
  apply (copy_list_spec [] (pair_list c)). constructor.
Qed.

Lemma container_copy_entries c : entries (container_copy c) = entries c.
Proof.
  unfold container_copy, entries. cbn [pair_list].
  by rewrite (proj1 (copy_list_spec [] (pair_list c))).
Qed.

(** ** What the invariant says about the queries *)

Lemma wf_count k c :
  wf_container c →
  match map_find k (iterator_list_map c) with
  | Some b => length b
  | None => 0
  end = length (with_key k (entries c)).
Proof.
  intros Hwf. rewrite (wf_index _ Hwf). unfold entries.
  rewrite <-length_nodes_of. by destruct (nodes_of k (pair_list c)).
Qed.

Lemma wf_key_present k c :
  wf_container c →
  is_Some (map_find k (iterator_list_map c)) ↔ ∃ v, (k, v) ∈ entries c.
Proof.
  intros Hwf. rewrite (wf_index _ Hwf). unfold entries, nodes_of. split.
  - intros Hb. destruct (filter _ _) as [|[n [k' v]] r] eqn:Hf; [by destruct Hb|].
    assert (Hin : (n, (k', v)) ∈ filter (λ x, x.2.1 = k) (pair_list c))
      by (rewrite Hf; left).
    apply list_elem_of_filter in Hin as [Hk Hin]. cbn in Hk. subst k'.
    exists v. by apply (list_elem_of_fmap_2 snd) in Hin.
  - intros (v & ([n e] & He & Hin)%list_elem_of_fmap). cbn in He. subst e.
    assert (Hf : (n, (k, v)) ∈ filter (λ x, x.2.1 = k) (pair_list c))
      by (by apply list_elem_of_filter).
    destruct (filter _ _); [by apply elem_of_nil in Hf|]. by eexists.
Qed.

Lemma wf_keys_elem k c :
  wf_container c → k ∈ keys c ↔ ∃ v, (k, v) ∈ entries c.
Proof.
  intros Hwf. rewrite <-wf_key_present by done. unfold keys. split.
  - intros Hin. destruct (map_find k (iterator_list_map c)) eqn:E; [by eexists|].
    exfalso. clear Hwf. induction (iterator_list_map c) as [|[k0 b0] m IH].
    + by apply elem_of_nil in Hin.
    + rewrite map_find_cons in E. case_decide; [done|].
      rewrite fmap_cons in Hin. apply elem_of_cons in Hin as [->|Hin]; [done|auto].
  - intros [b Hb]. by eapply map_find_elem.
Qed.

(** ** Running the primitives *)

Lemma filter_two {A} (f : A → bool) (xs : list A) i j x y :
  i ≠ j → xs !! i = Some x → xs !! j = Some y → f x = true → f y = true →
  2 ≤ length (List.filter f xs).
Proof.
  revert i j. induction xs as [|z xs IH]; intros i j Hij Hi Hj Hx Hy; [done|].
  assert (Hone : ∀ i' x', xs !! i' = Some x' → f x' = true →
                 1 ≤ length (List.filter f xs)).
  { clear. induction xs as [|z xs IH]; intros i' x' Hi' Hx'; [done|]. cbn.
    destruct i' as [|i']; cbn in Hi'.
    - injection Hi' as ->. rewrite Hx'. cbn. lia.
    - destruct (f z); cbn; [lia|eauto]. }
  cbn. destruct i as [|i], j as [|j]; cbn in Hi, Hj; try done.
  - injection Hi as ->. rewrite Hx. cbn. apply le_n_S. eauto.
  - injection Hj as ->. rewrite Hy. cbn. apply le_n_S. eauto.
  - assert (i ≠ j) by congruence. destruct (f z); cbn; [apply le_S|]; eauto.
Qed.

Lemma points_to_true a p : points_to a p = true ↔ p = Some a.
Proof.
  destruct p as [a'|]; cbn; [|done]. rewrite Nat.eqb_eq. split; congruence.
Qed.

Ltac run := cbn [heap objs guards alloc_budget unshareable dataPtr
                 guarded guarded_data guarded_unshareable rollback].

Lemma run_get_obj h os gs b this o :
  os !! this = Some (Some o) →
  get_obj (K:=K) (V:=V) this (World h os gs b) = Ret o (World h os gs b).
Proof. intros Ho. unfold get_obj. run. by rewrite Ho. Qed.

Lemma run_set_dataPtr h os gs b this o p :
  os !! this = Some (Some o) →
  set_dataPtr (K:=K) (V:=V) this p (World h os gs b) =
    Ret tt (World h (<[this := Some (Kvfifo (unshareable o) p)]> os) gs b).
Proof. intros Ho. unfold set_dataPtr, bind. by rewrite (run_get_obj _ _ _ _ _ o). Qed.

Lemma run_set_unshareable h os gs b this o u :
  os !! this = Some (Some o) →
  set_unshareable (K:=K) (V:=V) this u (World h os gs b) =
    Ret tt (World h (<[this := Some (Kvfifo u (dataPtr o))]> os) gs b).
Proof. intros Ho. unfold set_unshareable, bind. by rewrite (run_get_obj _ _ _ _ _ o). Qed.

Lemma run_make_shared h os gs b c0 :
  make_shared (K:=K) (V:=V) c0 (World h os gs b) =
    match b with
    | Some 0 => Throw bad_alloc (World h os gs b)
    | _ => Ret (length h) (World (h ++ [c0]) os gs (pred <$> b))
    end.
Proof. unfold make_shared, bind, alloc. run. by destruct b as [[|n]|]. Qed.

Lemma run_raise {A} e h os gs b :
  raise (A:=A) e (World h os gs b) =
    match b with
    | Some 0 => Throw bad_alloc (World h os gs b)
    | _ => Throw e (World h os gs (pred <$> b))
    end.
Proof. unfold raise, bind, alloc, throw. by destruct b as [[|n]|]. Qed.

Lemma run_aboutToModify h os gs b this u a c mark :
  os !! this = Some (Some (Kvfifo u (Some a))) → h !! a = Some c →
  aboutToModify this mark (World h os gs b) =
    if (2 <? use_count_at a (World h os gs b)) && negb u
    then match b with
         | Some 0 => Throw bad_alloc (World h os gs b)
         | _ => Ret tt (World (h ++ [container_copy c])
                          (<[this := Some (Kvfifo mark (Some (length h)))]> os)
                          gs (pred <$> b))
         end
    else Ret tt (World h (<[this := Some (Kvfifo mark (Some a))]> os) gs b).
Proof.
  intros Ho Hc. pose proof (lookup_lt_Some _ _ _ Ho) as Hlt.
  unfold aboutToModify, bind at 1 2 3, use_count.
  rewrite (run_get_obj _ _ _ _ _ _ Ho). run.
  destruct ((2 <? _) && negb u).
  - unfold bind, deref. run. rewrite Hc, run_make_shared.
    destruct b as [[|n]|]; [done| |].
    + rewrite (run_set_dataPtr _ _ _ _ _ _ _ Ho). run.
      erewrite run_set_unshareable by (by apply list_lookup_insert_eq).
      by rewrite list_insert_insert_eq.
    + rewrite (run_set_dataPtr _ _ _ _ _ _ _ Ho). run.
      erewrite run_set_unshareable by (by apply list_lookup_insert_eq).
      by rewrite list_insert_insert_eq.
  - unfold ret. by rewrite (run_set_unshareable _ _ _ _ _ _ _ Ho).
Qed.

Lemma run_guard_ctor h os gs b this o :
  os !! this = Some (Some o) →
  guard_ctor (K:=K) (V:=V) this (World h os gs b) =
    Ret tt (World h os (Guard this (dataPtr o) (unshareable o) true :: gs) b).
Proof. intros Ho. unfold guard_ctor, bind. by rewrite (run_get_obj _ _ _ _ _ o). Qed.

Lemma leave_scope_throw {A} e h os g gs b :
  rollback g = true →
  leave_scope (A:=A) (Throw e (World h os (g :: gs) b)) =
    Throw e (World h (<[guarded g := Some (Kvfifo (guarded_unshareable g) (guarded_data g))]> os)
               gs b).
Proof. intros Hr. unfold leave_scope, bind, guard_dtor. run. by rewrite Hr. Qed.

Lemma leave_scope_ret {A} (x : A) h os g gs b :
  rollback g = false →
  leave_scope (Ret x (World h os (g :: gs) b)) = Ret x (World h os gs b).
Proof. intros Hr. unfold leave_scope, bind, guard_dtor. run. by rewrite Hr. Qed.

Lemma leave_scope_raise {A} e h os g gs b :
  rollback g = true →
  leave_scope (raise (A:=A) e (World h os (g :: gs) b)) =
    let os' := <[guarded g := Some (Kvfifo (guarded_unshareable g) (guarded_data g))]> os in
    match b with
    | Some 0 => Throw bad_alloc (World h os' gs b)
    | _ => Throw e (World h os' gs (pred <$> b))
    end.
Proof.
  intros Hg. rewrite run_raise.
  destruct b as [[|n]|]; by rewrite leave_scope_throw.
Qed.

Lemma private_of_count h os g b this a o :
  os !! this = Some (Some o) → dataPtr o = Some a → guarded_data g = Some a →
  (2 <? use_count_at a (World h os [g] b)) = false →
  ∀ j o', j ≠ this → os !! j = Some (Some o') → dataPtr o' ≠ Some a.
Proof.
  intros Ho Hp Hg Hc j o' Hj Ho' Hp'. apply Nat.ltb_ge in Hc.
  unfold use_count_at in Hc. cbn [objs guards List.filter] in Hc.
  rewrite Hg in Hc. cbn [points_to] in Hc. rewrite Nat.eqb_refl in Hc. cbn in Hc.
  pose proof (filter_two (λ o, points_to a (obj_ptr o)) os j this _ _ Hj Ho' Ho) as H2.
  cbn in H2. rewrite Hp, Hp' in H2. cbn in H2. rewrite Nat.eqb_refl in H2.
  specialize (H2 eq_refl eq_refl). lia.
Qed.

Lemma modify_spec {A} mark this (rest : M A) w o a c :
  wf_world w → objs w !! this = Some (Some o) → dataPtr o = Some a →
  heap w !! a = Some c →
  (alloc_budget w = Some 0 ∧
   with_guard this (do _ <- aboutToModify this mark; rest) w = Throw bad_alloc w)
  ∨ ∃ w2 a2 c2, owned w this o a c mark w2 a2 c2 ∧
      with_guard this (do _ <- aboutToModify this mark; rest) w = leave_scope (rest w2).
Proof.
  intros Hwf Hobj Hptr Hcell.
  destruct w as [h os gs b], o as [u p]. cbn in Hobj, Hptr, Hcell. subst p.
  pose proof (wf_guards _ Hwf) as Hg. cbn in Hg. subst gs.
  pose proof (wf_cells _ Hwf _ _ Hcell) as Hwfc.
  remember (with_guard _ _ _) as r eqn:Hr.
  unfold with_guard, bind at 1 in Hr. rewrite (run_guard_ctor _ _ _ _ _ _ Hobj) in Hr.
  cbn [dataPtr unshareable] in Hr. unfold bind at 1 in Hr.
  rewrite (run_aboutToModify _ _ _ _ _ _ _ _ _ Hobj Hcell) in Hr.
  destruct (2 <? _) eqn:Hcount; cbn [andb] in Hr; [destruct u; cbn [negb] in Hr|].
  2:{ (* shared and not pinned: copy *)
    destruct b as [[|n]|].
    - left. split; [done|]. rewrite leave_scope_throw in Hr by done.
      cbn [guarded guarded_data guarded_unshareable] in Hr.
      by rewrite list_insert_id in Hr.
    - right. eexists _, (length h), (container_copy c). split; [|exact Hr].
      split; run; try done.
      + by rewrite lookup_app_r, Nat.sub_diag by done.
      + apply container_copy_entries.
      + apply container_copy_wf.
      + intros j o' _ Ho' Hp. pose proof (wf_ptrs _ Hwf _ _ _ Ho' Hp). cbn in *. lia.
      + by right.
      + right. by exists n.
    - right. eexists _, (length h), (container_copy c). split; [|exact Hr].
      split; run; try done.
      + by rewrite lookup_app_r, Nat.sub_diag by done.
      + apply container_copy_entries.
      + apply container_copy_wf.
      + intros j o' _ Ho' Hp. pose proof (wf_ptrs _ Hwf _ _ _ Ho' Hp). cbn in *. lia.
      + by right.
      + by left. }
  - (* pinned: private by I4 *)
    right. eexists _, a, c. split; [|exact Hr]. split; run; try done.
    + intros j o' Hj Ho' Hp.
      by apply (wf_pinned _ Hwf this j _ _ a (not_eq_sym Hj) Hobj Ho').
    + by left.
    + by left.
  - (* not shared *)
    right. eexists _, a, c. split; [|exact Hr]. split; run; try done.
    + exact (private_of_count h os (Guard this (Some a) u true) b this a _
               Hobj eq_refl eq_refl Hcount).
    + by left.
    + by left.
Qed.

Lemma run_deref h os gs b a c :
  h !! a = Some c → deref (Some a) (World h os gs b) = Ret c (World h os gs b).
Proof. intros Hc. unfold deref. run. by rewrite Hc. Qed.

Lemma run_read_data h os gs b this o a c :
  os !! this = Some (Some o) → dataPtr o = Some a → h !! a = Some c →
  read_data this (World h os gs b) = Ret c (World h os gs b).
Proof.
  intros Ho Hp Hc. unfold read_data, bind.
  by rewrite (run_get_obj _ _ _ _ _ _ Ho), Hp, (run_deref _ _ _ _ _ _ Hc).
Qed.

Lemma run_update_data h os gs b this o a c f :
  os !! this = Some (Some o) → dataPtr o = Some a → h !! a = Some c →
  update_data this f (World h os gs b) =
    match f c with
    | Some c' => Ret tt (World (<[a := c']> h) os gs b)
    | None => Undefined
    end.
Proof.
  intros Ho Hp Hc. unfold update_data, bind.
  rewrite (run_get_obj _ _ _ _ _ _ Ho), Hp, (run_deref _ _ _ _ _ _ Hc).
  destruct (f c); [|done]. unfold store. run.
  by rewrite decide_True by (by eapply lookup_lt_Some).
Qed.

Lemma run_no_rollback h os g gs b :
  no_rollback (K:=K) (V:=V) (World h os (g :: gs) b) =
    Ret tt (World h os (Guard (guarded g) (guarded_data g) (guarded_unshareable g) false :: gs) b).
Proof. done. Qed.

(** ** Worlds inside and after a guarded call *)

Section Owned.
Context (w : world (K:=K) (V:=V)) (this : nat) (o : kvfifo) (a : addr).
Context (c : container_t (K:=K) (V:=V)) (mark : bool).
Context (Hwf : wf_world w) (Hobj : objs w !! this = Some (Some o)).
Context (Hptr : dataPtr o = Some a) (Hcell : heap w !! a = Some c).

Lemma owned_this w2 a2 c2 :
  owned w this o a c mark w2 a2 c2 →
  objs w2 !! this = Some (Some (Kvfifo mark (Some a2))).
Proof using Hobj.
  intros Ho. rewrite (own_objs _ _ _ _ _ _ _ _ _ Ho).
  apply list_lookup_insert_eq. by eapply lookup_lt_Some.
Qed.

Lemma owned_old_cells w2 a2 c2 a' :
  owned w this o a c mark w2 a2 c2 →
  a' < length (heap w) → a' ≠ a2 ∨ c2 = c → heap w2 !! a' = heap w !! a'.
Proof using Hcell.
  intros Ho Ha' Hne. destruct (own_heap _ _ _ _ _ _ _ _ _ Ho) as [(-> & -> & ->)|[-> Hh]].
  - done.
  - rewrite Hh. by apply lookup_app_l.
Qed.

Lemma owned_heap_length w2 a2 c2 :
  owned w this o a c mark w2 a2 c2 → length (heap w) ≤ length (heap w2).
Proof using Type.
  intros Ho. destruct (own_heap _ _ _ _ _ _ _ _ _ Ho) as [(-> & -> & ->)|[-> Hh]]; [done|].
  rewrite Hh, length_app. lia.
Qed.

Lemma owned_cells_wf w2 a2 c2 a' c' :
  owned w this o a c mark w2 a2 c2 → heap w2 !! a' = Some c' → wf_container c'.
Proof using Hwf.
  intros Ho. destruct (own_heap _ _ _ _ _ _ _ _ _ Ho) as [(-> & -> & ->)|[-> Hh]].
  - apply (wf_cells _ Hwf).
  - rewrite Hh. intros [Hc|[_ Hc]]%lookup_app_Some.
    + by apply (wf_cells _ Hwf) in Hc.
    + apply list_lookup_singleton_Some in Hc as [_ <-].
      apply (own_wf _ _ _ _ _ _ _ _ _ Ho).
Qed.

(** The call returns after it has put [c3] into its cell. *)
Lemma owned_budget_none w2 a2 c2 :
  owned w this o a c mark w2 a2 c2 → alloc_budget w = None → alloc_budget w2 = None.
Proof using Type.
  intros Ho Hb. destruct (own_budget _ _ _ _ _ _ _ _ _ Ho) as [->|(n & Hn & _)]; congruence.
Qed.

Lemma commit_spec w2 a2 c2 c3 b' :
  owned w this o a c mark w2 a2 c2 → wf_container c3 →
  (alloc_budget w2 = None → b' = None) →
  let w' := World (<[a2 := c3]> (heap w2)) (objs w2) [] b' in
  modified this mark w w' ∧ contents w' this = c3.
Proof using Hwf Hobj Hptr Hcell.
  intros Ho Hc3 Hb' w'.
  pose proof (owned_this _ _ _ Ho) as Hthis.
  pose proof (lookup_lt_Some _ _ _ (own_cell _ _ _ _ _ _ _ _ _ Ho)) as Ha2.
  pose proof (owned_heap_length _ _ _ Ho) as Hlen.
  assert (Hother : ∀ j, j ≠ this → objs w2 !! j = objs w !! j).
  { intros j Hj. rewrite (own_objs _ _ _ _ _ _ _ _ _ Ho).
    by apply list_lookup_insert_ne. }
  split; [split|].
  - split; unfold w'; run.
    + done.
    + intros i oi ai Hi Hai. rewrite length_insert.
      destruct (decide (i = this)) as [->|Hne].
      * rewrite Hthis in Hi. injection Hi as <-. cbn in Hai. by injection Hai as <-.
      * rewrite Hother in Hi by done.
        pose proof (wf_ptrs _ Hwf _ _ _ Hi Hai). lia.
    + intros a' c'. destruct (decide (a' = a2)) as [->|Hne].
      * rewrite list_lookup_insert_eq by done. by intros [= <-].
      * rewrite list_lookup_insert_ne by done. by apply (owned_cells_wf _ _ _ _ _ Ho).
    + intros i j oi oj ai Hij Hi Hj Hpin Hai Haj. cbn [objs] in Hi, Hj.
      destruct (decide (i = this)) as [->|Hi'], (decide (j = this)) as [->|Hj'];
        [done| | |].
      * rewrite Hthis in Hi. rewrite Hother in Hj by done.
        injection Hi as <-. cbn in Hai. injection Hai as <-.
        by apply (own_private _ _ _ _ _ _ _ _ _ Ho j oj).
      * rewrite Hthis in Hj. rewrite Hother in Hi by done.
        injection Hj as <-. cbn in Haj. injection Haj as <-.
        by apply (own_private _ _ _ _ _ _ _ _ _ Ho i oi).
      * rewrite Hother in Hi, Hj by done.
        by apply (wf_pinned _ Hwf i j oi oj ai).
  - split; unfold w'; run.
    + by rewrite (own_objs _ _ _ _ _ _ _ _ _ Ho), length_insert.
    + intros j Hj. split; [by apply Hother|].
      unfold contents. run. rewrite Hother by done.
      destruct (objs w !! j) as [[oj|]|] eqn:Hoj; [|done|done].
      destruct (dataPtr oj) as [aj|] eqn:Haj; [|done].
      pose proof (wf_ptrs _ Hwf _ _ _ Hoj Haj) as Hlt.
      pose proof (own_private _ _ _ _ _ _ _ _ _ Ho j oj Hj Hoj) as Hpriv.
      assert (aj ≠ a2) by congruence.
      rewrite list_lookup_insert_ne by done.
      by rewrite (owned_old_cells _ _ _ _ Ho) by auto.
  - by eexists.
  - unfold w'. run. intros Hb. by apply Hb', (owned_budget_none _ _ _ Ho).
  - unfold contents, w'. run. rewrite Hthis. run.
    by rewrite list_lookup_insert_eq.
Qed.

(** The call throws, and the guard puts the old pointer and flag back. *)
Lemma abort_spec w2 a2 c2 b' :
  owned w this o a c mark w2 a2 c2 →
  unchanged w (World (heap w2)
                 (<[this := Some (Kvfifo (unshareable o) (Some a))]> (objs w2)) [] b').
Proof using Hwf Hobj Hptr Hcell.
  intros Ho. pose proof (owned_heap_length _ _ _ Ho) as Hlen.
  assert (Hos : <[this := Some (Kvfifo (unshareable o) (Some a))]> (objs w2) = objs w).
  { rewrite (own_objs _ _ _ _ _ _ _ _ _ Ho), list_insert_insert_eq.
    apply list_insert_id. rewrite Hobj. destruct o. cbn in *. by subst. }
  rewrite Hos.
  assert (Hold : ∀ a', a' < length (heap w) → heap w2 !! a' = heap w !! a').
  { intros a' Ha'. destruct (own_heap _ _ _ _ _ _ _ _ _ Ho) as [(-> & -> & ->)|[-> Hh]];
      [done|]. rewrite Hh. by apply lookup_app_l. }
  split; run.
  - split; run.
    + done.
    + intros i oi ai Hi Hai. pose proof (wf_ptrs _ Hwf _ _ _ Hi Hai). lia.
    + intros a' c'. by apply (owned_cells_wf _ _ _ _ _ Ho).
    + apply (wf_pinned _ Hwf).
  - done.
  - done.
  - intros x. unfold contents. run.
    destruct (objs w !! x) as [[ox|]|] eqn:Hox; [|done|done].
    destruct (dataPtr ox) as [ax|] eqn:Hax; [|done].
    by rewrite Hold by (by eapply (wf_ptrs _ Hwf)).
Qed.

End Owned.

(** ** The member functions *)

Lemma cell_of w this o a :
  wf_world w → objs w !! this = Some (Some o) → dataPtr o = Some a →
  ∃ c, heap w !! a = Some c ∧ contents w this = c ∧ wf_container c.
Proof.
  intros Hwf Ho Hp. pose proof (wf_ptrs _ Hwf _ _ _ Ho Hp) as Hlt.
  apply lookup_lt_is_Some in Hlt as [c Hc]. exists c. split_and!; [done| |].
  - unfold contents. rewrite Ho. cbn match. rewrite Hp. by rewrite Hc.
  - by apply (wf_cells _ Hwf) in Hc.
Qed.

Lemma contents_null w this o :
  objs w !! this = Some (Some o) → dataPtr o = None →
  contents w this = empty_container.
Proof. intros Ho Hp. unfold contents. rewrite Ho. cbn match. by rewrite Hp. Qed.

Lemma contents_wf w x : wf_world w → wf_container (contents w x).
Proof.
  intros Hwf. unfold contents.
  destruct (objs w !! x) as [[o|]|]; try apply wf_empty.
  destruct (dataPtr o) as [a|]; [|apply wf_empty].
  destruct (heap w !! a) as [c|] eqn:Hc; [|apply wf_empty].
  by apply (wf_cells _ Hwf) in Hc.
Qed.

Lemma run_empty w this o :
  wf_world w → objs w !! this = Some (Some o) →
  empty this w =
    Ret (match pair_list (contents w this) with [] => true | _ => false end) w.
Proof.
  intros Hwf Ho. destruct w as [h os gs b]. cbn in Ho.
  unfold empty, bind. rewrite (run_get_obj _ _ _ _ _ _ Ho).
  destruct (dataPtr o) as [a|] eqn:Hp.
  - destruct (cell_of _ _ _ _ Hwf Ho Hp) as (c & Hc & -> & _). cbn in Hc.
    by rewrite (run_deref _ _ _ _ _ _ Hc).
  - by rewrite (contents_null (World h os gs b) _ _ Ho Hp).
Qed.

Lemma run_size w this o :
  wf_world w → objs w !! this = Some (Some o) →
  size this w = Ret (length (entries (contents w this))) w.
Proof.
  intros Hwf Ho. destruct w as [h os gs b]. cbn in Ho.
  unfold size, bind, entries. rewrite (run_get_obj _ _ _ _ _ _ Ho), length_fmap.
  destruct (dataPtr o) as [a|] eqn:Hp.
  - destruct (cell_of _ _ _ _ Hwf Ho Hp) as (c & Hc & -> & _). cbn in Hc.
    by rewrite (run_deref _ _ _ _ _ _ Hc).
  - by rewrite (contents_null (World h os gs b) _ _ Ho Hp).
Qed.

Lemma run_count w this o k :
  wf_world w → objs w !! this = Some (Some o) →
  count this k w = Ret (length (with_key k (entries (contents w this)))) w.
Proof.
  intros Hwf Ho. rewrite <-(wf_count k) by (by apply contents_wf).
  destruct w as [h os gs b]. cbn in Ho.
  unfold count, bind. rewrite (run_get_obj _ _ _ _ _ _ Ho).
  destruct (dataPtr o) as [a|] eqn:Hp.
  - destruct (cell_of _ _ _ _ Hwf Ho Hp) as (c & Hc & -> & _). cbn in Hc.
    rewrite (run_deref _ _ _ _ _ _ Hc).
    by destruct (map_find k (iterator_list_map c)).
  - by rewrite (contents_null (World h os gs b) _ _ Ho Hp).
Qed.

Lemma unchanged_refl w : wf_world w → unchanged w w.
Proof. by split. Qed.

Lemma unchanged_budget w b' : wf_world w → unchanged w (set_budget b' w).
Proof. intros Hwf. split; [by destruct Hwf|done|done|done]. Qed.

(** [throw std::invalid_argument(...)] outside a guard: the exception,
    or [bad_alloc] when the allocator fails, and nothing else changes. *)
Lemma raise_spec {A} e w :
  wf_world w →
  match raise (A:=A) e w with
  | Ret _ _ => False
  | Throw e' w' =>
      unchanged w w' ∧ objs w' = objs w ∧ heap w' = heap w ∧
      ((e' = e ∧ alloc_budget w ≠ Some 0) ∨ (e' = bad_alloc ∧ alloc_budget w = Some 0))
  | Undefined => False
  end.
Proof.
  intros Hwf. destruct w as [h os gs b]. rewrite run_raise.
  destruct b as [[|n]|]; cbn [fmap option_fmap option_map].
  - split_and!; [by apply unchanged_refl|done|done|by right].
  - split_and!; [apply (unchanged_budget _ (Some n) Hwf)|done|done|by left].
  - split_and!; [by apply unchanged_refl|done|done|by left].
Qed.

(** A guarded call whose body is one change [f] of the cell. *)
Lemma guarded_update_spec this f w o a c (post : container_t (K:=K) (V:=V) → Prop) :
  wf_world w → objs w !! this = Some (Some o) → dataPtr o = Some a →
  heap w !! a = Some c →
  (∀ c2, wf_container c2 → entries c2 = entries c →
         ∃ c3, f c2 = Some c3 ∧ wf_container c3 ∧ post c3) →
  match with_guard this (do _ <- aboutToModify this false;
                         do _ <- update_data this f; no_rollback) w with
  | Ret _ w' => modified this false w w' ∧ post (contents w' this)
  | Throw e w' => e = bad_alloc ∧ alloc_budget w = Some 0 ∧ w' = w
  | Undefined => False
  end.
Proof.
  intros Hwf Ho Hp Hc Hf.
  destruct (modify_spec false this (do _ <- update_data this f; no_rollback)
              w o a c Hwf Ho Hp Hc) as [[Hb ->]|(w2 & a2 & c2 & Hown & ->)]; [done|].
  pose proof (owned_this _ _ _ _ _ _ Ho _ _ _ Hown) as Hthis.
  destruct (Hf c2 (own_wf _ _ _ _ _ _ _ _ _ Hown) (own_entries _ _ _ _ _ _ _ _ _ Hown))
    as (c3 & Hf3 & Hwf3 & Hpost).
  pose proof (commit_spec _ _ _ _ _ _ Hwf Ho Hp Hc _ _ _ c3 (alloc_budget w2) Hown Hwf3
                (λ H, H)) as [Hmod Hcont].
  pose proof (own_cell _ _ _ _ _ _ _ _ _ Hown) as Hcell2.
  pose proof (own_guards _ _ _ _ _ _ _ _ _ Hown) as Hg2.
  destruct w2 as [h2 os2 gs2 b2]. cbn in Hthis, Hcell2, Hg2, Hmod, Hcont. subst gs2.
  unfold bind. rewrite (run_update_data _ _ _ _ _ _ _ _ _ Hthis eq_refl Hcell2), Hf3.
  rewrite run_no_rollback, leave_scope_ret by done.
  split; [done|]. by rewrite Hcont.
Qed.

Lemma wf_find_none k c :
  wf_container c →
  map_find k (iterator_list_map c) = None ↔ with_key k (entries c) = [].
Proof.
  intros Hwf. rewrite (wf_index _ Hwf). unfold entries.
  pose proof (length_nodes_of k (pair_list c)) as Hlen.
  destruct (nodes_of k (pair_list c)), (with_key k (pair_list c).*2); naive_solver.
Qed.

Lemma not_null_of_entries w this o :
  objs w !! this = Some (Some o) → entries (contents w this) ≠ [] →
  ∃ a, dataPtr o = Some a.
Proof.
  intros Ho Hne. destruct (dataPtr o) as [a|] eqn:Hp; [by eexists|].
  by rewrite (contents_null _ _ _ Ho Hp) in Hne.
Qed.

Lemma pair_list_nil c : pair_list c = [] ↔ entries c = [].
Proof. unfold entries. by destruct (pair_list c). Qed.

Lemma pop_spec this w o :
  wf_world w → objs w !! this = Some (Some o) →
  match pop this w with
  | Ret _ w' =>
      modified this false w w' ∧
      entries (contents w' this) = tail (entries (contents w this)) ∧
      entries (contents w this) ≠ []
  | Throw e w' =>
      unchanged w w' ∧ objs w' = objs w ∧
      ((e = EmptyCollection ∧ entries (contents w this) = [] ∧ alloc_budget w ≠ Some 0) ∨
       (e = bad_alloc ∧ alloc_budget w = Some 0))
  | Undefined => False
  end.
Proof.
  intros Hwf Ho. unfold pop, bind at 1. rewrite (run_empty _ _ _ Hwf Ho).
  destruct (pair_list (contents w this)) as [|[n e] l'] eqn:Hl.
  - apply pair_list_nil in Hl. pose proof (raise_spec (A:=unit) EmptyCollection w Hwf) as Hr.
    destruct (raise EmptyCollection w) as [|e w'|]; [done| |done].
    destruct Hr as (Hun & Hos & _ & [[-> Hb]|[-> Hb]]); split_and!; auto.
  - assert (Hne : entries (contents w this) ≠ []).
    { intros Hnil%pair_list_nil. congruence. }
    destruct (not_null_of_entries _ _ _ Ho Hne) as [a Hp].
    destruct (cell_of _ _ _ _ Hwf Ho Hp) as (c & Hc & Hcont & Hwfc).
    rewrite Hcont in *.
    pose proof (guarded_update_spec this pop_front_cell w o a c
                  (λ c3, entries c3 = tail (entries c)) Hwf Ho Hp Hc) as Hspec.
    assert (Hf : ∀ c2, wf_container c2 → entries c2 = entries c →
              ∃ c3, pop_front_cell c2 = Some c3 ∧ wf_container c3 ∧
                    entries c3 = tail (entries c)).
    { intros c2 Hwf2 He2. unfold entries in He2.
      destruct (pair_list c2) as [|[n2 e2] l2] eqn:Hl2; [by rewrite Hl in He2|].
      destruct (pop_front_cell_spec c2 n2 e2 l2 Hwf2 Hl2) as (c3 & Hpop & Hwf3 & Hl3).
      exists c3. split_and!; [done|done|]. unfold entries. by rewrite Hl3, <-He2. }
    specialize (Hspec Hf).
    destruct (with_guard _ _ w) as [[] w'|ex w'|]; [by destruct Hspec| |done].
    destruct Hspec as (-> & Hb & ->). split_and!; [by apply unchanged_refl|done|by right].
Qed.

Lemma clear_spec this w o :
  wf_world w → objs w !! this = Some (Some o) →
  match clear this w with
  | Ret _ w' =>
      wf_world w' ∧ frame this w w' ∧ entries (contents w' this) = [] ∧
      (dataPtr o = None → w' = w) ∧
      (is_Some (dataPtr o) → modified this false w w')
  | Throw e w' => e = bad_alloc ∧ alloc_budget w = Some 0 ∧ w' = w
  | Undefined => False
  end.
Proof.
  intros Hwf Ho. unfold clear, bind at 1.
  destruct w as [h os gs b] eqn:Hw. cbn in Ho. rewrite (run_get_obj _ _ _ _ _ _ Ho).
  rewrite <-Hw in *. assert (Ho' : objs w !! this = Some (Some o)) by (by subst w).
  destruct (dataPtr o) as [a|] eqn:Hp.
  - destruct (cell_of _ _ _ _ Hwf Ho' Hp) as (c & Hc & Hcont & Hwfc).
    pose proof (guarded_update_spec this (λ _, Some (Container [] [])) w o a c
                  (λ c3, entries c3 = []) Hwf Ho' Hp Hc) as Hspec.
    destruct (with_guard _ _ w) as [[] w'|ex w'|].
    + destruct Hspec as [Hmod Hpost].
      { intros. eexists. split_and!; [done|apply wf_empty|done]. }
      split_and!; [apply Hmod|apply Hmod|done|done|done].
    + apply Hspec. intros. eexists. split_and!; [done|apply wf_empty|done].
    + apply Hspec. intros. eexists. split_and!; [done|apply wf_empty|done].
  - unfold ret. split_and!; [done|by split|by rewrite (contents_null _ _ _ Ho' Hp)|done|].
    by intros [? ?].
Qed.

(** A guarded call that looks up [k] first and changes the cell by [f]
    when the key is there. *)
Lemma guarded_find_spec this k f w o a c (post : container_t (K:=K) (V:=V) → Prop) :
  wf_world w → objs w !! this = Some (Some o) → dataPtr o = Some a →
  heap w !! a = Some c →
  (∀ c2 b, wf_container c2 → entries c2 = entries c →
           map_find k (iterator_list_map c2) = Some b →
           ∃ c3, f c2 = Some c3 ∧ wf_container c3 ∧ post c3) →
  match with_guard this
          (do _ <- aboutToModify this false;
           do c <- read_data this;
           match map_find k (iterator_list_map c) with
           | None => raise KeyNotFound
           | Some _ => do _ <- update_data this f; no_rollback
           end) w with
  | Ret _ w' =>
      modified this false w w' ∧ post (contents w' this) ∧
      with_key k (entries c) ≠ []
  | Throw e w' =>
      unchanged w w' ∧
      ((e = KeyNotFound ∧ with_key k (entries c) = []) ∨
       (e = bad_alloc ∧ alloc_budget w ≠ None))
  | Undefined => False
  end.
Proof.
  intros Hwf Ho Hp Hc Hf.
  destruct (modify_spec false this
              (do c <- read_data this;
               match map_find k (iterator_list_map c) with
               | None => raise KeyNotFound
               | Some _ => do _ <- update_data this f; no_rollback
               end) w o a c Hwf Ho Hp Hc)
    as [[Hb ->]|(w2 & a2 & c2 & Hown & ->)].
  { split; [by apply unchanged_refl|]. right. split; [done|]. by rewrite Hb. }
  pose proof (owned_this _ _ _ _ _ _ Ho _ _ _ Hown) as Hthis.
  pose proof (own_cell _ _ _ _ _ _ _ _ _ Hown) as Hcell2.
  pose proof (own_guards _ _ _ _ _ _ _ _ _ Hown) as Hg2.
  pose proof (own_wf _ _ _ _ _ _ _ _ _ Hown) as Hwf2.
  pose proof (own_entries _ _ _ _ _ _ _ _ _ Hown) as He2.
  pose proof (λ b', abort_spec _ _ _ _ _ _ Hwf Ho Hp Hc _ _ _ b' Hown) as Habort.
  pose proof (own_budget _ _ _ _ _ _ _ _ _ Hown) as Hbud.
  pose proof (wf_find_none k c2 Hwf2) as Hnone. rewrite He2 in Hnone.
  destruct (map_find k (iterator_list_map c2)) as [bk|] eqn:Hfind.
  - destruct (Hf c2 bk Hwf2 He2 Hfind) as (c3 & Hf3 & Hwf3 & Hpost).
    pose proof (commit_spec _ _ _ _ _ _ Hwf Ho Hp Hc _ _ _ c3 (alloc_budget w2) Hown Hwf3
                  (λ H, H)) as [Hmod Hcont].
    destruct w2 as [h2 os2 gs2 b2]. cbn in Hthis, Hcell2, Hg2, Hmod, Hcont. subst gs2.
    unfold bind at 1. rewrite (run_read_data _ _ _ _ _ _ _ _ Hthis eq_refl Hcell2), Hfind.
    unfold bind. rewrite (run_update_data _ _ _ _ _ _ _ _ _ Hthis eq_refl Hcell2), Hf3.
    rewrite run_no_rollback, leave_scope_ret by done.
    split_and!; [done|by rewrite Hcont|]. intros Hk. apply Hnone in Hk. done.
  - destruct w2 as [h2 os2 gs2 b2]. cbn in Hthis, Hcell2, Hg2, Habort, Hbud. subst gs2.
    unfold bind at 1. rewrite (run_read_data _ _ _ _ _ _ _ _ Hthis eq_refl Hcell2), Hfind.
    rewrite leave_scope_raise by done. cbn zeta. run.
    destruct b2 as [[|n]|]; (split; [apply Habort|]).
    + right. split; [done|]. destruct Hbud as [<-|(m & -> & _)]; done.
    + left. split; [done|]. by apply Hnone.
    + left. split; [done|]. by apply Hnone.
Qed.

Lemma pop_key_spec this k w o :
  wf_world w → objs w !! this = Some (Some o) →
  match pop_key this k w with
  | Ret _ w' =>
      modified this false w w' ∧
      entries (contents w' this) = remove_first k (entries (contents w this)) ∧
      with_key k (entries (contents w this)) ≠ []
  | Throw e w' =>
      unchanged w w' ∧
      ((e = KeyNotFound ∧ with_key k (entries (contents w this)) = []) ∨
       (e = bad_alloc ∧ alloc_budget w ≠ None))
  | Undefined => False
  end.
Proof.
  intros Hwf Ho. unfold pop_key, bind at 1. rewrite (run_empty _ _ _ Hwf Ho).
  destruct (pair_list (contents w this)) as [|[n e] l'] eqn:Hl.
  - apply pair_list_nil in Hl. pose proof (raise_spec (A:=unit) KeyNotFound w Hwf) as Hr.
    destruct (raise KeyNotFound w) as [|e0 w'|]; [done| |done].
    destruct Hr as (Hun & _ & _ & [[-> Hb]|[-> Hb]]); (split; [done|]).
    + left. split; [done|]. by rewrite Hl.
    + right. split; [done|]. by rewrite Hb.
  - assert (Hne : entries (contents w this) ≠ []).
    { intros Hnil%pair_list_nil. congruence. }
    destruct (not_null_of_entries _ _ _ Ho Hne) as [a Hp].
    destruct (cell_of _ _ _ _ Hwf Ho Hp) as (c & Hc & Hcont & Hwfc).
    rewrite Hcont in *.
    apply (guarded_find_spec this k (pop_key_cell k) w o a c
             (λ c3, entries c3 = remove_first k (entries c)) Hwf Ho Hp Hc).
    intros c2 bk Hwf2 He2 Hfind.
    destruct (pop_key_cell_spec k c2 bk Hwf2 Hfind)
      as (c3 & l1 & n1 & e1 & l2 & Hpop & Hwf3 & Hl2 & Hl1 & He1 & Hl3).
    exists c3. split_and!; [done|done|]. rewrite <-He2. unfold entries.
    rewrite Hl2, Hl3, !fmap_app, fmap_cons. cbn [snd].
    by rewrite remove_first_middle.
Qed.

Lemma move_to_back_spec this k w o :
  wf_world w → objs w !! this = Some (Some o) →
  match move_to_back this k w with
  | Ret _ w' =>
      modified this false w w' ∧
      entries (contents w' this) =
        without_key k (entries (contents w this)) ++ with_key k (entries (contents w this)) ∧
      with_key k (entries (contents w this)) ≠ []
  | Throw e w' =>
      unchanged w w' ∧
      ((e = KeyNotFound ∧ with_key k (entries (contents w this)) = []) ∨
       (e = bad_alloc ∧ alloc_budget w ≠ None))
  | Undefined => False
  end.
Proof.
  intros Hwf Ho. unfold move_to_back, bind at 1. rewrite (run_empty _ _ _ Hwf Ho).
  destruct (pair_list (contents w this)) as [|[n e] l'] eqn:Hl.
  - apply pair_list_nil in Hl. pose proof (raise_spec (A:=unit) KeyNotFound w Hwf) as Hr.
    destruct (raise KeyNotFound w) as [|e0 w'|]; [done| |done].
    destruct Hr as (Hun & _ & _ & [[-> Hb]|[-> Hb]]); (split; [done|]).
    + left. split; [done|]. by rewrite Hl.
    + right. split; [done|]. by rewrite Hb.
  - assert (Hne : entries (contents w this) ≠ []).
    { intros Hnil%pair_list_nil. congruence. }
    destruct (not_null_of_entries _ _ _ Ho Hne) as [a Hp].
    destruct (cell_of _ _ _ _ Hwf Ho Hp) as (c & Hc & Hcont & Hwfc).
    rewrite Hcont in *.
    apply (guarded_find_spec this k (move_to_back_cell k) w o a c
             (λ c3, entries c3 = without_key k (entries c) ++ with_key k (entries c))
             Hwf Ho Hp Hc).
    intros c2 bk Hwf2 He2 Hfind.
    destruct (move_to_back_cell_spec k c2 bk Hwf2 Hfind) as (c3 & Hmv & Hwf3 & Hl3).
    exists c3. split_and!; [done|done|]. rewrite <-He2. unfold entries.
    by rewrite Hl3, fmap_app, entries_without_key, entries_with_key.
Qed.

Lemma run_alloc h os gs b :
  alloc (K:=K) (V:=V) (World h os gs b) =
    match b with
    | None => Ret tt (World h os gs None)
    | Some 0 => Throw bad_alloc (World h os gs (Some 0))
    | Some (S n) => Ret tt (World h os gs (Some n))
    end.
Proof. unfold alloc. run. by destruct b as [[|n]|]. Qed.

Lemma pop_back_push_back e l : list_pop_back (list_push_back e l) = l.
Proof. unfold list_pop_back, list_push_back. apply removelast_last. Qed.

Lemma last_node_push_back e l : last_node (list_push_back e l) = Some (fresh_node l).
Proof. unfold last_node, list_push_back. by rewrite last_snoc. Qed.

(** The cell after [push(k, v)]. *)
Lemma push_cell_wf k v c :
  wf_container c →
  wf_container (Container (index_node (iterator_list_map c) (fresh_node (pair_list c), (k, v)))
                          (list_push_back (k, v) (pair_list c))).
Proof.
  intros Hwf. destruct c as [m l]. apply wf_index_node; [done|apply fresh_node_notin].
Qed.

Ltac run_side :=
  first [ eassumption | reflexivity
        | apply list_lookup_insert_eq; eapply lookup_lt_Some; eassumption ].

Lemma run_push_undo this e h2 os2 gs b u2 a2 c2 :
  os2 !! this = Some (Some (Kvfifo u2 (Some a2))) → h2 !! a2 = Some c2 →
  update_data this (λ c, Some (set_pair_list list_pop_back c))
    (World (<[a2 := set_pair_list (list_push_back e) c2]> h2) os2 gs b) =
  Ret tt (World h2 os2 gs b).
Proof.
  intros Hthis Hcell. pose proof (lookup_lt_Some _ _ _ Hcell) as Hlt.
  erewrite run_update_data by run_side.
  rewrite list_insert_insert_eq. unfold set_pair_list. cbn [pair_list iterator_list_map].
  rewrite pop_back_push_back. destruct c2. cbn. by rewrite list_insert_id.
Qed.

Lemma run_push_index this e h2 os2 gs b u2 a2 c2 (f : node → list (K * list node) → list (K * list node)) :
  os2 !! this = Some (Some (Kvfifo u2 (Some a2))) → h2 !! a2 = Some c2 →
  update_data this (λ c, match last_node (pair_list c) with
                         | Some n => Some (set_map (f n) c)
                         | None => None
                         end)
    (World (<[a2 := set_pair_list (list_push_back e) c2]> h2) os2 gs b) =
  Ret tt (World (<[a2 := Container (f (fresh_node (pair_list c2)) (iterator_list_map c2))
                                   (list_push_back e (pair_list c2))]> h2) os2 gs b).
Proof.
  intros Hthis Hcell. pose proof (lookup_lt_Some _ _ _ Hcell) as Hlt.
  erewrite run_update_data by run_side.
  unfold set_pair_list. cbn [pair_list iterator_list_map].
  rewrite last_node_push_back. by rewrite list_insert_insert_eq.
Qed.

(** The body of [push] after [aboutToModify], in a world where [this]
    has the cell [a2] for itself. *)
Lemma push_rest_spec this k v h2 os2 g b2 u2 a2 c2 :
  os2 !! this = Some (Some (Kvfifo u2 (Some a2))) → h2 !! a2 = Some c2 →
  rollback g = true →
  let rest :=
    (do c <- read_data this;
     let it := map_find k (iterator_list_map c) in
     do _ <- alloc;
     do _ <- update_data this (λ c, Some (set_pair_list (list_push_back (k, v)) c));
     do _ <- catch_rethrow (push_index this k it)
               (update_data this (λ c, Some (set_pair_list list_pop_back c)));
     no_rollback) in
  let c3 := Container (index_node (iterator_list_map c2) (fresh_node (pair_list c2), (k, v)))
                      (list_push_back (k, v) (pair_list c2)) in
  (∃ b', leave_scope (rest (World h2 os2 [g] b2)) = Ret tt (World (<[a2 := c3]> h2) os2 [] b')
         ∧ (b2 = None → b' = None) ∧ (∀ n, b2 = Some n → 2 ≤ n))
  ∨ (∃ b', b2 ≠ None ∧
       leave_scope (rest (World h2 os2 [g] b2)) =
         Throw bad_alloc
           (World h2 (<[guarded g := Some (Kvfifo (guarded_unshareable g) (guarded_data g))]> os2)
              [] b')).
Proof.
  intros Hthis Hcell Hroll rest c3. unfold rest. clear rest.
  pose proof (lookup_lt_Some _ _ _ Hcell) as Hlt.
  remember (leave_scope _) as r eqn:Hr.
  unfold bind at 1 in Hr. rewrite (run_read_data _ _ _ _ _ _ _ _ Hthis eq_refl Hcell) in Hr.
  unfold bind at 1 in Hr. rewrite run_alloc in Hr.
  destruct b2 as [[|n1]|]; cbn beta match in Hr.
  { right. eexists. split; [done|]. by rewrite leave_scope_throw in Hr. }
  all: unfold bind at 1 in Hr;
    rewrite (run_update_data _ _ _ _ _ _ _ _ _ Hthis eq_refl Hcell) in Hr;
    cbn [fmap option_fmap option_map pred] in Hr;
    unfold bind at 1, catch_rethrow, push_index in Hr;
    unfold index_node in c3; cbn [fst snd] in c3;
    destruct (map_find k (iterator_list_map c2)) as [bk|] eqn:Hfind;
    unfold bind at 1 in Hr; rewrite run_alloc in Hr.
  - (* key present, limited budget *)
    destruct n1 as [|n2]; cbn beta match in Hr.
    + right. eexists. split; [done|].
      rewrite (run_push_undo _ _ _ _ _ _ _ _ _ Hthis Hcell) in Hr.
      by rewrite leave_scope_throw in Hr.
    + left. eexists. split; [|shelve].
      rewrite (run_push_index _ _ _ _ _ _ _ _ _
                 (λ n, map_adjust (λ b, b ++ [n]) k) Hthis Hcell) in Hr.
      rewrite run_no_rollback, leave_scope_ret in Hr by done. exact Hr.
  - (* new key, limited budget *)
    destruct n1 as [|n2]; cbn beta match in Hr.
    { right. eexists. split; [done|].
      rewrite (run_push_undo _ _ _ _ _ _ _ _ _ Hthis Hcell) in Hr.
      by rewrite leave_scope_throw in Hr. }
    unfold bind at 1 in Hr. rewrite run_alloc in Hr.
    destruct n2 as [|n3]; cbn beta match in Hr.
    { right. eexists. split; [done|].
      rewrite (run_push_undo _ _ _ _ _ _ _ _ _ Hthis Hcell) in Hr.
      by rewrite leave_scope_throw in Hr. }
    left. eexists. split; [|shelve].
    rewrite (run_push_index _ _ _ _ _ _ _ _ _ (λ n, map_insert k [n]) Hthis Hcell) in Hr.
    rewrite run_no_rollback, leave_scope_ret in Hr by done. exact Hr.
  - (* key present, allocator never fails *)
    cbn beta match in Hr. left. eexists. split; [|shelve].
    rewrite (run_push_index _ _ _ _ _ _ _ _ _
               (λ n, map_adjust (λ b, b ++ [n]) k) Hthis Hcell) in Hr.
    rewrite run_no_rollback, leave_scope_ret in Hr by done. exact Hr.
  - (* new key, allocator never fails *)
    cbn beta match in Hr. unfold bind at 1 in Hr. rewrite run_alloc in Hr.
    cbn beta match in Hr. left. eexists. split; [|shelve].
    rewrite (run_push_index _ _ _ _ _ _ _ _ _ (λ n, map_insert k [n]) Hthis Hcell) in Hr.
    rewrite run_no_rollback, leave_scope_ret in Hr by done. exact Hr.
Unshelve. all: split; [done|]; intros n [= <-]; lia.
Qed.


Lemma push_body_spec this k v w o a c :
  wf_world w → objs w !! this = Some (Some o) → dataPtr o = Some a →
  heap w !! a = Some c →
  match with_guard this
          (do _ <- aboutToModify this false;
           do c <- read_data this;
           let it := map_find k (iterator_list_map c) in
           do _ <- alloc;
           do _ <- update_data this (λ c, Some (set_pair_list (list_push_back (k, v)) c));
           do _ <- catch_rethrow (push_index this k it)
                     (update_data this (λ c, Some (set_pair_list list_pop_back c)));
           no_rollback) w with
  | Ret _ w' =>
      modified this false w w' ∧
      entries (contents w' this) = entries c ++ [(k, v)] ∧
      (∀ n, alloc_budget w = Some n → 2 ≤ n)
  | Throw e w' => e = bad_alloc ∧ alloc_budget w ≠ None ∧ unchanged w w'
  | Undefined => False
  end.
Proof.
  intros Hwf Ho Hp Hc.
  destruct (modify_spec false this
              (do c <- read_data this;
               let it := map_find k (iterator_list_map c) in
               do _ <- alloc;
               do _ <- update_data this (λ c, Some (set_pair_list (list_push_back (k, v)) c));
               do _ <- catch_rethrow (push_index this k it)
                         (update_data this (λ c, Some (set_pair_list list_pop_back c)));
               no_rollback) w o a c Hwf Ho Hp Hc)
    as [[Hb ->]|(w2 & a2 & c2 & Hown & ->)].
  { split_and!; [done|congruence|by apply unchanged_refl]. }
  pose proof (owned_this _ _ _ _ _ _ Ho _ _ _ Hown) as Hthis.
  pose proof (own_cell _ _ _ _ _ _ _ _ _ Hown) as Hcell2.
  pose proof (own_guards _ _ _ _ _ _ _ _ _ Hown) as Hg2.
  pose proof (own_wf _ _ _ _ _ _ _ _ _ Hown) as Hwf2.
  pose proof (own_entries _ _ _ _ _ _ _ _ _ Hown) as He2.
  pose proof (own_budget _ _ _ _ _ _ _ _ _ Hown) as Hb2.
  pose proof (λ b', abort_spec _ _ _ _ _ _ Hwf Ho Hp Hc _ _ _ b' Hown) as Habort.
  pose proof (λ b', commit_spec _ _ _ _ _ _ Hwf Ho Hp Hc _ _ _ _ b' Hown
                      (push_cell_wf k v c2 Hwf2)) as Hcommit.
  destruct w2 as [h2 os2 gs2 b2]. cbn in Hthis, Hcell2, Hg2, Habort, Hcommit, Hb2. subst gs2.
  destruct (push_rest_spec this k v h2 os2 (Guard this (Some a) (unshareable o) true)
              b2 _ _ _ Hthis Hcell2 eq_refl)
    as [(b' & -> & Hb' & Hn')|(b' & Hbne & ->)].
  - destruct (Hcommit b' Hb') as [Hmod ->]. split_and!; [done| |].
    + unfold entries, list_push_back. cbn [pair_list].
      rewrite fmap_app. fold (entries c2). by rewrite He2.
    + intros n Hn. destruct Hb2 as [Hb2|(m & Hm & Hb2)].
      * apply Hn'. congruence.
      * specialize (Hn' m Hb2). assert (n = S m) by congruence. lia.
  - run. split_and!; [done| |apply Habort]. intros Hnone.
    destruct Hb2 as [Hb2|(m & Hm & Hb2)]; congruence.
Qed.

Lemma frame_trans this w1 w2 w3 : frame this w1 w2 → frame this w2 w3 → frame this w1 w3.
Proof.
  intros [Hl1 H1] [Hl2 H2]. split; [congruence|]. intros j Hj.
  destruct (H1 j Hj) as [E1 E2]. destruct (H2 j Hj) as [E3 E4]. split; congruence.
Qed.

(** [push] on an object whose [dataPtr] is null first gives it an empty
    cell. *)
Lemma null_init_spec this w o b' :
  wf_world w → objs w !! this = Some (Some o) → dataPtr o = None →
  let w0 := World (heap w ++ [empty_container])
                  (<[this := Some (Kvfifo (unshareable o) (Some (length (heap w))))]> (objs w))
                  [] b' in
  wf_world w0 ∧ frame this w w0 ∧ (∀ x, contents w0 x = contents w x) ∧
  (∀ x, live w0 x ↔ live w x) ∧
  objs w0 !! this = Some (Some (Kvfifo (unshareable o) (Some (length (heap w))))) ∧
  heap w0 !! length (heap w) = Some empty_container.
Proof.
  intros Hwf Ho Hp w0. pose proof (lookup_lt_Some _ _ _ Ho) as Hlt.
  assert (Hthis : objs w0 !! this =
                  Some (Some (Kvfifo (unshareable o) (Some (length (heap w))))))
    by (by apply list_lookup_insert_eq).
  assert (Hother : ∀ j, j ≠ this → objs w0 !! j = objs w !! j)
    by (intros; by apply list_lookup_insert_ne).
  assert (Hnew : heap w0 !! length (heap w) = Some empty_container).
  { unfold w0. run. by rewrite lookup_app_r, Nat.sub_diag by done. }
  assert (Hcont : ∀ x, contents w0 x = contents w x).
  { intros x. unfold contents. destruct (decide (x = this)) as [->|Hx].
    - rewrite Hthis, Ho. cbn match. run. by rewrite Hp, Hnew.
    - rewrite Hother by done.
      destruct (objs w !! x) as [[ox|]|] eqn:Hox; [|done|done].
      destruct (dataPtr ox) as [ax|] eqn:Hax; [|done].
      unfold w0. run. by rewrite lookup_app_l by (by eapply (wf_ptrs _ Hwf)). }
  split_and!; [|split| | |done|done].
  - split; unfold w0; run.
    + done.
    + intros i oi ai Hi Hai. rewrite length_app. cbn.
      destruct (decide (i = this)) as [->|Hne].
      * rewrite list_lookup_insert_eq in Hi by done. injection Hi as <-.
        cbn in Hai. injection Hai as <-. lia.
      * rewrite list_lookup_insert_ne in Hi by done.
        pose proof (wf_ptrs _ Hwf _ _ _ Hi Hai). lia.
    + intros a' c' [Hc|[_ Hc]]%lookup_app_Some.
      * by apply (wf_cells _ Hwf) in Hc.
      * apply list_lookup_singleton_Some in Hc as [_ <-]. apply wf_empty.
    + intros i j oi oj ai Hij Hi Hj Hpin Hai Haj. cbn [objs] in Hi, Hj.
      destruct (decide (i = this)) as [->|Hi'], (decide (j = this)) as [->|Hj'];
        [done| | |].
      * rewrite list_lookup_insert_eq in Hi by done.
        rewrite list_lookup_insert_ne in Hj by done.
        injection Hi as <-. cbn in Hai. injection Hai as <-.
        pose proof (wf_ptrs _ Hwf _ _ _ Hj Haj). lia.
      * rewrite list_lookup_insert_eq in Hj by done.
        rewrite list_lookup_insert_ne in Hi by done.
        injection Hj as <-. cbn in Haj. injection Haj as <-.
        pose proof (wf_ptrs _ Hwf _ _ _ Hi Hai). lia.
      * rewrite list_lookup_insert_ne in Hi, Hj by done.
        by apply (wf_pinned _ Hwf i j oi oj ai).
  - unfold w0. run. by rewrite length_insert.
  - intros j Hj. split; [by apply Hother|apply Hcont].
  - done.
  - intros x. unfold live. destruct (decide (x = this)) as [->|Hx].
    + rewrite Hthis, Ho. naive_solver.
    + by rewrite Hother.
Qed.

Lemma push_spec this k v w o :
  wf_world w → objs w !! this = Some (Some o) →
  match push this k v w with
  | Ret _ w' =>
      modified this false w w' ∧
      entries (contents w' this) = entries (contents w this) ++ [(k, v)] ∧
      (∀ n, alloc_budget w = Some n → 2 ≤ n)
  | Throw e w' => e = bad_alloc ∧ alloc_budget w ≠ None ∧ unchanged w w'
  | Undefined => False
  end.
Proof.
  intros Hwf Ho. unfold push, bind at 1.
  destruct w as [h os gs b] eqn:Hw. cbn in Ho. rewrite (run_get_obj _ _ _ _ _ _ Ho).
  pose proof (wf_guards _ Hwf) as Hg. cbn in Hg. subst gs.
  destruct (dataPtr o) as [a|] eqn:Hp.
  - unfold bind at 1, ret. rewrite <-Hw in *.
    assert (Ho' : objs w !! this = Some (Some o)) by (by subst w).
    destruct (cell_of _ _ _ _ Hwf Ho' Hp) as (c & Hc & Hcont & Hwfc).
    rewrite Hcont. by apply (push_body_spec this k v w o a c).
  - unfold bind at 1 2. rewrite run_make_shared.
    destruct b as [[|n]|].
    + split_and!; [done|done|by apply unchanged_refl].
    + rewrite (run_set_dataPtr _ _ _ _ _ _ _ Ho).
      destruct (null_init_spec this _ o (Some n) Hwf Ho Hp)
        as (Hwf0 & Hfr0 & Hc0 & Hl0 & Ho0 & Hh0). cbn [heap objs] in *.
      pose proof (push_body_spec this k v _ _ _ _ Hwf0 Ho0 eq_refl Hh0) as Hspec.
      cbn [fmap option_fmap option_map pred] in *.
      destruct (with_guard _ _ _) as [[] w'|ex w'|]; [| |done].
      * destruct Hspec as ([Hwf' Hfr' Ho' Hb'] & He & Hn). split_and!; [split| |].
        -- done.
        -- by eapply frame_trans.
        -- done.
        -- done.
        -- rewrite He. by rewrite (contents_null (World h os [] (Some (S n))) this o).
        -- intros m [= <-]. specialize (Hn n eq_refl). lia.
      * destruct Hspec as (-> & _ & [Hwf' Hlen' Hlive' Hcont']).
        split_and!; [done|done|]. split; [done| | |].
        -- rewrite Hlen'. apply Hfr0.
        -- intros x. rewrite Hlive'. apply Hl0.
        -- intros x. rewrite Hcont'. apply Hc0.
    + rewrite (run_set_dataPtr _ _ _ _ _ _ _ Ho).
      destruct (null_init_spec this _ o None Hwf Ho Hp)
        as (Hwf0 & Hfr0 & Hc0 & Hl0 & Ho0 & Hh0). cbn [heap objs] in *.
      pose proof (push_body_spec this k v _ _ _ _ Hwf0 Ho0 eq_refl Hh0) as Hspec.
      cbn [fmap option_fmap option_map pred] in *.
      destruct (with_guard _ _ _) as [[] w'|ex w'|]; [| |done].
      * destruct Hspec as ([Hwf' Hfr' Ho' Hb'] & He & Hn). split_and!; [split| |].
        -- done.
        -- by eapply frame_trans.
        -- done.
        -- intros _. by apply Hb'.
        -- rewrite He. by rewrite (contents_null (World h os [] None) this o).
        -- done.
      * by destruct Hspec as (_ & Hne & _).
Qed.

(** ** Accessors *)

Lemma head_fmap {A B} (f : A → B) (xs : list A) : head (f <$> xs) = f <$> head xs.
Proof. by destruct xs. Qed.

Lemma pick_head (xs l : list (node * (K * V))) :
  NoDup l.*1 → (∀ x, x ∈ xs → x ∈ l) →
  match snd <$> head xs with
  | Some e => ∃ n, fst <$> head xs = Some n ∧ list_get n l = Some e
  | None => fst <$> head xs = None
  end.
Proof.
  intros Hnd Hsub. destruct xs as [|[n e] xs]; [done|]. cbn.
  exists n. split; [done|]. apply list_get_NoDup; [done|]. apply Hsub. left.
Qed.

Lemma pick_last (xs l : list (node * (K * V))) :
  NoDup l.*1 → (∀ x, x ∈ xs → x ∈ l) →
  match snd <$> last xs with
  | Some e => ∃ n, fst <$> last xs = Some n ∧ list_get n l = Some e
  | None => fst <$> last xs = None
  end.
Proof.
  intros Hnd Hsub. destruct (last xs) as [[n e]|] eqn:Hlast; [|done]. cbn.
  exists n. split; [done|]. apply list_get_NoDup; [done|].
  by apply Hsub, last_Some_elem_of.
Qed.

Lemma pick_spec acc c :
  wf_container c →
  match select acc (entries c) with
  | Some e => ∃ n, pick_of acc c = Some n ∧ list_get n (pair_list c) = Some e
  | None => pick_of acc c = None
  end.
Proof.
  intros Hwf. pose proof (wf_nodes _ Hwf) as Hnd.
  destruct acc as [| |key|key]; cbn [select pick_of];
    unfold front_node, back_node, first_node, last_of_key_node, entries.
  - rewrite head_fmap. by apply pick_head.
  - rewrite fmap_last. by apply pick_last.
  - rewrite (wf_index _ Hwf), entries_with_key. unfold nodes_of.
    pose proof (pick_head (filter (λ x, x.2.1 = key) (pair_list c)) (pair_list c) Hnd) as H.
    rewrite head_fmap. specialize (H ltac:(by intros y [_ ?]%list_elem_of_filter)).
    destruct (filter _ _) as [|x xs]; [done|]. cbn [bucket_of fmap list_fmap].
    rewrite <-fmap_cons, head_fmap. apply H.
  - rewrite (wf_index _ Hwf), entries_with_key. unfold nodes_of.
    pose proof (pick_last (filter (λ x, x.2.1 = key) (pair_list c)) (pair_list c) Hnd) as H.
    rewrite fmap_last. specialize (H ltac:(by intros y [_ ?]%list_elem_of_filter)).
    destruct (filter _ _) as [|x xs]; [done|]. cbn [bucket_of fmap list_fmap].
    rewrite <-fmap_cons, fmap_last. apply H.
Qed.

Lemma run_return_ref h os gs b this o a c pick :
  os !! this = Some (Some o) → dataPtr o = Some a → h !! a = Some c →
  return_ref this pick (World h os gs b) =
    match pick c with
    | Some n => Ret (EntryRef a n) (World h os gs b)
    | None => Undefined
    end.
Proof.
  intros Ho Hp Hc. unfold return_ref, bind.
  rewrite (run_get_obj _ _ _ _ _ _ Ho), Hp, (run_deref _ _ _ _ _ _ Hc).
  by destruct (pick c).
Qed.

Lemma call_unfold this acc :
  call (V:=V) this acc =
    do e <- empty this;
    if e then raise (error_of acc)
    else with_guard this (do _ <- aboutToModify this true; accessor_rest this acc).
Proof. by destruct acc. Qed.

Lemma select_nil acc : select (V:=V) acc [] = None.
Proof. by destruct acc. Qed.

Lemma select_key_none acc key es :
  acc = AFirst key ∨ acc = ALast key →
  select (V:=V) acc es = None ↔ with_key key es = [].
Proof.
  intros [-> | ->]; cbn [select].
  - apply head_None.
  - apply last_None.
Qed.

Lemma select_front_back acc es :
  acc = AFront ∨ acc = ABack → select (V:=V) acc es = None ↔ es = [].
Proof.
  intros [-> | ->]; cbn [select].
  - apply head_None.
  - apply last_None.
Qed.

Lemma accessor_rest_spec this acc w o a c w2 a2 c2 :
  objs w !! this = Some (Some o) →
  owned w this o a c true w2 a2 c2 → entries c ≠ [] →
  match leave_scope (accessor_rest this acc w2) with
  | Ret r w' =>
      ∃ n e, w' = World (heap w2) (objs w2) [] (alloc_budget w2) ∧
             r = EntryRef a2 n ∧ list_get n (pair_list c2) = Some e ∧
             select acc (entries c) = Some e
  | Throw ex w' =>
      (∃ b', w' = World (heap w2)
                    (<[this := Some (Kvfifo (unshareable o) (Some a))]> (objs w2)) [] b') ∧
      select acc (entries c) = None ∧
      ((ex = error_of acc ∧ alloc_budget w2 ≠ Some 0) ∨
       (ex = bad_alloc ∧ alloc_budget w2 = Some 0))
  | Undefined => False
  end.
Proof.
  intros Ho Hown Hne.
  pose proof (owned_this _ _ _ _ _ _ Ho _ _ _ Hown) as Hthis.
  pose proof (own_cell _ _ _ _ _ _ _ _ _ Hown) as Hcell2.
  pose proof (own_guards _ _ _ _ _ _ _ _ _ Hown) as Hg2.
  pose proof (own_wf _ _ _ _ _ _ _ _ _ Hown) as Hwf2.
  pose proof (own_entries _ _ _ _ _ _ _ _ _ Hown) as He2.
  pose proof (pick_spec acc c2 Hwf2) as Hpick. rewrite He2 in Hpick.
  destruct w2 as [h2 os2 gs2 b2]. cbn in Hthis, Hcell2, Hg2. subst gs2. run.
  assert (Hfin : ∀ e, select acc (entries c) = Some e →
    match leave_scope ((do _ <- no_rollback; return_ref this (pick_of acc))
                         (World h2 os2 [Guard this (Some a) (unshareable o) true] b2)) with
    | Ret r w' =>
        ∃ n e, w' = World h2 os2 [] b2 ∧ r = EntryRef a2 n ∧
               list_get n (pair_list c2) = Some e ∧ select acc (entries c) = Some e
    | Throw _ _ => False
    | Undefined => False
    end).
  { intros e He. rewrite He in Hpick. destruct Hpick as (n & Hn & Hget).
    unfold bind. rewrite run_no_rollback.
    rewrite (run_return_ref _ _ _ _ _ _ _ _ _ Hthis eq_refl Hcell2), Hn.
    rewrite leave_scope_ret by done. by exists n, e. }
  destruct acc as [| |key|key]; cbn [accessor_rest].
  1,2: destruct (select _ (entries c)) as [e|] eqn:Hsel;
    [ specialize (Hfin e eq_refl);
      by destruct (leave_scope _) as [r w'|ex w'|]
    | assert (Hnil : entries c = [])
        by (eapply select_front_back; [|exact Hsel]; eauto);
      done ].
  all: unfold bind at 1; rewrite (run_read_data _ _ _ _ _ _ _ _ Hthis eq_refl Hcell2);
    pose proof (wf_find_none key c2 Hwf2) as Hnone; rewrite He2 in Hnone;
    destruct (map_find key (iterator_list_map c2)) as [bk|] eqn:Hfind.
  1,3: destruct (select _ (entries c)) as [e|] eqn:Hsel;
    [ specialize (Hfin e eq_refl);
      by destruct (leave_scope _) as [r w'|ex w'|]
    | assert (Hwk : with_key key (entries c) = [])
        by (eapply select_key_none; [|exact Hsel]; eauto);
      apply Hnone in Hwk; done ].
  all: rewrite leave_scope_raise by done; cbn zeta; run;
    destruct b2 as [[|n]|];
    (split_and!; [by eexists|eapply select_key_none; [eauto|]; by apply Hnone|]);
    (by right) || (by left).
Qed.

Lemma call_owned this acc w o :
  wf_world w → objs w !! this = Some (Some o) →
  match call this acc w with
  | Ret r w' =>
      ∃ a c w2 a2 c2 n e,
        dataPtr o = Some a ∧ heap w !! a = Some c ∧ contents w this = c ∧
        owned w this o a c true w2 a2 c2 ∧
        w' = World (heap w2) (objs w2) [] (alloc_budget w2) ∧
        r = EntryRef a2 n ∧ list_get n (pair_list c2) = Some e ∧
        select acc (entries c) = Some e
  | Throw ex w' =>
      unchanged w w' ∧
      ((ex = error_of acc ∧ select acc (entries (contents w this)) = None) ∨
       (ex = bad_alloc ∧ alloc_budget w ≠ None))
  | Undefined => False
  end.
Proof.
  intros Hwf Ho. rewrite call_unfold. unfold bind at 1.
  rewrite (run_empty _ _ _ Hwf Ho).
  destruct (pair_list (contents w this)) as [|[n0 e0] l'] eqn:Hl.
  - apply pair_list_nil in Hl.
    pose proof (raise_spec (A:=entry_ref) (error_of acc) w Hwf) as Hr.
    destruct (raise (error_of acc) w) as [|e0 w'|]; [done| |done].
    destruct Hr as (Hun & _ & _ & [[-> Hb]|[-> Hb]]); (split; [done|]).
    + left. split; [done|]. rewrite Hl. apply select_nil.
    + right. split; [done|]. by rewrite Hb.
  - assert (Hne : entries (contents w this) ≠ []).
    { intros Hnil%pair_list_nil. congruence. }
    destruct (not_null_of_entries _ _ _ Ho Hne) as [a Hp].
    destruct (cell_of _ _ _ _ Hwf Ho Hp) as (c & Hc & Hcont & Hwfc).
    rewrite Hcont in *.
    destruct (modify_spec true this (accessor_rest this acc) w o a c Hwf Ho Hp Hc)
      as [[Hb ->]|(w2 & a2 & c2 & Hown & ->)].
    { split; [by apply unchanged_refl|]. right. split; [done|]. by rewrite Hb. }
    pose proof (accessor_rest_spec this acc w o a c w2 a2 c2 Ho Hown Hne) as Hrest.
    destruct (leave_scope _) as [r w'|ex w'|]; [| |done].
    + destruct Hrest as (n & e & -> & -> & Hget & Hsel).
      by exists a, c, w2, a2, c2, n, e.
    + destruct Hrest as ([b' ->] & Hsel & Hcase).
      split; [by apply (abort_spec _ _ _ _ _ _ Hwf Ho Hp Hc _ _ _ _ Hown)|].
      destruct Hcase as [[-> _]|[-> Hb2]]; [by left|right]. split; [done|].
      destruct (own_budget _ _ _ _ _ _ _ _ _ Hown) as [Hsame|(m & -> & _)]; [|done].
      rewrite <-Hsame, Hb2. done.
Qed.

Lemma call_spec this acc w o :
  wf_world w → objs w !! this = Some (Some o) →
  match call this acc w with
  | Ret r w' =>
      modified this true w w' ∧
      entries (contents w' this) = entries (contents w this) ∧
      ∃ e, select acc (entries (contents w this)) = Some e ∧ refers_to w' this r e
  | Throw ex w' =>
      unchanged w w' ∧
      ((ex = error_of acc ∧ select acc (entries (contents w this)) = None) ∨
       (ex = bad_alloc ∧ alloc_budget w ≠ None))
  | Undefined => False
  end.
Proof.
  intros Hwf Ho. pose proof (call_owned this acc w o Hwf Ho) as Hcall.
  destruct (call this acc w) as [r w'|ex w'|]; [|done|done].
  destruct Hcall as (a & c & w2 & a2 & c2 & n & e & Hp & Hc & Hcont & Hown & -> & -> & Hget & Hsel).
  pose proof (commit_spec _ _ _ _ _ _ Hwf Ho Hp Hc _ _ _ c2 (alloc_budget w2) Hown
                (own_wf _ _ _ _ _ _ _ _ _ Hown) (λ H, H)) as [Hmod Hcont'].
  rewrite list_insert_id in Hmod, Hcont' by apply (own_cell _ _ _ _ _ _ _ _ _ Hown).
  split_and!; [done|by rewrite Hcont', Hcont, (own_entries _ _ _ _ _ _ _ _ _ Hown)|].
  exists e. split; [by rewrite Hcont|]. unfold refers_to. run.
  eexists _, c2. split_and!; [by eapply owned_this|done| |done].
  apply (own_cell _ _ _ _ _ _ _ _ _ Hown).
Qed.

Lemma list_get_set_value n k v0 v l :
  list_get n l = Some (k, v0) → list_get n (list_set_value n v l) = Some (k, v).
Proof.
  induction l as [|[n' [k' v']] l IH]; [done|]. cbn [list_get list_set_value].
  case_decide as Hn.
  - intros [= -> ->]. cbn. by rewrite decide_True.
  - intros Hget. cbn. rewrite decide_False by done. auto.
Qed.

(** [x.front().second = v] and the like. *)
Lemma write_spec this acc v w o :
  wf_world w → objs w !! this = Some (Some o) →
  match (do r <- call this acc; ref_write r v) w with
  | Ret _ w' =>
      modified this true w w' ∧
      (entries (contents w' this)).*1 = (entries (contents w this)).*1 ∧
      ∃ k v0, select acc (entries (contents w this)) = Some (k, v0) ∧
              (k, v) ∈ entries (contents w' this)
  | Throw ex w' =>
      unchanged w w' ∧
      ((ex = error_of acc ∧ select acc (entries (contents w this)) = None) ∨
       (ex = bad_alloc ∧ alloc_budget w ≠ None))
  | Undefined => False
  end.
Proof.
  intros Hwf Ho. pose proof (call_owned this acc w o Hwf Ho) as Hcall.
  unfold bind. destruct (call this acc w) as [r w'|ex w'|]; [|done|done].
  destruct Hcall as (a & c & w2 & a2 & c2 & n & [k v0] & Hp & Hc & Hcont & Hown & -> & -> & Hget & Hsel).
  pose proof (own_cell _ _ _ _ _ _ _ _ _ Hown) as Hcell2.
  pose proof (own_wf _ _ _ _ _ _ _ _ _ Hown) as Hwf2.
  pose proof (commit_spec _ _ _ _ _ _ Hwf Ho Hp Hc _ _ _
                (set_pair_list (list_set_value n v) c2) (alloc_budget w2) Hown
                (wf_set_value n v c2 Hwf2) (λ H, H)) as [Hmod Hcont'].
  unfold ref_write, bind. cbn [ref_cell ref_node].
  rewrite (run_deref _ _ _ _ _ _ Hcell2), Hget.
  unfold store. run. rewrite decide_True by (by eapply lookup_lt_Some).
  split_and!; [done| |].
  - rewrite Hcont', Hcont. unfold entries, set_pair_list. cbn [pair_list].
    rewrite set_value_keys. fold (entries c2).
    by rewrite (own_entries _ _ _ _ _ _ _ _ _ Hown).
  - exists k, v0. split; [by rewrite Hcont|]. rewrite Hcont'.
    unfold entries, set_pair_list. cbn [pair_list].
    apply (list_get_set_value n k v0 v) in Hget. apply list_get_elem in Hget.
    by apply (list_elem_of_fmap_2 snd) in Hget.
Qed.

Lemma call_const_spec this acc w o :
  wf_world w → objs w !! this = Some (Some o) →
  match select acc (entries (contents w this)) with
  | Some e => ∃ r, call_const this acc w = Ret r w ∧ refers_to w this r e
  | None => call_const this acc w = raise (error_of acc) w
  end.
Proof.
  intros Hwf Ho.
  assert (Hcase : call_const (V:=V) this acc =
            do e <- empty this;
            if e then raise (error_of acc) else accessor_const_rest this acc)
    by (by destruct acc).
  rewrite Hcase. clear Hcase. unfold bind at 1 2. rewrite (run_empty _ _ _ Hwf Ho).
  destruct (pair_list (contents w this)) as [|[n0 e0] l'] eqn:Hl.
  - apply pair_list_nil in Hl. by rewrite Hl, select_nil.
  - assert (Hne : entries (contents w this) ≠ []).
    { intros Hnil%pair_list_nil. congruence. }
    destruct (not_null_of_entries _ _ _ Ho Hne) as [a Hp].
    destruct (cell_of _ _ _ _ Hwf Ho Hp) as (c & Hc & Hcont & Hwfc).
    rewrite Hcont in *. pose proof (pick_spec acc c Hwfc) as Hpick.
    assert (Hret : ∀ e, select acc (entries c) = Some e →
              ∃ r, return_ref this (pick_of acc) w = Ret r w ∧ refers_to w this r e).
    { intros e He. rewrite He in Hpick. destruct Hpick as (n & Hn & Hget).
      destruct w as [h os gs b]. cbn in Ho, Hc.
      rewrite (run_return_ref _ _ _ _ _ _ _ _ _ Ho Hp Hc), Hn.
      eexists. split; [done|]. by exists o, c. }
    destruct acc as [| |key|key]; cbn [accessor_const_rest].
    1,2: destruct (select _ (entries c)) as [e|] eqn:Hsel;
      [ by apply Hret
      | assert (Hnil : entries c = [])
          by (eapply select_front_back; [|exact Hsel]; eauto);
        done ].
    all: unfold bind; destruct w as [h os gs b] eqn:Hw; cbn in Ho, Hc;
      rewrite (run_read_data _ _ _ _ _ _ _ _ Ho Hp Hc); rewrite <-Hw in *;
      pose proof (wf_find_none key c Hwfc) as Hnone;
      destruct (map_find key (iterator_list_map c)) as [bk|] eqn:Hfind.
    1,3: destruct (select _ (entries c)) as [e|] eqn:Hsel;
      [ by apply Hret
      | assert (Hwk : with_key key (entries c) = [])
          by (eapply select_key_none; [|exact Hsel]; eauto);
        apply Hnone in Hwk; done ].
    all: match goal with
         | |- context [select ?acc (entries ?c0)] =>
             assert (Hsel : select acc (entries c0) = None)
               by (eapply select_key_none; [eauto|]; by apply Hnone)
         end;
      by rewrite Hsel.
Qed.

(** What a const accessor shows: the pair it is about, or its error,
    raised as [throw std::invalid_argument(...)] does. *)
Lemma peek_eq this acc w o :
  wf_world w → objs w !! this = Some (Some o) →
  peek this acc w =
    match select acc (entries (contents w this)) with
    | Some e => Ret e w
    | None => raise (error_of acc) w
    end.
Proof.
  intros Hwf Ho. pose proof (call_const_spec this acc w o Hwf Ho) as Hcall.
  unfold peek, bind. destruct (select acc (entries (contents w this))) as [e|].
  - destruct Hcall as (r & -> & (o' & c & _ & _ & Hc & Hget)).
    unfold ref_read, bind. destruct w as [h os gs b]. cbn in Hc.
    by rewrite (run_deref _ _ _ _ _ _ Hc), Hget.
  - rewrite Hcall. destruct w as [h os gs b]. rewrite !run_raise.
    by destruct b as [[|n]|].
Qed.

(** ** Constructors, assignment and destructor *)

(** One slot of the object table changes (or is added at the end), and
    the heap grows by well-formed cells. *)
Lemma wf_change w h' os' b' x ox :
  wf_world w →
  (∃ ext, h' = heap w ++ ext ∧ Forall wf_container ext) →
  (∀ j, j ≠ x → os' !! j = objs w !! j) →
  os' !! x = Some ox →
  match ox with
  | Some o' => (∀ a, dataPtr o' = Some a → a < length h') ∧ no_conflict w x o'
  | None => True
  end →
  wf_world (World h' os' [] b') ∧
  ∀ j, j ≠ x → contents (World h' os' [] b') j = contents w j.
Proof.
  intros Hwf (ext & -> & Hext) Hother Hx Hox. split; [split; run|].
  - done.
  - intros i oi ai Hi Hai. destruct (decide (i = x)) as [->|Hne].
    + rewrite Hx in Hi. injection Hi as ->. by apply Hox.
    + rewrite Hother in Hi by done. rewrite length_app.
      pose proof (wf_ptrs _ Hwf _ _ _ Hi Hai). lia.
  - intros a c [Hc|[_ Hc]]%lookup_app_Some.
    + by apply (wf_cells _ Hwf) in Hc.
    + eapply Forall_forall; [exact Hext|]. by eapply list_elem_of_lookup_2.
  - intros i j oi oj ai Hij Hi Hj Hpin Hai Haj. cbn [objs] in Hi, Hj.
    destruct (decide (i = x)) as [->|Hi'], (decide (j = x)) as [->|Hj']; [done| | |].
    + rewrite Hx in Hi. injection Hi as ->. rewrite Hother in Hj by done.
      destruct Hox as [_ Hnc]. destruct (Hnc j oj ai Hj' Hj Hai Haj). congruence.
    + rewrite Hx in Hj. injection Hj as ->. rewrite Hother in Hi by done.
      destruct Hox as [_ Hnc]. destruct (Hnc i oi ai Hi' Hi Haj Hai). congruence.
    + rewrite Hother in Hi, Hj by done. by apply (wf_pinned _ Hwf i j oi oj ai).
  - intros j Hj. unfold contents. run. rewrite Hother by done.
    destruct (objs w !! j) as [[oj|]|] eqn:Hoj; [|done|done].
    destruct (dataPtr oj) as [aj|] eqn:Haj; [|done].
    by rewrite lookup_app_l by (by eapply (wf_ptrs _ Hwf)).
Qed.

Lemma lookup_snoc_ne {A} (xs : list A) (x : A) j :
  j ≠ length xs → (xs ++ [x]) !! j = xs !! j.
Proof.
  intros Hj. destruct (decide (j < length xs)).
  - by apply lookup_app_l.
  - rewrite !lookup_ge_None_2; [done|lia|]. rewrite length_app. cbn. lia.
Qed.

Lemma lookup_snoc_eq {A} (xs : list A) (x : A) : (xs ++ [x]) !! length xs = Some x.
Proof. by rewrite lookup_app_r, Nat.sub_diag. Qed.

(** No pinned object holds the pointer of an object that is not pinned;
    nobody holds a pointer past the end of the heap. *)
Lemma no_conflict_share w x src o :
  wf_world w → objs w !! src = Some (Some o) → unshareable o = false →
  no_conflict w x (Kvfifo false (dataPtr o)).
Proof.
  intros Hwf Ho Hu j oj a Hj Hoj Ha Haj. cbn in Ha. split; [done|].
  destruct (unshareable oj) eqn:Hpin; [|done]. exfalso.
  destruct (decide (j = src)) as [->|Hne]; [congruence|].
  by apply (wf_pinned _ Hwf j src oj o a).
Qed.

Lemma no_conflict_fresh w x u a :
  wf_world w → length (heap w) ≤ a → no_conflict w x (Kvfifo u (Some a)).
Proof.
  intros Hwf Hlen j oj a' Hj Hoj [= <-] Haj.
  pose proof (wf_ptrs _ Hwf _ _ _ Hoj Haj). lia.
Qed.

Lemma no_conflict_null w x u : no_conflict w x (Kvfifo u None).
Proof. by intros j oj a' Hj Hoj Ha. Qed.

Lemma run_declare (ctor : M kvfifo) h os gs b :
  declare ctor (World h os gs b) =
    match ctor (World h os gs b) with
    | Ret o w' => Ret (length (objs w'))
                      (World (heap w') (objs w' ++ [Some o]) (guards w') (alloc_budget w'))
    | Throw e w' => Throw e w'
    | Undefined => Undefined
    end.
Proof. done. Qed.

Lemma run_copy_ctor h os gs b src o :
  os !! src = Some (Some o) →
  copy_ctor src (World h os gs b) =
    if negb (unshareable o) then Ret (Kvfifo false (dataPtr o)) (World h os gs b)
    else match dataPtr o with
         | None => Undefined
         | Some a =>
             match h !! a with
             | None => Undefined
             | Some c =>
                 match b with
                 | Some 0 => Throw bad_alloc (World h os gs b)
                 | _ => Ret (Kvfifo false (Some (length h)))
                            (World (h ++ [container_copy c]) os gs (pred <$> b))
                 end
             end
         end.
Proof.
  intros Ho. unfold copy_ctor, bind at 1. rewrite (run_get_obj _ _ _ _ _ _ Ho).
  destruct (unshareable o); cbn [negb]; [|done].
  unfold bind at 1, deref. run. destruct (dataPtr o) as [a|]; [|done].
  destruct (h !! a) as [c|]; [|done]. unfold bind. rewrite run_make_shared.
  by destruct b as [[|n]|].
Qed.

Lemma run_move_ctor h os gs b src o :
  os !! src = Some (Some o) →
  move_ctor (K:=K) (V:=V) src (World h os gs b) =
    Ret o (World h (<[src := Some (Kvfifo (unshareable o) None)]> os) gs b).
Proof.
  intros Ho. unfold move_ctor, bind. by rewrite (run_get_obj _ _ _ _ _ _ Ho).
Qed.

Lemma run_assign h os gs b this ot other :
  os !! this = Some (Some ot) →
  assign this other (World h os gs b) =
    if negb (unshareable other)
    then Ret tt (World h (<[this := Some (Kvfifo false (dataPtr other))]> os) gs b)
    else match dataPtr other with
         | None => Undefined
         | Some a =>
             match h !! a with
             | None => Undefined
             | Some c =>
                 match b with
                 | Some 0 => Throw bad_alloc (World h os gs b)
                 | _ => Ret tt (World (h ++ [container_copy c])
                                  (<[this := Some (Kvfifo false (Some (length h)))]> os)
                                  gs (pred <$> b))
                 end
             end
         end.
Proof.
  intros Ho. pose proof (lookup_lt_Some _ _ _ Ho) as Hlt. unfold assign, bind at 1.
  destruct (unshareable other); cbn [negb].
  - unfold bind at 1, deref. run. destruct (dataPtr other) as [a|]; [|done].
    destruct (h !! a) as [c|]; [|done]. unfold bind at 1. rewrite run_make_shared.
    destruct b as [[|n]|]; [done| |].
    all: rewrite (run_set_dataPtr _ _ _ _ _ _ _ Ho);
      erewrite run_set_unshareable by (by apply list_lookup_insert_eq);
      by rewrite list_insert_insert_eq.
  - rewrite (run_set_dataPtr _ _ _ _ _ _ _ Ho).
    erewrite run_set_unshareable by (by apply list_lookup_insert_eq).
    by rewrite list_insert_insert_eq.
Qed.

Ltac use_wf_change Hwf x ox Hwf' Hcont' :=
  match goal with
  | |- context [wf_world (World ?h' ?os' [] ?b')] =>
      destruct (wf_change _ h' os' b' x ox Hwf) as [Hwf' Hcont']
  end.

Lemma declare_default_spec w :
  wf_world w →
  match run_op DeclareNew w with
  | Ret _ w' =>
      wf_world w' ∧
      objs w' = objs w ++ [Some (Kvfifo false (Some (length (heap w))))] ∧
      heap w' = heap w ++ [empty_container] ∧
      (∀ j, j ≠ length (objs w) → contents w' j = contents w j) ∧
      (alloc_budget w = None → alloc_budget w' = None)
  | Throw e w' => e = bad_alloc ∧ w' = w ∧ alloc_budget w = Some 0
  | Undefined => False
  end.
Proof.
  intros Hwf. destruct w as [h os gs b] eqn:Hw.
  pose proof (wf_guards _ Hwf) as Hg. cbn in Hg. subst gs.
  cbn [run_op]. unfold bind at 1. rewrite run_declare. unfold default_ctor, bind at 1.
  rewrite run_make_shared. destruct b as [[|n]|]; [done| |]; unfold ret; run.
  all: use_wf_change Hwf (length os) (Some (Kvfifo false (Some (length h)))) Hwf' Hcont;
    [ exists [empty_container]; split; [done|]; constructor; [apply wf_empty|done]
    | intros j Hj; by apply lookup_snoc_ne
    | apply lookup_snoc_eq
    | split; [intros a [= <-]; rewrite length_app; cbn; lia
             |apply no_conflict_fresh; [done|cbn; lia]]
    | by split_and! ].
Qed.

Lemma declare_copy_spec src w o :
  wf_world w → objs w !! src = Some (Some o) →
  match run_op (DeclareCopy src) w with
  | Ret _ w' =>
      wf_world w' ∧
      (∀ j, j ≠ length (objs w) → contents w' j = contents w j) ∧
      entries (contents w' (length (objs w))) = entries (contents w src) ∧
      ∃ p, objs w' = objs w ++ [Some (Kvfifo false p)] ∧
           if unshareable o
           then ∃ a c, dataPtr o = Some a ∧ heap w !! a = Some c ∧
                       p = Some (length (heap w)) ∧
                       heap w' = heap w ++ [container_copy c]
           else p = dataPtr o ∧ heap w' = heap w
  | Throw e w' => e = bad_alloc ∧ w' = w ∧ alloc_budget w = Some 0
  | Undefined => unshareable o = true ∧ dataPtr o = None
  end.
Proof.
  intros Hwf Ho. destruct w as [h os gs b] eqn:Hw. cbn in Ho.
  pose proof (wf_guards _ Hwf) as Hg. cbn in Hg. subst gs.
  cbn [run_op]. unfold bind at 1. rewrite run_declare, (run_copy_ctor _ _ _ _ _ _ Ho).
  destruct (unshareable o) eqn:Hu; cbn [negb].
  - destruct (dataPtr o) as [a|] eqn:Hp; [|done].
    destruct (cell_of _ _ _ _ Hwf Ho Hp) as (c & Hc & Hcont & Hwfc). cbn in Hc.
    rewrite Hc. destruct b as [[|n]|]; [done| |]; unfold ret; run.
    all: use_wf_change Hwf (length os) (Some (Kvfifo false (Some (length h)))) Hwf' Hcont';
      [ exists [container_copy c]; split; [done|]; constructor;
          [apply container_copy_wf|done]
      | intros j Hj; by apply lookup_snoc_ne
      | apply lookup_snoc_eq
      | split; [intros a' [= <-]; rewrite length_app; cbn; lia
               |apply no_conflict_fresh; [done|cbn; lia]]
      | split_and!; [exact Hwf'|exact Hcont'| |] ].
    all: try (eexists; split; [reflexivity|by exists a, c]).
    all: rewrite Hcont; unfold contents; run; rewrite lookup_snoc_eq; run;
      rewrite lookup_snoc_eq; apply container_copy_entries.
  - unfold ret. run.
    use_wf_change Hwf (length os) (Some (Kvfifo false (dataPtr o))) Hwf' Hcont';
      [ exists []; split; [by rewrite app_nil_r|done]
      | intros j Hj; by apply lookup_snoc_ne
      | apply lookup_snoc_eq
      | split; [intros a Ha; by eapply (wf_ptrs _ Hwf)
               |by eapply no_conflict_share]
      | split_and!; [exact Hwf'|exact Hcont'| |by eexists] ].
    unfold contents. run. rewrite lookup_snoc_eq, Ho. done.
Qed.

Lemma run_get_obj_dead h os gs b this :
  (∀ o, os !! this ≠ Some (Some o)) →
  get_obj (K:=K) (V:=V) this (World h os gs b) = Undefined.
Proof.
  intros Hdead. unfold get_obj. run.
  destruct (os !! this) as [[o|]|] eqn:Ho; [by destruct (Hdead o)|done|done].
Qed.

(** After [src] has been moved from, its old pointer and flag can go to
    another slot. *)
Lemma no_conflict_moved w x src o b' :
  wf_world w → objs w !! src = Some (Some o) →
  no_conflict (World (heap w) (<[src := Some (Kvfifo (unshareable o) None)]> (objs w)) [] b')
              x o.
Proof.
  intros Hwf Ho j oj a Hj Hoj Ha Haj. cbn [objs] in Hoj.
  pose proof (lookup_lt_Some _ _ _ Ho) as Hlt.
  destruct (decide (j = src)) as [->|Hne].
  - rewrite list_lookup_insert_eq in Hoj by done. by injection Hoj as <-.
  - rewrite list_lookup_insert_ne in Hoj by done.
    destruct (unshareable o) eqn:Hu.
    { destruct (wf_pinned _ Hwf src j o oj a (not_eq_sym Hne) Ho Hoj Hu Ha Haj). }
    destruct (unshareable oj) eqn:Huj; [|done].
    destruct (wf_pinned _ Hwf j src oj o a Hne Hoj Ho Huj Haj Ha).
Qed.

Lemma moved_from_wf w src o b' :
  wf_world w → objs w !! src = Some (Some o) →
  wf_world (World (heap w) (<[src := Some (Kvfifo (unshareable o) None)]> (objs w)) [] b').
Proof.
  intros Hwf Ho. pose proof (lookup_lt_Some _ _ _ Ho) as Hlt.
  apply (wf_change w _ _ _ src (Some (Kvfifo (unshareable o) None)) Hwf).
  - exists []. by rewrite app_nil_r.
  - intros j Hj. by apply list_lookup_insert_ne.
  - by apply list_lookup_insert_eq.
  - split; [done|apply no_conflict_null].
Qed.

Lemma declare_move_wf src w :
  wf_world w →
  match run_op (DeclareMove src) w with
  | Ret _ w' | Throw _ w' => wf_world w'
  | Undefined => True
  end.
Proof.
  intros Hwf. destruct w as [h os gs b] eqn:Hw.
  pose proof (wf_guards _ Hwf) as Hg. cbn in Hg. subst gs.
  cbn [run_op]. unfold bind at 1. rewrite run_declare.
  destruct (os !! src) as [[o|]|] eqn:Ho.
  2,3: unfold move_ctor, bind; rewrite run_get_obj_dead; [done|congruence].
  rewrite (run_move_ctor _ _ _ _ _ _ Ho). unfold ret. run.
  pose proof (moved_from_wf _ src o b Hwf Ho) as Hwf1. cbn [heap objs] in Hwf1.
  apply (wf_change _ _ _ _ (length (<[src := Some (Kvfifo (unshareable o) None)]> os))
           (Some o) Hwf1).
  - exists []. by rewrite app_nil_r.
  - intros j Hj. by apply lookup_snoc_ne.
  - apply lookup_snoc_eq.
  - split.
    + intros a Ha. by apply (wf_ptrs _ Hwf src o a).
    + by apply (no_conflict_moved (World h os [] b) _ src o b).
Qed.

Lemma destroy_wf x w :
  wf_world w →
  match run_op (Destroy x) w with
  | Ret _ w' | Throw _ w' => wf_world w'
  | Undefined => True
  end.
Proof.
  intros Hwf. destruct w as [h os gs b] eqn:Hw.
  pose proof (wf_guards _ Hwf) as Hg. cbn in Hg. subst gs.
  cbn [run_op]. unfold destroy, bind.
  destruct (os !! x) as [[o|]|] eqn:Ho.
  2,3: rewrite run_get_obj_dead; [done|congruence].
  rewrite (run_get_obj _ _ _ _ _ _ Ho). run.
  pose proof (lookup_lt_Some _ _ _ Ho) as Hlt.
  apply (wf_change _ _ _ _ x None Hwf).
  - exists []. by rewrite app_nil_r.
  - intros j Hj. by apply list_lookup_insert_ne.
  - by apply list_lookup_insert_eq.
  - done.
Qed.

Lemma assign_spec dst src w od o :
  wf_world w → objs w !! dst = Some (Some od) → objs w !! src = Some (Some o) →
  match run_op (Assign dst src) w with
  | Ret _ w' =>
      wf_world w' ∧
      (∀ j, j ≠ dst → contents w' j = contents w j) ∧
      entries (contents w' dst) = entries (contents w src) ∧
      ∃ p, objs w' = <[dst := Some (Kvfifo false p)]> (objs w) ∧
           if unshareable o
           then ∃ a c, dataPtr o = Some a ∧ heap w !! a = Some c ∧
                       p = Some (length (heap w)) ∧
                       heap w' = heap w ++ [container_copy c]
           else p = dataPtr o ∧ heap w' = heap w
  | Throw e w' => e = bad_alloc ∧ w' = w ∧ alloc_budget w = Some 0
  | Undefined => unshareable o = true ∧ dataPtr o = None
  end.
Proof.
  intros Hwf Hd Ho. destruct w as [h os gs b] eqn:Hw. cbn in Ho, Hd.
  pose proof (wf_guards _ Hwf) as Hg. cbn in Hg. subst gs.
  pose proof (lookup_lt_Some _ _ _ Hd) as Hlt.
  cbn [run_op]. unfold copy_assign, bind at 1. rewrite (run_copy_ctor _ _ _ _ _ _ Ho).
  destruct (unshareable o) eqn:Hu; cbn [negb].
  - destruct (dataPtr o) as [a|] eqn:Hp; [|done].
    destruct (cell_of _ _ _ _ Hwf Ho Hp) as (c & Hc & Hcont & Hwfc). cbn in Hc.
    rewrite Hc. destruct b as [[|n]|]; [done| |];
      rewrite (run_assign _ _ _ _ _ _ _ Hd); cbn [negb unshareable dataPtr].
    all: use_wf_change Hwf dst (Some (Kvfifo false (Some (length h)))) Hwf' Hcont';
      [ exists [container_copy c]; split; [done|]; constructor;
          [apply container_copy_wf|done]
      | intros j Hj; by apply list_lookup_insert_ne
      | by apply list_lookup_insert_eq
      | split; [intros a' [= <-]; rewrite length_app; cbn; lia
               |apply no_conflict_fresh; [done|cbn; lia]]
      | split_and!; [exact Hwf'|exact Hcont'| |] ].
    all: try (eexists; split; [reflexivity|by exists a, c]).
    all: rewrite Hcont; unfold contents; run; rewrite list_lookup_insert_eq by done; run;
      rewrite lookup_snoc_eq; apply container_copy_entries.
  - rewrite (run_assign _ _ _ _ _ _ _ Hd). cbn [negb unshareable dataPtr].
    use_wf_change Hwf dst (Some (Kvfifo false (dataPtr o))) Hwf' Hcont';
      [ exists []; split; [by rewrite app_nil_r|done]
      | intros j Hj; by apply list_lookup_insert_ne
      | by apply list_lookup_insert_eq
      | split; [intros a Ha; by eapply (wf_ptrs _ Hwf)
               |by eapply no_conflict_share]
      | split_and!; [exact Hwf'|exact Hcont'| |by eexists] ].
    unfold contents. run. rewrite list_lookup_insert_eq, Ho by done. done.
Qed.

Lemma run_assign_dead h os gs b this other :
  (∀ o, os !! this ≠ Some (Some o)) →
  match assign this other (World h os gs b) with
  | Ret _ _ => False
  | Throw _ w' => w' = World h os gs b
  | Undefined => True
  end.
Proof.
  intros Hdead. unfold assign, bind at 1.
  destruct (unshareable other); cbn [negb].
  - unfold bind at 1, deref. run. destruct (dataPtr other) as [a|]; [|done].
    destruct (h !! a) as [c|]; [|done]. unfold bind at 1. rewrite run_make_shared.
    destruct b as [[|n]|]; [done| |];
      unfold set_dataPtr, bind; by rewrite run_get_obj_dead.
  - unfold set_dataPtr, bind. by rewrite run_get_obj_dead.
Qed.

Lemma run_assign_dead_shared h os gs b this p :
  (∀ o, os !! this ≠ Some (Some o)) →
  assign (K:=K) (V:=V) this (Kvfifo false p) (World h os gs b) = Undefined.
Proof.
  intros Hdead. unfold assign, bind at 1. cbn [negb unshareable dataPtr].
  unfold set_dataPtr, bind. by rewrite run_get_obj_dead.
Qed.

Lemma move_assign_wf dst src w :
  wf_world w →
  match run_op (MoveAssign dst src) w with
  | Ret _ w' | Throw _ w' => wf_world w'
  | Undefined => True
  end.
Proof.
  intros Hwf. destruct w as [h os gs b] eqn:Hw.
  pose proof (wf_guards _ Hwf) as Hg. cbn in Hg. subst gs.
  cbn [run_op]. unfold move_assign, bind at 1.
  destruct (os !! src) as [[o|]|] eqn:Ho.
  2,3: unfold move_ctor, bind; rewrite run_get_obj_dead; [done|congruence].
  rewrite (run_move_ctor _ _ _ _ _ _ Ho).
  pose proof (moved_from_wf _ src o b Hwf Ho) as Hwf1. cbn [heap objs] in Hwf1.
  pose proof (λ x, no_conflict_moved (World h os [] b) x src o b Hwf Ho) as Hnc.
  cbn [heap objs] in Hnc.
  destruct (<[src := Some (Kvfifo (unshareable o) None)]> os !! dst) as [[od|]|] eqn:Hd.
  2,3: pose proof (run_assign_dead h (<[src := Some (Kvfifo (unshareable o) None)]> os)
                     [] b dst o ltac:(intros ?; rewrite Hd; congruence)) as Hdead;
    destruct (assign _ _ _); [done|by subst|done].
  pose proof (lookup_lt_Some _ _ _ Hd) as Hlt.
  rewrite (run_assign _ _ _ _ _ _ _ Hd).
  destruct (unshareable o) eqn:Hu; cbn [negb].
  - destruct (dataPtr o) as [a|] eqn:Hp; [|done].
    destruct (cell_of _ _ _ _ Hwf Ho Hp) as (c & Hc & Hcont & Hwfc). cbn in Hc.
    rewrite Hc. destruct b as [[|n]|]; [done| |].
    all: apply (wf_change _ _ _ _ dst (Some (Kvfifo false (Some (length h)))) Hwf1);
      [ exists [container_copy c]; split; [done|]; constructor;
          [apply container_copy_wf|done]
      | intros j Hj; by apply list_lookup_insert_ne
      | by apply list_lookup_insert_eq
      | split; [intros a' [= <-]; rewrite length_app; cbn; lia
               |apply no_conflict_fresh; [done|cbn; lia]] ].
  - apply (wf_change _ _ _ _ dst (Some (Kvfifo false (dataPtr o))) Hwf1).
    + exists []. by rewrite app_nil_r.
    + intros j Hj. by apply list_lookup_insert_ne.
    + by apply list_lookup_insert_eq.
    + split; [intros a Ha; by apply (wf_ptrs _ Hwf src o a)|].
      intros j oj a Hj Hoj Ha Haj. cbn in Ha.
      destruct (Hnc dst j oj a Hj Hoj Ha Haj). done.
Qed.

(** ** Every statement keeps the invariants *)

Lemma modified_frame this mark w w' o :
  objs w !! this = Some (Some o) → modified this mark w w' →
  (∀ j, j ≠ this → contents w' j = contents w j) ∧ (∀ j, live w' j ↔ live w j).
Proof.
  intros Ho [_ [_ Hfr] [a Ha] _]. split; [intros j Hj; by apply Hfr|].
  intros j. unfold live. destruct (decide (j = this)) as [->|Hj].
  - rewrite Ha, Ho. naive_solver.
  - by rewrite (proj1 (Hfr j Hj)).
Qed.

Lemma member_spec o y w oy :
  wf_world w → objs w !! y = Some (Some oy) → mutates y o →
  match run_op o w with
  | Ret _ w' =>
      wf_world w' ∧ (∀ j, j ≠ y → contents w' j = contents w j) ∧
      (∀ j, live w' j ↔ live w j)
  | Throw e w' => unchanged w w'
  | Undefined => False
  end.
Proof.
  intros Hwf Ho Hm. destruct o; cbn in Hm; try done; subst; cbn [run_op].
  - pose proof (push_spec y k v w oy Hwf Ho) as H.
    destruct (push y k v w) as [[] w'|e w'|]; [|by destruct H as (_ & _ & ?)|done].
    destruct H as [Hmod _]. split; [apply Hmod|by eapply modified_frame].
  - pose proof (pop_spec y w oy Hwf Ho) as H.
    destruct (pop y w) as [[] w'|e w'|]; [| |done].
    + destruct H as [Hmod _]. split; [apply Hmod|by eapply modified_frame].
    + by destruct H as [Hun _].
  - pose proof (pop_key_spec y k w oy Hwf Ho) as H.
    destruct (pop_key y k w) as [[] w'|e w'|]; [|by destruct H|done].
    destruct H as [Hmod _]. split; [apply Hmod|by eapply modified_frame].
  - pose proof (move_to_back_spec y k w oy Hwf Ho) as H.
    destruct (move_to_back y k w) as [[] w'|e w'|]; [|by destruct H|done].
    destruct H as [Hmod _]. split; [apply Hmod|by eapply modified_frame].
  - pose proof (clear_spec y w oy Hwf Ho) as H.
    destruct (clear y w) as [[] w'|e w'|]; [| |done].
    + destruct H as (Hwf' & _ & _ & Hnull & Hmod). split; [done|].
      destruct (dataPtr oy) as [a|] eqn:Hp.
      * eapply modified_frame; [done|]. apply Hmod. by eexists.
      * by rewrite (Hnull eq_refl).
    + destruct H as (_ & _ & ->). by apply unchanged_refl.
  - pose proof (call_spec y a w oy Hwf Ho) as H. unfold bind, ret.
    destruct (call y a w) as [r w'|e w'|]; [|by destruct H|done].
    destruct H as [Hmod _]. split; [apply Hmod|by eapply modified_frame].
  - pose proof (write_spec y a v w oy Hwf Ho) as H.
    destruct ((do r <- call y a; ref_write r v) w) as [[] w'|e w'|]; [|by destruct H|done].
    destruct H as [Hmod _]. split; [apply Hmod|by eapply modified_frame].
Qed.

Lemma run_empty_dead h os gs b this :
  (∀ o, os !! this ≠ Some (Some o)) →
  empty (K:=K) (V:=V) this (World h os gs b) = Undefined.
Proof. intros Hdead. unfold empty, bind. by rewrite run_get_obj_dead. Qed.

Lemma member_dead o y w :
  mutates y o → (∀ oy, objs w !! y ≠ Some (Some oy)) → run_op o w = Undefined.
Proof.
  intros Hm Hdead. destruct w as [h os gs b]. cbn in Hdead.
  destruct o; cbn in Hm; try done; subst; cbn [run_op].
  - unfold push, bind. by rewrite run_get_obj_dead.
  - unfold pop, bind. by rewrite run_empty_dead.
  - unfold pop_key, bind. by rewrite run_empty_dead.
  - unfold move_to_back, bind. by rewrite run_empty_dead.
  - unfold clear, bind. by rewrite run_get_obj_dead.
  - rewrite call_unfold. unfold bind. by rewrite run_empty_dead.
  - rewrite call_unfold. unfold bind. by rewrite run_empty_dead.
Qed.

Lemma run_op_wf o w :
  wf_world w →
  match run_op o w with
  | Ret _ w' | Throw _ w' => wf_world w'
  | Undefined => True
  end.
Proof.
  intros Hwf.
  assert (Hmember : ∀ y, mutates y o →
            match run_op o w with
            | Ret _ w' | Throw _ w' => wf_world w'
            | Undefined => True
            end).
  { intros y Hm. destruct (objs w !! y) as [[oy|]|] eqn:Hy.
    - pose proof (member_spec o y w oy Hwf Hy Hm) as H.
      destruct (run_op o w); [by destruct H|by destruct H|done].
    - rewrite (member_dead o y w Hm); [done|congruence].
    - rewrite (member_dead o y w Hm); [done|congruence]. }
  destruct o; try (by eapply Hmember).
  - pose proof (declare_default_spec w Hwf) as H.
    destruct (run_op DeclareNew w); [by destruct H|by destruct H as (_ & -> & _)|done].
  - destruct (objs w !! src) as [[o|]|] eqn:Ho.
    + pose proof (declare_copy_spec src w o Hwf Ho) as H.
      destruct (run_op _ w); [by destruct H|by destruct H as (_ & -> & _)|done].
    + destruct w as [h os gs b]. cbn in Ho. cbn [run_op]. unfold bind at 1.
      rewrite run_declare. unfold copy_ctor, bind.
      rewrite run_get_obj_dead; [done|congruence].
    + destruct w as [h os gs b]. cbn in Ho. cbn [run_op]. unfold bind at 1.
      rewrite run_declare. unfold copy_ctor, bind.
      rewrite run_get_obj_dead; [done|congruence].
  - by apply declare_move_wf.
  - destruct (objs w !! src) as [[o|]|] eqn:Ho.
    2,3: destruct w as [h os gs b]; cbn in Ho; cbn [run_op];
      unfold copy_assign, copy_ctor, bind;
      rewrite run_get_obj_dead; [done|congruence].
    destruct (objs w !! dst) as [[od|]|] eqn:Hd.
    + pose proof (assign_spec dst src w od o Hwf Hd Ho) as H.
      destruct (run_op _ w); [by destruct H|by destruct H as (_ & -> & _)|done].
    + destruct w as [h os gs b] eqn:Hw. cbn in Ho, Hd. cbn [run_op].
      unfold copy_assign, bind at 1. rewrite (run_copy_ctor _ _ _ _ _ _ Ho).
      destruct (negb (unshareable o)).
      * rewrite run_assign_dead_shared; [done|intros ?; rewrite Hd; congruence].
      * destruct (dataPtr o) as [a|]; [|done]. destruct (h !! a) as [c|]; [|done].
        destruct b as [[|n]|]; [done| |];
          (rewrite run_assign_dead_shared; [done|intros ?; rewrite Hd; congruence]).
    + destruct w as [h os gs b] eqn:Hw. cbn in Ho, Hd. cbn [run_op].
      unfold copy_assign, bind at 1. rewrite (run_copy_ctor _ _ _ _ _ _ Ho).
      destruct (negb (unshareable o)).
      * rewrite run_assign_dead_shared; [done|intros ?; rewrite Hd; congruence].
      * destruct (dataPtr o) as [a|]; [|done]. destruct (h !! a) as [c|]; [|done].
        destruct b as [[|n]|]; [done| |];
          (rewrite run_assign_dead_shared; [done|intros ?; rewrite Hd; congruence]).
  - by apply move_assign_wf.
  - by apply destroy_wf.
Qed.

Lemma wf_set_budget b w : wf_world w → wf_world (set_budget b w).
Proof. intros [? ? ? ?]. by split. Qed.

Lemma init_wf : wf_world (K:=K) (V:=V) init.
Proof.
  split; unfold init; cbn [heap objs guards]; [done| | |].
  - intros i o a Hi. by rewrite lookup_nil in Hi.
  - intros a c Ha. by rewrite lookup_nil in Ha.
  - intros i j o o' a _ Hi. cbn [objs] in Hi. by rewrite lookup_nil in Hi.
Qed.

Lemma step_wf s w w' : wf_world w → step s w = Some w' → wf_world w'.
Proof.
  intros Hwf. unfold step.
  pose proof (run_op_wf s.2 (set_budget s.1 w) (wf_set_budget _ _ Hwf)) as H.
  destruct (run_op _ _); intros [= <-]; done.
Qed.

Lemma exec_wf prog w w' : wf_world w → exec prog w = Some w' → wf_world w'.
Proof.
  revert w. induction prog as [|s prog IH]; intros w Hwf; cbn [exec].
  - by intros [= <-].
  - destruct (step s w) as [w1|] eqn:Hs; [|done]. apply IH. by eapply step_wf.
Qed.

Lemma reachable_wf prog w : exec prog init = Some w → wf_world w.
Proof. apply exec_wf, init_wf. Qed.

Lemma exec_app p1 p2 w :
  exec (K:=K) (V:=V) (p1 ++ p2) w =
    match exec p1 w with Some w1 => exec p2 w1 | None => None end.
Proof.
  revert w. induction p1 as [|s p1 IH]; intros w; cbn [exec app]; [done|].
  by destruct (step s w).
Qed.

(** * The claims *)

Lemma nodes_of_member k n l :
  NoDup l.*1 → n ∈ nodes_of k l ↔ ∃ v, list_get n l = Some (k, v).
Proof.
  intros Hnd. unfold nodes_of. split.
  - intros ([n' [k' v]] & -> & [Hk Hin]%list_elem_of_filter)%list_elem_of_fmap.
    cbn in Hk. subst k'. exists v. by apply list_get_NoDup.
  - intros [v Hget%list_get_elem]. apply (list_elem_of_fmap_2' fst _ (n, (k, v))); [|done].
    by apply list_elem_of_filter.
Qed.

(** C1.  Invariants I1-I3 hold after every sequence of statements: for
    an object of a reachable world and every key [k], [count(k)] is the
    number of entries with key [k] in the queue; the bucket of [k], when
    there is one, is not empty, has that length, holds exactly the nodes
    whose entry has key [k], each once, and lists them in queue order
    (it is [nodes_of k] of the queue); and [k] has a bucket if and only
    if some entry of the queue has key [k]. *)
Theorem C1_index_invariant (prog : list stmt) w x o k :
  exec prog init = Some w → objs w !! x = Some (Some o) →
  let c := contents w x in
  count x k w = Ret (length (with_key k (entries c))) w ∧
  NoDup (pair_list c).*1 ∧
  (∀ b, map_find k (iterator_list_map c) = Some b →
        b ≠ [] ∧ length b = length (with_key k (entries c)) ∧
        b = nodes_of k (pair_list c) ∧ NoDup b ∧
        ∀ n, n ∈ b ↔ ∃ v, list_get n (pair_list c) = Some (k, v)) ∧
  (is_Some (map_find k (iterator_list_map c)) ↔ ∃ v, (k, v) ∈ entries c).
Proof.
  intros Hexec Ho c. pose proof (reachable_wf _ _ Hexec) as Hwf.
  pose proof (contents_wf w x Hwf) as Hc. fold c in Hc.
  split_and!.
  - by apply (run_count w x o).
  - apply (wf_nodes _ Hc).
  - intros b Hb. rewrite (wf_index _ Hc) in Hb.
    apply bucket_of_Some in Hb as [<- Hne]. split_and!; [done| |done| |].
    + apply length_nodes_of.
    + apply NoDup_filter_ids, (wf_nodes _ Hc).
    + intros n. apply nodes_of_member, (wf_nodes _ Hc).
  - by apply wf_key_present.
Qed.

Lemma k_collect_spec h os gs b a c i fuel :
  h !! a = Some c → i ≤ length (iterator_list_map c) →
  length (iterator_list_map c) - i ≤ fuel →
  k_collect fuel (KIterator (Some a) i)
            (KIterator (Some a) (length (iterator_list_map c))) (World h os gs b) =
    Ret (drop i (keys c)) (World h os gs b).
Proof.
  intros Hc. revert i. induction fuel as [|fuel IH]; intros i Hi Hfuel.
  - assert (i = length (iterator_list_map c)) as -> by lia.
    cbn [k_collect]. unfold k_iterator_eqb. cbn [k_map k_pos].
    rewrite bool_decide_eq_true_2, Nat.eqb_refl by done. cbn [andb]. unfold ret.
    unfold keys. by rewrite drop_ge by (by rewrite length_fmap).
  - cbn [k_collect]. unfold k_iterator_eqb. cbn [k_map k_pos].
    rewrite bool_decide_eq_true_2 by done. cbn [andb].
    destruct (Nat.eqb_spec i (length (iterator_list_map c))) as [->|Hne].
    + unfold ret, keys. by rewrite drop_ge by (by rewrite length_fmap).
    + assert (Hlt : i < length (iterator_list_map c)) by lia.
      apply lookup_lt_is_Some in Hlt as [[k bk] Hk].
      unfold bind at 1, k_deref, bind at 1. cbn [k_map k_pos].
      rewrite (run_deref _ _ _ _ _ _ Hc), Hk. unfold ret at 1.
      unfold bind at 1, k_incr, bind at 1. cbn [k_map k_pos].
      rewrite (run_deref _ _ _ _ _ _ Hc), decide_True by lia. unfold ret at 1.
      unfold bind at 1. rewrite IH by lia. unfold ret, keys.
      by rewrite (drop_S _ k i) by (by rewrite list_lookup_fmap, Hk).
Qed.

Lemma sorted_NoDup (ks : list K) :
  StronglySorted (λ a b, key_lt a b = true) ks → NoDup ks.
Proof.
  induction 1 as [|k ks Hs IH Hall]; constructor; [|done].
  intros Hin. eapply Forall_forall in Hall; [|exact Hin].
  by rewrite key_lt_irrefl in Hall.
Qed.

(** C9.  The iterators [k_begin()] and [k_end()] of a live object
    delimit the list [keys] of its storage: a loop from one to the other
    reads exactly that list (given enough rounds); the list is strictly
    ascending and without duplicates, and it holds exactly the keys [k]
    with [count(k) > 0]. *)
Theorem C9_key_iteration (prog : list stmt) w x o :
  exec prog init = Some w → objs w !! x = Some (Some o) →
  let ks := keys (contents w x) in
  (∃ b e, k_begin x w = Ret b w ∧ k_end x w = Ret e w ∧
          ∀ fuel, length ks ≤ fuel → k_collect fuel b e w = Ret ks w) ∧
  StronglySorted (λ a b, key_lt a b = true) ks ∧
  NoDup ks ∧
  ∀ k, k ∈ ks ↔ ∃ n, count x k w = Ret n w ∧ 0 < n.
Proof.
  intros Hexec Ho ks. pose proof (reachable_wf _ _ Hexec) as Hwf.
  pose proof (contents_wf w x Hwf) as Hc.
  split_and!.
  - destruct w as [h os gs b] eqn:Hw. cbn in Ho.
    unfold k_begin, k_end, bind. rewrite (run_get_obj _ _ _ _ _ _ Ho).
    destruct (dataPtr o) as [a|] eqn:Hp.
    + destruct (cell_of _ _ _ _ Hwf Ho Hp) as (c & Hcell & Hcont & _). cbn in Hcell.
      rewrite (run_deref _ _ _ _ _ _ Hcell). unfold ret. eexists _, _.
      split_and!; [done|done|]. intros fuel Hfuel. unfold ks in *. rewrite Hcont in *.
      rewrite k_collect_spec; [done|done|lia|].
      unfold keys in Hfuel. rewrite length_fmap in Hfuel. lia.
    + unfold ret. eexists _, _. split_and!; [done|done|]. intros fuel _. unfold ks.
      rewrite (contents_null (World h os gs b) x o Ho Hp).
      by destruct fuel.
  - apply (wf_sorted _ Hc).
  - apply sorted_NoDup, (wf_sorted _ Hc).
  - intros k. unfold ks. rewrite (wf_keys_elem k _ Hc), (run_count w x o k Hwf Ho). split.
    + intros [v Hv]. eexists. split; [done|].
      assert (Hin : (k, v) ∈ with_key k (entries (contents w x)))
        by (by apply list_elem_of_filter).
      destruct (with_key k _); [by apply elem_of_nil in Hin|cbn; lia].
    + intros (n & [= <-] & Hn).
      destruct (with_key k _) as [|[k' v] r] eqn:Hf; [cbn in Hn; lia|].
      assert (Hin : (k', v) ∈ with_key k (entries (contents w x))) by (rewrite Hf; left).
      apply list_elem_of_filter in Hin as [Hk Hin]. cbn in Hk. subst k'. by exists v.
Qed.

(** ** With an allocator that does not fail *)

Lemma push_ok this k v w o :
  wf_world w → objs w !! this = Some (Some o) → alloc_budget w = None →
  ∃ w', push this k v w = Ret tt w' ∧ modified this false w w' ∧
        entries (contents w' this) = entries (contents w this) ++ [(k, v)].
Proof.
  intros Hwf Ho Hb. pose proof (push_spec this k v w o Hwf Ho) as H.
  destruct (push this k v w) as [[] w'|e w'|]; [|by destruct H as (_ & ? & _)|done].
  exists w'. by destruct H as (? & ? & _).
Qed.

Lemma pop_ok this w o e es :
  wf_world w → objs w !! this = Some (Some o) → alloc_budget w = None →
  entries (contents w this) = e :: es →
  ∃ w', pop this w = Ret tt w' ∧ modified this false w w' ∧
        entries (contents w' this) = es.
Proof.
  intros Hwf Ho Hb He. pose proof (pop_spec this w o Hwf Ho) as H.
  destruct (pop this w) as [[] w'|ex w'|]; [| |done].
  - exists w'. destruct H as (? & -> & _). by rewrite He.
  - destruct H as (_ & _ & [(_ & Hnil & _)|(_ & Hb')]); congruence.
Qed.

Lemma pop_key_ok this k w o :
  wf_world w → objs w !! this = Some (Some o) → alloc_budget w = None →
  with_key k (entries (contents w this)) ≠ [] →
  ∃ w', pop_key this k w = Ret tt w' ∧ modified this false w w' ∧
        entries (contents w' this) = remove_first k (entries (contents w this)).
Proof.
  intros Hwf Ho Hb He. pose proof (pop_key_spec this k w o Hwf Ho) as H.
  destruct (pop_key this k w) as [[] w'|ex w'|]; [| |done].
  - exists w'. by destruct H as (? & -> & _).
  - destruct H as [_ [[_ Hnil]|(_ & Hb')]]; congruence.
Qed.

Lemma move_to_back_ok this k w o :
  wf_world w → objs w !! this = Some (Some o) → alloc_budget w = None →
  with_key k (entries (contents w this)) ≠ [] →
  ∃ w', move_to_back this k w = Ret tt w' ∧ modified this false w w' ∧
        entries (contents w' this) =
          without_key k (entries (contents w this)) ++ with_key k (entries (contents w this)).
Proof.
  intros Hwf Ho Hb He. pose proof (move_to_back_spec this k w o Hwf Ho) as H.
  destruct (move_to_back this k w) as [[] w'|ex w'|]; [| |done].
  - exists w'. by destruct H as (? & -> & _).
  - destruct H as [_ [[_ Hnil]|(_ & Hb')]]; congruence.
Qed.

Lemma modified_live this mark w w' :
  modified this mark w w' → ∃ o', objs w' !! this = Some (Some o').
Proof. intros [_ _ [a Ha] _]. by eexists. Qed.

Lemma exec_pushes x kvs w o :
  wf_world w → objs w !! x = Some (Some o) → alloc_budget w = None →
  ∃ w' o', exec (pushes x kvs) w = Some w' ∧ wf_world w' ∧ alloc_budget w' = None ∧
           objs w' !! x = Some (Some o') ∧
           entries (contents w' x) = entries (contents w x) ++ kvs ∧
           ∀ j, j ≠ x → contents w' j = contents w j.
Proof.
  revert w o. induction kvs as [|[k v] kvs IH]; intros w o Hwf Ho Hb.
  - exists w, o. by rewrite app_nil_r.
  - cbn [pushes fmap list_fmap exec]. unfold step. cbn [fst snd run_op].
    assert (Hw : set_budget None w = w) by (destruct w; cbn in *; by subst).
    rewrite Hw.
    destruct (push_ok x k v w o Hwf Ho Hb) as (w1 & -> & Hmod & He).
    destruct (modified_live _ _ _ _ Hmod) as [o1 Ho1].
    destruct (IH w1 o1 (mod_wf _ _ _ _ Hmod) Ho1 (mod_budget _ _ _ _ Hmod Hb))
      as (w' & o' & Hex & Hwf' & Hb' & Ho' & He' & Hfr').
    exists w', o'. split_and!; [done|done|done|done| |].
    + rewrite He', He, <-app_assoc. done.
    + intros j Hj. rewrite Hfr' by done. by apply (mod_frame _ _ _ _ Hmod).
Qed.

(** A new object and then the insertion of [kvs]. *)
Lemma fresh_pushes kvs w :
  wf_world w →
  let x := length (objs w) in
  ∃ w' o', exec ((None, DeclareNew) :: pushes x kvs) w = Some w' ∧ wf_world w' ∧
           alloc_budget w' = None ∧ objs w' !! x = Some (Some o') ∧
           entries (contents w' x) = kvs.
Proof.
  intros Hwf x. cbn [exec]. unfold step. cbn [fst snd].
  pose proof (declare_default_spec (set_budget None w) (wf_set_budget _ _ Hwf)) as H.
  destruct (run_op DeclareNew _) as [[] w1|e w1|]; [| |done].
  2:{ by destruct H as (_ & _ & ?). }
  destruct H as (Hwf1 & Hos & Hh & Hfr & Hb1).
  assert (Hx : objs w1 !! x = Some (Some (Kvfifo false (Some (length (heap w))))))
    by (rewrite Hos; apply lookup_snoc_eq).
  destruct (exec_pushes x kvs w1 _ Hwf1 Hx (Hb1 eq_refl))
    as (w' & o' & Hex & Hwf' & Hb' & Ho' & He' & _).
  exists w', o'. split_and!; [done|done|done|done|].
  rewrite He'. unfold contents. rewrite Hx. cbn [dataPtr]. cbn match.
  cbn [heap set_budget] in Hh. by rewrite Hh, lookup_snoc_eq.
Qed.


Lemma set_budget_id w : alloc_budget w = None → set_budget None w = w.
Proof. destruct w. cbn. by intros ->. Qed.

Lemma drain_spec es w x o :
  wf_world w → objs w !! x = Some (Some o) → alloc_budget w = None →
  entries (contents w x) = es →
  ∃ w', drain (length es) x w = Ret es w' ∧ wf_world w' ∧
        entries (contents w' x) = [] ∧ ∃ o', objs w' !! x = Some (Some o').
Proof.
  revert w o. induction es as [|e es IH]; intros w o Hwf Ho Hb He.
  - exists w. split_and!; [done|done|done|by eexists].
  - cbn [length drain]. unfold bind at 1.
    rewrite (peek_eq x AFront w o Hwf Ho), He. cbn [select head].
    destruct (pop_ok x w o e es Hwf Ho Hb He) as (w1 & Hpop & Hmod & He1).
    unfold bind at 1. rewrite Hpop.
    destruct (modified_live _ _ _ _ Hmod) as [o1 Ho1].
    destruct (IH w1 o1 (mod_wf _ _ _ _ Hmod) Ho1 (mod_budget _ _ _ _ Hmod Hb) He1)
      as (w' & Hdrain & Hwf' & He' & Hlive').
    unfold bind. rewrite Hdrain. by exists w'.
Qed.

(** C2.  A new object that receives the pairs [kvs] by [push], with no
    removal in between, has [size() = length kvs]; reading the front and
    removing it, [length kvs] times, yields exactly [kvs], in the order
    of insertion, and leaves the queue empty. *)
Theorem C2_fifo_order (prog : list stmt) w (kvs : list (K * V)) :
  exec prog init = Some w →
  let x := length (objs w) in
  ∃ w1 w2,
    exec ((None, DeclareNew) :: pushes x kvs) w = Some w1 ∧
    size x w1 = Ret (length kvs) w1 ∧
    drain (length kvs) x w1 = Ret kvs w2 ∧
    size x w2 = Ret 0 w2.
Proof.
  intros Hexec x. subst x. pose proof (reachable_wf _ _ Hexec) as Hwf.
  destruct (fresh_pushes kvs w Hwf) as (w1 & o1 & Hex & Hwf1 & Hb1 & Ho1 & He1).
  destruct (drain_spec kvs w1 _ o1 Hwf1 Ho1 Hb1 He1) as (w2 & Hdrain & Hwf2 & He2 & o2 & Ho2).
  exists w1, w2. split_and!; [done| |done|].
  - by rewrite (run_size w1 _ o1 Hwf1 Ho1), He1.
  - by rewrite (run_size w2 _ o2 Hwf2 Ho2), He2.
Qed.

Lemma with_key_app k (es1 es2 : list (K * V)) :
  with_key k (es1 ++ es2) = with_key k es1 ++ with_key k es2.
Proof. apply filter_app. Qed.

Lemma without_key_app k (es1 es2 : list (K * V)) :
  without_key k (es1 ++ es2) = without_key k es1 ++ without_key k es2.
Proof. apply filter_app. Qed.

Lemma filter_none {A} (P : A → Prop) `{!∀ x, Decision (P x)} (xs : list A) :
  (∀ x, ¬ P x) → filter P xs = [].
Proof.
  intros HP. induction xs as [|x xs IH]; [done|]. by rewrite filter_cons_False.
Qed.

Lemma filter_none_or {A} (P : A → Prop) `{!∀ x, Decision (P x)} (xs : list A) :
  (∀ x, x ∈ xs → ¬ P x) → filter P xs = [].
Proof.
  intros HP. induction xs as [|x xs IH]; [done|].
  rewrite filter_cons_False by (apply HP; left). apply IH. intros; apply HP; by right.
Qed.

Lemma move_to_back_twice k (es : list (K * V)) :
  let es' := without_key k es ++ with_key k es in
  without_key k es' ++ with_key k es' = es'.
Proof.
  cbn zeta. rewrite without_key_app, with_key_app. unfold without_key, with_key.
  rewrite !list_filter_filter.
  rewrite (list_filter_iff (λ e : K * V, e.1 ≠ k ∧ e.1 ≠ k) (λ e, e.1 ≠ k)) by naive_solver.
  rewrite (list_filter_iff (λ e : K * V, e.1 = k ∧ e.1 = k) (λ e, e.1 = k)) by naive_solver.
  rewrite (filter_none (λ e : K * V, e.1 ≠ k ∧ e.1 = k)) by naive_solver.
  rewrite (filter_none (λ e : K * V, e.1 = k ∧ e.1 ≠ k)) by naive_solver.
  by rewrite app_nil_r.
Qed.

Lemma with_key_other k k' (es : list (K * V)) :
  k' ≠ k →
  with_key k' (without_key k es ++ with_key k es) = with_key k' es.
Proof.
  intros Hk. rewrite with_key_app. unfold without_key, with_key.
  rewrite !list_filter_filter.
  rewrite (list_filter_iff (λ e : K * V, e.1 = k' ∧ e.1 ≠ k) (λ e, e.1 = k'))
    by (intros; split; [naive_solver|intros; split; congruence]).
  rewrite (filter_none (λ e : K * V, e.1 = k' ∧ e.1 = k))
    by (intros ? [? ?]; congruence).
  by rewrite app_nil_r.
Qed.

(** C3.  On an object whose queue holds key [k], [move_to_back(k)]
    returns and leaves the queue as: the entries with other keys, in
    their order, followed by the entries with key [k], in their order
    (so for every other key the entries with that key keep their
    order); a second [move_to_back(k)] changes nothing.  In particular,
    after (a,v1), (b,v2), (a,v3) were inserted into a new object,
    [move_to_back(a)] gives (b,v2), (a,v1), (a,v3), and so does a second
    call. *)
Theorem C3_move_to_back (prog : list stmt) w x o k :
  exec prog init = Some w → objs w !! x = Some (Some o) →
  let es := entries (contents w x) in
  with_key k es ≠ [] →
  (∃ w1 w2,
     run_op (MoveToBack x k) (set_budget None w) = Ret tt w1 ∧
     entries (contents w1 x) = without_key k es ++ with_key k es ∧
     (∀ k', k' ≠ k → with_key k' (entries (contents w1 x)) = with_key k' es) ∧
     run_op (MoveToBack x k) (set_budget None w1) = Ret tt w2 ∧
     entries (contents w2 x) = entries (contents w1 x)) ∧
  (∀ (a b : K) (v1 v2 v3 : V), a ≠ b →
     let y := length (objs w) in
     ∃ w3 w4 w5,
       exec ((None, DeclareNew) :: pushes y [(a, v1); (b, v2); (a, v3)]) w = Some w3 ∧
       run_op (MoveToBack y a) w3 = Ret tt w4 ∧
       entries (contents w4 y) = [(b, v2); (a, v1); (a, v3)] ∧
       run_op (MoveToBack y a) w4 = Ret tt w5 ∧
       entries (contents w5 y) = [(b, v2); (a, v1); (a, v3)]).
Proof.
  intros Hexec Ho es Hk. pose proof (reachable_wf _ _ Hexec) as Hwf.
  assert (Htwice : ∀ w0 z oz kz,
            wf_world w0 → objs w0 !! z = Some (Some oz) → alloc_budget w0 = None →
            with_key kz (entries (contents w0 z)) ≠ [] →
            ∃ w1 w2,
              run_op (MoveToBack z kz) w0 = Ret tt w1 ∧
              entries (contents w1 z) =
                without_key kz (entries (contents w0 z)) ++ with_key kz (entries (contents w0 z)) ∧
              run_op (MoveToBack z kz) w1 = Ret tt w2 ∧
              entries (contents w2 z) = entries (contents w1 z)).
  { intros w0 z oz kz Hwf0 Hz Hb0 Hkz. cbn [run_op].
    destruct (move_to_back_ok z kz w0 oz Hwf0 Hz Hb0 Hkz) as (w1 & Hmv & Hmod & He1).
    destruct (modified_live _ _ _ _ Hmod) as [o1 Ho1].
    assert (Hk1 : with_key kz (entries (contents w1 z)) ≠ []).
    { rewrite He1, with_key_app. unfold with_key at 2, with_key at 2.
      rewrite list_filter_filter_l by done. fold (with_key kz (entries (contents w0 z))).
      intros [_ ?]%app_eq_nil. done. }
    destruct (move_to_back_ok z kz w1 o1 (mod_wf _ _ _ _ Hmod) Ho1
                (mod_budget _ _ _ _ Hmod Hb0) Hk1) as (w2 & Hmv2 & Hmod2 & He2).
    exists w1, w2. split_and!; [done|done|done|].
    rewrite He2, He1. apply move_to_back_twice. }
  split.
  - destruct (Htwice (set_budget None w) x o k (wf_set_budget _ _ Hwf) Ho eq_refl Hk)
      as (w1 & w2 & Hmv1 & He1 & Hmv2 & He2).
    assert (Hb1 : alloc_budget w1 = None).
    { cbn [run_op] in Hmv1.
      destruct (move_to_back_ok x k (set_budget None w) o (wf_set_budget _ _ Hwf) Ho eq_refl Hk)
        as (w1' & Hmv & Hmod & _).
      rewrite Hmv in Hmv1. injection Hmv1 as <-. by apply (mod_budget _ _ _ _ Hmod). }
    exists w1, w2. rewrite (set_budget_id w1 Hb1). split_and!; [done|done| |done|done].
    intros k' Hk'. rewrite He1. by apply with_key_other.
  - intros a b v1 v2 v3 Hab y. subst y.
    destruct (fresh_pushes [(a, v1); (b, v2); (a, v3)] w Hwf)
      as (w3 & o3 & Hex & Hwf3 & Hb3 & Ho3 & He3).
    set (y := length (objs w)) in *.
    assert (Hwk : with_key a (entries (contents w3 y)) = [(a, v1); (a, v3)]).
    { rewrite He3. unfold with_key.
      rewrite filter_cons_True, filter_cons_False, filter_cons_True by (cbn; congruence).
      done. }
    assert (Hwo : without_key a (entries (contents w3 y)) = [(b, v2)]).
    { rewrite He3. unfold without_key.
      rewrite filter_cons_False, filter_cons_True, filter_cons_False
        by (cbn; congruence || (intros ?; congruence)).
      done. }
    destruct (Htwice w3 y o3 a Hwf3 Ho3 Hb3 ltac:(by rewrite Hwk))
      as (w4 & w5 & Hmv1 & He1 & Hmv2 & He2).
    exists w3, w4, w5. rewrite Hwk, Hwo in He1.
    split_and!; [done|done|done|done|]. by rewrite He2.
Qed.



Lemma with_key_nil_iff k (es : list (K * V)) :
  with_key k es = [] ↔ es = [] ∨ ¬ ∃ v, (k, v) ∈ es.
Proof.
  split.
  - intros Hnil. right. intros [v Hv].
    assert (Hin : (k, v) ∈ with_key k es) by (by apply list_elem_of_filter).
    rewrite Hnil in Hin. by apply elem_of_nil in Hin.
  - intros [->|Hno]; [done|]. apply filter_none_or. intros [k' v] Hin Hk.
    cbn in Hk. subst k'. apply Hno. by exists v.
Qed.

Lemma error_law_intro {A} w (res : outcome A) e cond :
  e ≠ bad_alloc →
  match res with
  | Ret _ _ => ¬ cond
  | Throw e' w' =>
      unchanged w w' ∧ ((e' = e ∧ cond) ∨ (e' = bad_alloc ∧ alloc_budget w ≠ None))
  | Undefined => False
  end →
  error_law w res e cond.
Proof.
  intros He Hres. unfold error_law.
  destruct res as [r w'|e' w'|]; [| |done]; cbn [raises returns intact].
  - naive_solver.
  - destruct Hres as [Hun [[-> Hc]|[-> Hb]]]; naive_solver.
Qed.

Lemma error_law_iff {A} w (res : outcome A) e cond cond' :
  (cond ↔ cond') → error_law w res e cond → error_law w res e cond'.
Proof.
  intros Hiff (H1 & H2 & H3 & H4 & H5). unfold error_law.
  split_and!; [| | | |done].
  - intros Hr. by apply Hiff, H1.
  - intros Hr Hc. by apply (H2 Hr), Hiff.
  - intros Hc. by apply H3, Hiff.
  - intros Hb. destruct (H4 Hb) as [H4a H4b]. split.
    + intros Hc. by apply H4a, Hiff.
    + intros Hc. apply H4b. intros Hc'. by apply Hc, Hiff.
Qed.

Lemma error_of_not_bad_alloc acc : error_of (K:=K) acc ≠ bad_alloc.
Proof. by destruct acc. Qed.

(** The error law of the accessors, const and not; a const accessor
    whose entry is there returns whatever the allocator does. *)
Lemma accessor_errors acc w x o :
  wf_world w → objs w !! x = Some (Some o) →
  let es := entries (contents w x) in
  error_law w (call_const x acc w) (error_of acc) (select acc es = None) ∧
  error_law w (call x acc w) (error_of acc) (select acc es = None) ∧
  (select acc es ≠ None → returns (call_const x acc w)).
Proof.
  intros Hwf Ho es.
  pose proof (call_const_spec x acc w o Hwf Ho) as Hc.
  pose proof (call_spec x acc w o Hwf Ho) as Hm. fold es in Hc, Hm.
  pose proof (error_of_not_bad_alloc acc) as Hne.
  split_and!.
  - apply error_law_intro; [done|].
    destruct (select acc es) as [e|] eqn:Hsel.
    + destruct Hc as (r & -> & _). done.
    + rewrite Hc. pose proof (raise_spec (A:=entry_ref) (error_of acc) w Hwf) as Hr.
      destruct (raise (error_of acc) w) as [|e' w'|]; [done| |done].
      destruct Hr as (Hun & _ & _ & [[-> Hb]|[-> Hb]]); (split; [done|]);
        [by left|right]. split; [done|]. by rewrite Hb.
  - apply error_law_intro; [done|].
    destruct (call x acc w) as [r w'|e' w'|]; [| |done].
    + destruct Hm as (_ & _ & e & He & _). by rewrite He.
    + destruct Hm as [Hun [[-> Hsel]|[-> Hb]]]; (split; [done|]); [by left|by right].
  - intros Hsel. destruct (select acc es) as [e|]; [|done].
    by destruct Hc as (r & -> & _).
Qed.

(** C7.  The errors of a live object with queue [es], with the
    allocator in any state.  [pop()] and the accessors [front()],
    [back()] (const or not) throw "Empty queue" only when [es] is empty
    and return only when it is not; [pop(k)], [move_to_back(k)] and the
    accessors [first(k)], [last(k)] (const or not) throw "Key not
    found" only when [es] is empty or has no entry with key [k], and
    return only when it has one.  With an allocator that does not fail
    the error is thrown exactly then, and otherwise the call returns.
    With an allocator that can fail, [bad_alloc] may be thrown in the
    place of the error (the message of the exception takes memory, and
    so does the copy of shared storage that the non-const calls make
    before they look the key up).  A const accessor whose entry is
    there returns whatever the allocator does.  A call that throws
    leaves every object as it was. *)
Theorem C7_error_conditions (prog : list stmt) w x o (b : option nat) :
  exec prog init = Some w → objs w !! x = Some (Some o) →
  let es := entries (contents w x) in
  let wb := set_budget b w in
  error_law wb (pop x wb) EmptyCollection (es = []) ∧
  (∀ acc, acc = AFront ∨ acc = ABack →
     error_law wb (call_const x acc wb) EmptyCollection (es = []) ∧
     error_law wb (call x acc wb) EmptyCollection (es = []) ∧
     (es ≠ [] → returns (call_const x acc wb))) ∧
  (∀ k, let absent := es = [] ∨ ¬ ∃ v, (k, v) ∈ es in
     (∀ acc, acc = AFirst k ∨ acc = ALast k →
        error_law wb (call_const x acc wb) KeyNotFound absent ∧
        error_law wb (call x acc wb) KeyNotFound absent ∧
        (¬ absent → returns (call_const x acc wb))) ∧
     (∀ f, f = pop_key x k ∨ f = move_to_back x k →
        error_law wb (f wb) KeyNotFound absent)).
Proof.
  intros Hexec Ho es wb. pose proof (reachable_wf _ _ Hexec) as Hwf0.
  pose proof (wf_set_budget b _ Hwf0) as Hwf. fold wb in Hwf.
  assert (Ho' : objs wb !! x = Some (Some o)) by done.
  assert (Hes : entries (contents wb x) = es) by done.
  clearbody wb es. clear Hexec Hwf0 Ho.
  split; [|split].
  - apply error_law_intro; [done|].
    pose proof (pop_spec x wb o Hwf Ho') as H. rewrite Hes in H.
    destruct (pop x wb) as [[] w'|e w'|]; [| |done].
    + by destruct H as (_ & _ & Hne).
    + destruct H as (Hun & _ & [(-> & Hnil & _)|(-> & Hb)]); (split; [done|]);
        [by left|right]. split; [done|]. by rewrite Hb.
  - intros acc Hacc.
    destruct (accessor_errors acc wb x o Hwf Ho') as (Hc & Hm & Hr). rewrite Hes in *.
    assert (Herr : error_of acc = EmptyCollection) by (by destruct Hacc as [-> | ->]).
    rewrite Herr in *. pose proof (select_front_back acc es Hacc) as Hsel.
    split_and!; [by eapply error_law_iff|by eapply error_law_iff|].
    intros Hne. apply Hr. by rewrite Hsel.
  - intros k absent.
    assert (Habs : with_key k es = [] ↔ absent) by apply with_key_nil_iff.
    clearbody absent. split.
    + intros acc Hacc.
      destruct (accessor_errors acc wb x o Hwf Ho') as (Hc & Hm & Hr). rewrite Hes in *.
      assert (Herr : error_of acc = KeyNotFound) by (by destruct Hacc as [-> | ->]).
      rewrite Herr in *. pose proof (select_key_none acc k es Hacc) as Hsel.
      assert (Hiff : select acc es = None ↔ absent) by (by rewrite Hsel).
      split_and!; [by eapply error_law_iff|by eapply error_law_iff|].
      intros Hne. apply Hr. by rewrite Hiff.
    + intros f Hf. apply (error_law_iff _ _ _ _ _ Habs).
      apply error_law_intro; [done|]. destruct Hf as [-> | ->].
      * pose proof (pop_key_spec x k wb o Hwf Ho') as H. rewrite Hes in H.
        destruct (pop_key x k wb) as [[] w'|e w'|]; [| |done]; [|done].
        by destruct H as (_ & _ & Hne).
      * pose proof (move_to_back_spec x k wb o Hwf Ho') as H. rewrite Hes in H.
        destruct (move_to_back x k wb) as [[] w'|e w'|]; [| |done]; [|done].
        by destruct H as (_ & _ & Hne).
Qed.

Lemma shared_count h os g b this a o j oj :
  os !! this = Some (Some o) → dataPtr o = Some a →
  j ≠ this → os !! j = Some (Some oj) → dataPtr oj = Some a →
  guarded_data g = Some a →
  (2 <? use_count_at a (World h os [g] b)) = true.
Proof.
  intros Ho Hp Hj Hoj Hpj Hg. apply Nat.ltb_lt. unfold use_count_at.
  cbn [objs guards List.filter]. rewrite Hg. cbn [points_to]. rewrite Nat.eqb_refl. cbn.
  pose proof (filter_two (λ o, points_to a (obj_ptr o)) os j this _ _ Hj Hoj Ho) as H2.
  cbn in H2. rewrite Hp, Hpj in H2. cbn in H2. rewrite Nat.eqb_refl in H2.
  specialize (H2 eq_refl eq_refl). lia.
Qed.

(** The copy of shared storage is attempted, and its failure leaves the
    world as it was. *)
Lemma shared_clone_fails {A} mark this (rest : M A) w o a j oj :
  wf_world w → objs w !! this = Some (Some o) → dataPtr o = Some a →
  j ≠ this → objs w !! j = Some (Some oj) → dataPtr oj = Some a →
  alloc_budget w = Some 0 →
  with_guard this (do _ <- aboutToModify this mark; rest) w = Throw bad_alloc w.
Proof.
  intros Hwf Ho Hp Hj Hoj Hpj Hb.
  destruct (cell_of _ _ _ _ Hwf Ho Hp) as (c & Hc & _ & _).
  assert (Hu : unshareable o = false).
  { destruct (unshareable o) eqn:Hu; [|done].
    destruct (wf_pinned _ Hwf this j o oj a (not_eq_sym Hj) Ho Hoj Hu Hp Hpj). }
  destruct w as [h os gs b], o as [u p]. cbn in Ho, Hp, Hc, Hoj, Hb, Hu. subst p u b.
  pose proof (wf_guards _ Hwf) as Hg. cbn in Hg. subst gs.
  unfold with_guard, bind at 1. rewrite (run_guard_ctor _ _ _ _ _ _ Ho).
  cbn [dataPtr unshareable]. unfold bind at 1.
  rewrite (run_aboutToModify _ _ _ _ _ _ _ _ _ Ho Hc).
  rewrite (shared_count h os (Guard this (Some a) false true) (Some 0) this a _ j oj
             Ho eq_refl Hj Hoj Hpj eq_refl).
  cbn [andb negb]. rewrite leave_scope_throw by done.
  cbn [guarded guarded_data guarded_unshareable]. by rewrite list_insert_id.
Qed.

(** C4.  A member function that ends by an exception leaves every
    object as it was before the call: the same storage, hence the same
    [size()], the same [count(k)] for every key, the same queue order
    and the same key order (and the invariants still hold).  A failing
    allocation is not swallowed: [push] throws [bad_alloc] when the
    allocator fails at its first or second request (the second is the
    update of the key index after the queue append, or the append
    itself), and when the storage is shared and the copy fails, [push]
    and [clear] throw [bad_alloc]. *)
Theorem C4_failure_atomic (prog : list stmt) w :
  exec prog init = Some w →
  (∀ y s b e w',
     mutates y s → run_op s (set_budget b w) = Throw e w' →
     wf_world w' ∧
     ∀ x, (live w' x ↔ live w x) ∧
          contents w' x = contents w x ∧
          ∀ ox, objs w !! x = Some (Some ox) →
                ∃ n, size x w = Ret n w ∧ size x w' = Ret n w' ∧
                     ∀ k, ∃ cnt, count x k w = Ret cnt w ∧ count x k w' = Ret cnt w') ∧
  (∀ y oy k v n,
     objs w !! y = Some (Some oy) → n ≤ 1 →
     raises (push y k v (set_budget (Some n) w)) bad_alloc) ∧
  (∀ y oy j oj a k v,
     objs w !! y = Some (Some oy) → j ≠ y → objs w !! j = Some (Some oj) →
     dataPtr oy = Some a → dataPtr oj = Some a →
     push y k v (set_budget (Some 0) w) = Throw bad_alloc (set_budget (Some 0) w) ∧
     clear y (set_budget (Some 0) w) = Throw bad_alloc (set_budget (Some 0) w)).
Proof.
  intros Hexec. pose proof (reachable_wf _ _ Hexec) as Hwf. split_and!.
  - intros y s b e w' Hm Hrun.
    destruct (objs w !! y) as [[oy|]|] eqn:Hy.
    2,3: rewrite (member_dead s y (set_budget b w) Hm) in Hrun; [done|cbn; congruence].
    pose proof (member_spec s y (set_budget b w) oy (wf_set_budget _ _ Hwf) Hy Hm) as H.
    rewrite Hrun in H. destruct H as [Hwf' Hlen Hlive Hcont]. split; [done|].
    intros x. split_and!; [apply Hlive|apply Hcont|].
    intros ox Hx. assert (Hx' : live w' x) by (apply Hlive; by exists ox).
    destruct Hx' as [ox' Hx'].
    exists (length (entries (contents w x))). split_and!.
    + by apply (run_size w x ox).
    + rewrite (run_size w' x ox' Hwf' Hx'). by rewrite Hcont.
    + intros k. exists (length (with_key k (entries (contents w x)))). split.
      * by apply (run_count w x ox).
      * rewrite (run_count w' x ox' k Hwf' Hx'). by rewrite Hcont.
  - intros y oy k v n Hy Hn.
    pose proof (push_spec y k v (set_budget (Some n) w) oy (wf_set_budget _ _ Hwf) Hy) as H.
    destruct (push y k v _) as [[] w'|e w'|]; [|by destruct H|done].
    destruct H as (_ & _ & H2). specialize (H2 n eq_refl). lia.
  - intros y oy j oj a k v Hy Hj Hoj Hp Hpj.
    pose proof (wf_set_budget (Some 0) _ Hwf) as Hwf0. split.
    + unfold push, bind at 1. unfold get_obj at 1. cbn [objs set_budget]. rewrite Hy, Hp.
      unfold bind at 1, ret.
      by apply (shared_clone_fails false y _ (set_budget (Some 0) w) oy a j oj).
    + unfold clear, bind at 1. unfold get_obj at 1. cbn [objs set_budget]. rewrite Hy, Hp.
      by apply (shared_clone_fails false y _ (set_budget (Some 0) w) oy a j oj).
Qed.

Lemma muts_frame y muts w w' :
  wf_world w → Forall (λ s : stmt, mutates y s.2) muts → exec muts w = Some w' →
  wf_world w' ∧ (∀ x, x ≠ y → contents w' x = contents w x) ∧
  (∀ x, live w' x ↔ live w x).
Proof.
  intros Hwf Hall. revert w Hwf. induction Hall as [|s muts Hs Hall IH]; intros w Hwf.
  - cbn. by intros [= <-].
  - cbn [exec]. unfold step.
    destruct (objs w !! y) as [[oy|]|] eqn:Hy.
    2,3: rewrite (member_dead s.2 y (set_budget s.1 w) Hs); [done|cbn; congruence].
    pose proof (member_spec s.2 y (set_budget s.1 w) oy (wf_set_budget _ _ Hwf) Hy Hs) as H.
    destruct (run_op _ _) as [[] w1|e w1|]; [| |done].
    + destruct H as (Hwf1 & Hfr1 & Hl1). intros Hex.
      destruct (IH w1 Hwf1 Hex) as (Hwf' & Hfr' & Hl'). split_and!; [done| |].
      * intros x Hx. rewrite Hfr' by done. by apply Hfr1.
      * intros x. rewrite Hl'. apply Hl1.
    + destruct H as [Hwf1 _ Hl1 Hc1]. intros Hex.
      destruct (IH w1 Hwf1 Hex) as (Hwf' & Hfr' & Hl'). split_and!; [done| |].
      * intros x Hx. rewrite Hfr' by done. apply Hc1.
      * intros x. rewrite Hl'. apply Hl1.
Qed.

(** C5.  In a reachable world, statements that mutate an object [y]
    (push, pop, pop(k), move_to_back, clear, a non-const accessor, a
    write through the reference it returns), in any number and with any
    allocator, leave every other object [x] with the same storage:
    the same [size()], [count(k)], entries and order.  This holds in
    particular for an object and its copy, in both directions: a copy
    made by the copy constructor or by assignment holds the entries of
    its source, and making it does not change the source. *)
Theorem C5_copy_independence (prog : list stmt) w :
  exec prog init = Some w →
  (∀ x y muts w',
     x ≠ y → Forall (λ s : stmt, mutates y s.2) muts → exec muts w = Some w' →
     contents w' x = contents w x ∧
     ∀ ox, objs w !! x = Some (Some ox) →
           ∃ n, size x w = Ret n w ∧ size x w' = Ret n w' ∧
                ∀ k, ∃ cnt, count x k w = Ret cnt w ∧ count x k w' = Ret cnt w') ∧
  (∀ x ox,
     objs w !! x = Some (Some ox) → (unshareable ox = true → is_Some (dataPtr ox)) →
     (∃ w1 oy, run_op (DeclareCopy x) (set_budget None w) = Ret tt w1 ∧
               length (objs w) ≠ x ∧
               objs w1 !! length (objs w) = Some (Some oy) ∧
               entries (contents w1 (length (objs w))) = entries (contents w x) ∧
               contents w1 x = contents w x) ∧
     (∀ y oy, objs w !! y = Some (Some oy) →
        ∃ w1, run_op (Assign y x) (set_budget None w) = Ret tt w1 ∧
              entries (contents w1 y) = entries (contents w x) ∧
              (x ≠ y → contents w1 x = contents w x))).
Proof.
  intros Hexec. pose proof (reachable_wf _ _ Hexec) as Hwf. split.
  - intros x y muts w' Hxy Hall Hex.
    destruct (muts_frame y muts w w' Hwf Hall Hex) as (Hwf' & Hfr & Hlive).
    split; [by apply Hfr|]. intros ox Hx.
    assert (Hx' : live w' x) by (apply Hlive; by exists ox). destruct Hx' as [ox' Hx'].
    exists (length (entries (contents w x))). split_and!.
    + by apply (run_size w x ox).
    + rewrite (run_size w' x ox' Hwf' Hx'). by rewrite Hfr.
    + intros k. exists (length (with_key k (entries (contents w x)))). split.
      * by apply (run_count w x ox).
      * rewrite (run_count w' x ox' k Hwf' Hx'). by rewrite Hfr.
  - intros x ox Hx Hstore. pose proof (wf_set_budget None _ Hwf) as Hwf0.
    pose proof (lookup_lt_Some _ _ _ Hx) as Hlt. split.
    + pose proof (declare_copy_spec x (set_budget None w) ox Hwf0 Hx) as H.
      destruct (run_op _ _) as [[] w1|e w1|].
      * destruct H as (Hwf1 & Hfr & He & p & Hos & _). exists w1, (Kvfifo false p).
        cbn [objs set_budget] in *. split_and!; [done|lia| |done|].
        -- rewrite Hos. apply lookup_snoc_eq.
        -- apply Hfr. lia.
      * by destruct H as (_ & _ & ?).
      * destruct H as [Hu Hp]. destruct (Hstore Hu) as [a Ha]. congruence.
    + intros y oy Hy.
      pose proof (assign_spec y x (set_budget None w) oy ox Hwf0 Hy Hx) as H.
      destruct (run_op _ _) as [[] w1|e w1|].
      * destruct H as (Hwf1 & Hfr & He & _). exists w1. split_and!; [done|done|].
        intros Hxy. by apply Hfr.
      * by destruct H as (_ & _ & ?).
      * destruct H as [Hu Hp]. destruct (Hstore Hu) as [a Ha]. congruence.
Qed.

(** C6.  The pinning protocol, for objects that have storage.
    In every reachable world no object shares the storage of a pinned
    object (I4).  A non-const accessor that returns leaves its object
    pinned, with storage that no other object holds.  Copying a pinned
    object that has storage, by the copy constructor or by assignment,
    makes a new cell with a copy of the entries at once, and the copy is
    not pinned.  A write through the reference that a non-const
    accessor of [x] returns reaches the entry of [x] and leaves every
    other object - a copy made before included - as it was.  A
    structural mutation that returns leaves its object not pinned; for
    [clear] this needs an object that has storage. *)
Theorem C6_pinning_protocol (prog : list stmt) w x o :
  exec prog init = Some w → objs w !! x = Some (Some o) →
  pinned_private w ∧
  (∀ acc b r w',
     call x acc (set_budget b w) = Ret r w' →
     ∃ a, objs w' !! x = Some (Some (Kvfifo true (Some a))) ∧
          ∀ j oj, j ≠ x → objs w' !! j = Some (Some oj) → dataPtr oj ≠ Some a) ∧
  (∀ a, unshareable o = true → dataPtr o = Some a →
     ∃ c, heap w !! a = Some c ∧
       (∃ w1, run_op (DeclareCopy x) (set_budget None w) = Ret tt w1 ∧
              objs w1 = objs w ++ [Some (Kvfifo false (Some (length (heap w))))] ∧
              heap w1 = heap w ++ [container_copy c] ∧
              entries (contents w1 (length (objs w))) = entries (contents w x)) ∧
       (∀ y oy, objs w !! y = Some (Some oy) →
          ∃ w1, run_op (Assign y x) (set_budget None w) = Ret tt w1 ∧
                objs w1 = <[y := Some (Kvfifo false (Some (length (heap w))))]> (objs w) ∧
                heap w1 = heap w ++ [container_copy c] ∧
                entries (contents w1 y) = entries (contents w x))) ∧
  (∀ acc v b w',
     run_op (Write x acc v) (set_budget b w) = Ret tt w' →
     (∃ k v0, select acc (entries (contents w x)) = Some (k, v0) ∧
              (k, v) ∈ entries (contents w' x)) ∧
     ∀ y, y ≠ x → contents w' y = contents w y) ∧
  (∀ s b w',
     structural x s → (s = Clear x → is_Some (dataPtr o)) →
     run_op s (set_budget b w) = Ret tt w' →
     ∃ a, objs w' !! x = Some (Some (Kvfifo false (Some a)))).
Proof.
  intros Hexec Ho. pose proof (reachable_wf _ _ Hexec) as Hwf. split_and!.
  - apply (wf_pinned _ Hwf).
  - intros acc b r w' Hcall.
    pose proof (call_spec x acc (set_budget b w) o (wf_set_budget _ _ Hwf) Ho) as H.
    rewrite Hcall in H. destruct H as ([Hwf' _ [a Ha] _] & _).
    exists a. split; [done|]. intros j oj Hj Hoj Hp.
    by apply (wf_pinned _ Hwf' x j _ oj a (not_eq_sym Hj) Ha Hoj).
  - intros a Hu Hp. pose proof (wf_set_budget None _ Hwf) as Hwf0.
    destruct (cell_of _ _ _ _ Hwf Ho Hp) as (c & Hc & _ & _). exists c. split_and!; [done| |].
    + pose proof (declare_copy_spec x (set_budget None w) o Hwf0 Ho) as H.
      destruct (run_op _ _) as [[] w1|e w1|].
      * destruct H as (_ & _ & He & p & Hos & Hcase). rewrite Hu in Hcase.
        destruct Hcase as (a' & c' & Hp' & Hc' & -> & Hh).
        cbn [heap objs set_budget] in *.
        assert (a' = a) as -> by congruence. assert (c' = c) as -> by congruence.
        by exists w1.
      * by destruct H as (_ & _ & ?).
      * destruct H as [_ Hnull]. congruence.
    + intros y oy Hy.
      pose proof (assign_spec y x (set_budget None w) oy o Hwf0 Hy Ho) as H.
      destruct (run_op _ _) as [[] w1|e w1|].
      * destruct H as (_ & _ & He & p & Hos & Hcase). rewrite Hu in Hcase.
        destruct Hcase as (a' & c' & Hp' & Hc' & -> & Hh).
        cbn [heap objs set_budget] in *.
        assert (a' = a) as -> by congruence. assert (c' = c) as -> by congruence.
        by exists w1.
      * by destruct H as (_ & _ & ?).
      * destruct H as [_ Hnull]. congruence.
  - intros acc v b w' Hrun. cbn [run_op] in Hrun.
    pose proof (write_spec x acc v (set_budget b w) o (wf_set_budget _ _ Hwf) Ho) as H.
    rewrite Hrun in H. destruct H as (Hmod & _ & Hval). split; [done|].
    intros y Hy. by apply (mod_frame _ _ _ _ Hmod).
  - intros s b w' Hs Hclear Hrun. pose proof (wf_set_budget b _ Hwf) as Hwfb.
    destruct s; cbn in Hs; try done; subst; cbn [run_op] in Hrun.
    + pose proof (push_spec x k v _ o Hwfb Ho) as H. rewrite Hrun in H.
      destruct H as [Hmod _]. apply Hmod.
    + pose proof (pop_spec x _ o Hwfb Ho) as H. rewrite Hrun in H.
      destruct H as [Hmod _]. apply Hmod.
    + pose proof (pop_key_spec x k _ o Hwfb Ho) as H. rewrite Hrun in H.
      destruct H as [Hmod _]. apply Hmod.
    + pose proof (move_to_back_spec x k _ o Hwfb Ho) as H. rewrite Hrun in H.
      destruct H as [Hmod _]. apply Hmod.
    + pose proof (clear_spec x _ o Hwfb Ho) as H. rewrite Hrun in H.
      destruct H as (_ & _ & _ & _ & Hmod). apply Hmod. by apply Hclear.
Qed.

(** * Further properties of the member functions *)

Lemma contents_empty_keys c :
  wf_container c → entries c = [] → keys c = [].
Proof.
  intros Hwf Hes. destruct (keys c) as [|k ks] eqn:Hk; [done|].
  assert (Hin : k ∈ keys c) by (rewrite Hk; left).
  apply (wf_keys_elem k c Hwf) in Hin as [v Hv]. rewrite Hes in Hv.
  by apply elem_of_nil in Hv.
Qed.

(** What the queries show of an object with no entries. *)
Lemma empty_object w x o :
  wf_world w → objs w !! x = Some (Some o) → entries (contents w x) = [] →
  size x w = Ret 0 w ∧ empty x w = Ret true w ∧ (∀ k, count x k w = Ret 0 w) ∧
  peek x AFront w = raise EmptyCollection w ∧ peek x ABack w = raise EmptyCollection w ∧
  keys (contents w x) = [].
Proof.
  intros Hwf Ho Hes. split_and!.
  - by rewrite (run_size w x o Hwf Ho), Hes.
  - rewrite (run_empty w x o Hwf Ho). apply pair_list_nil in Hes. by rewrite Hes.
  - intros k. by rewrite (run_count w x o k Hwf Ho), Hes.
  - by rewrite (peek_eq x AFront w o Hwf Ho), Hes.
  - by rewrite (peek_eq x ABack w o Hwf Ho), Hes.
  - by apply contents_empty_keys; [apply contents_wf|].
Qed.

Lemma run_declare_new h os gs b :
  run_op (K:=K) (V:=V) DeclareNew (World h os gs b) =
    match b with
    | Some 0 => Throw bad_alloc (World h os gs b)
    | _ => Ret tt (World (h ++ [empty_container])
                     (os ++ [Some (Kvfifo false (Some (length h)))]) gs (pred <$> b))
    end.
Proof.
  cbn [run_op]. unfold bind at 1. rewrite run_declare. unfold default_ctor, bind at 1.
  rewrite run_make_shared. by destruct b as [[|n]|].
Qed.

(** [kvfifo()]: the declaration [kvfifo y;] throws [bad_alloc] and
    changes nothing when the allocator fails; otherwise it returns, and
    the new object is empty: [size()] is 0, [empty()] is true,
    [count(k)] is 0 for every key, [front()] and [back()] do what
    [throw std::invalid_argument("Empty queue")] does, there is no key
    to iterate over, and the objects that were there are as before. *)
Theorem default_ctor_empty (prog : list stmt) w b :
  exec prog init = Some w →
  let y := length (objs w) in
  (b = Some 0 → run_op DeclareNew (set_budget b w) = Throw bad_alloc (set_budget b w)) ∧
  (b ≠ Some 0 →
   ∃ w', run_op DeclareNew (set_budget b w) = Ret tt w' ∧
         live w' y ∧ size y w' = Ret 0 w' ∧ empty y w' = Ret true w' ∧
         (∀ k, count y k w' = Ret 0 w') ∧
         peek y AFront w' = raise EmptyCollection w' ∧
         peek y ABack w' = raise EmptyCollection w' ∧
         keys (contents w' y) = [] ∧
         ∀ x, x ≠ y → contents w' x = contents w x ∧ (live w' x ↔ live w x)).
Proof.
  intros Hexec y. pose proof (reachable_wf _ _ Hexec) as Hwf.
  pose proof (declare_default_spec _ (wf_set_budget b _ Hwf)) as Hspec.
  split.
  - intros ->. destruct w as [h os gs b0]. unfold set_budget. run.
    by rewrite run_declare_new.
  - intros Hb. destruct (run_op DeclareNew (set_budget b w)) as [[] w'|e w'|] eqn:Hrun;
      [|destruct Hspec as (_ & _ & Hb'); by destruct Hb|done].
    destruct Hspec as (Hwf' & Hos & Hheap & Hcont & _). cbn [set_budget objs heap] in *.
    exists w'. split; [done|].
    assert (Hy : objs w' !! y = Some (Some (Kvfifo false (Some (length (heap w))))))
      by (rewrite Hos; apply lookup_snoc_eq).
    assert (Hes : entries (contents w' y) = []).
    { unfold contents. rewrite Hy. cbn [dataPtr]. by rewrite Hheap, lookup_snoc_eq. }
    destruct (empty_object w' y _ Hwf' Hy Hes) as (? & ? & ? & ? & ? & ?).
    split_and!; try done; [by eexists|].
    intros x Hx. split; [by apply Hcont|]. unfold live. rewrite Hos.
    by rewrite lookup_snoc_ne.
Qed.

Lemma sum_list_with_ext {A} (f g : A → nat) (xs : list A) :
  (∀ x, f x = g x) → sum_list_with f xs = sum_list_with g xs.
Proof. intros Hfg. induction xs as [|x xs IH]; cbn; [done|]. by rewrite Hfg, IH. Qed.

Lemma sum_indicator_notin (k0 : K) (ks : list K) :
  k0 ∉ ks → sum_list_with (λ k, if decide (k0 = k) then 1 else 0) ks = 0.
Proof.
  induction ks as [|k ks IH]; cbn; [done|]. intros Hin.
  apply not_elem_of_cons in Hin as [Hne Hin]. case_decide; [done|]. by rewrite IH.
Qed.

Lemma sum_indicator (k0 : K) (ks : list K) :
  NoDup ks → k0 ∈ ks → sum_list_with (λ k, if decide (k0 = k) then 1 else 0) ks = 1.
Proof.
  induction 1 as [|k ks Hnotin Hnd IH]; intros Hin; [by apply elem_of_nil in Hin|].
  cbn. case_decide as Hk.
  - subst k. by rewrite sum_indicator_notin.
  - apply elem_of_cons in Hin as [?|Hin]; [done|]. by rewrite IH.
Qed.

Lemma sum_with_key_cons (e : K * V) es (ks : list K) :
  sum_list_with (λ k, length (with_key k (e :: es))) ks =
    sum_list_with (λ k, if decide (e.1 = k) then 1 else 0) ks
    + sum_list_with (λ k, length (with_key k es)) ks.
Proof.
  induction ks as [|k ks IH]; cbn [sum_list_with]; [done|]. rewrite IH.
  unfold with_key at 1. rewrite filter_cons. case_decide; cbn [length]; unfold with_key; lia.
Qed.

Lemma length_sum_with_key (es : list (K * V)) (ks : list K) :
  NoDup ks → (∀ e, e ∈ es → e.1 ∈ ks) →
  length es = sum_list_with (λ k, length (with_key k es)) ks.
Proof.
  intros Hnd. induction es as [|e es IH]; intros Hin.
  - cbn. clear. induction ks as [|k ks IH]; cbn; [done|]. by rewrite <-IH.
  - rewrite sum_with_key_cons, sum_indicator; [|done|apply Hin; left].
    cbn. rewrite <-IH; [done|]. intros e' He'. apply Hin. by right.
Qed.

(** [size()] and [empty()]: they agree ([empty()] is true exactly when
    [size()] is 0), [size()] is the number of entries of the queue and
    the sum of [count(k)] over the keys that the key iterator yields;
    an object that was moved from (null pointer) has size 0. *)
Theorem size_is_sum_of_counts (prog : list stmt) w x o :
  exec prog init = Some w → objs w !! x = Some (Some o) →
  ∃ n, size x w = Ret n w ∧
       empty x w = Ret (Nat.eqb n 0) w ∧
       n = length (entries (contents w x)) ∧
       n = sum_list_with (count_of w x) (keys (contents w x)) ∧
       (dataPtr o = None → n = 0).
Proof.
  intros Hexec Ho. pose proof (reachable_wf _ _ Hexec) as Hwf.
  pose proof (contents_wf w x Hwf) as Hc.
  exists (length (entries (contents w x))). split_and!.
  - apply (run_size w x o Hwf Ho).
  - rewrite (run_empty w x o Hwf Ho). unfold entries.
    by destruct (pair_list (contents w x)).
  - done.
  - rewrite (sum_list_with_ext (count_of w x)
               (λ k, length (with_key k (entries (contents w x))))).
    + apply length_sum_with_key; [apply sorted_NoDup, (wf_sorted _ Hc)|].
      intros [k v] He. apply (wf_keys_elem k _ Hc). by exists v.
    + intros k. unfold count_of. by rewrite (run_count w x o k Hwf Ho).
  - intros Hp. by rewrite (contents_null w x o Ho Hp).
Qed.

Lemma with_key_snoc_same k v (es : list (K * V)) :
  with_key k (es ++ [(k, v)]) = with_key k es ++ [(k, v)].
Proof. rewrite with_key_app. unfold with_key at 2. by rewrite filter_cons_True. Qed.

Lemma with_key_snoc_other k k' v (es : list (K * V)) :
  k' ≠ k → with_key k' (es ++ [(k, v)]) = with_key k' es.
Proof.
  intros Hk. rewrite with_key_app. unfold with_key at 2.
  rewrite filter_cons_False by (cbn; congruence). apply app_nil_r.
Qed.

(** [push(k, v)]: with an allocator that does not fail it returns, on
    every live object (one that was moved from gets new storage).  When
    it returns, the pair is the last entry of the queue: [back()] and
    [last(k)] show it, [front()] shows what it showed (or the new pair,
    on an empty queue), [size()] and [count(k)] are one more, the count
    of every other key and every other object are as before. *)
Theorem push_appends (prog : list stmt) w x o b k v :
  exec prog init = Some w → objs w !! x = Some (Some o) →
  let es := entries (contents w x) in
  (b = None → returns (run_op (Push x k v) (set_budget b w))) ∧
  (∀ w', run_op (Push x k v) (set_budget b w) = Ret tt w' →
     entries (contents w' x) = es ++ [(k, v)] ∧
     size x w' = Ret (S (length es)) w' ∧
     count x k w' = Ret (S (length (with_key k es))) w' ∧
     (∀ k', k' ≠ k → count x k' w' = Ret (length (with_key k' es)) w') ∧
     peek x ABack w' = Ret (k, v) w' ∧
     peek x (ALast k) w' = Ret (k, v) w' ∧
     peek x AFront w' = Ret (default (k, v) (head es)) w' ∧
     ∀ j, j ≠ x → contents w' j = contents w j).
Proof.
  intros Hexec Ho es. pose proof (reachable_wf _ _ Hexec) as Hwf.
  pose proof (push_spec x k v _ o (wf_set_budget b _ Hwf) Ho) as Hspec.
  cbn [run_op]. split.
  - intros ->. destruct (push x k v _) as [[] w'|e w'|]; [done| |done].
    by destruct Hspec as (_ & Hb & _).
  - intros w' Hrun. rewrite Hrun in Hspec. destruct Hspec as (Hmod & Hes & _).
    change (entries (contents (set_budget b w) x)) with es in Hes.
    pose proof (mod_wf _ _ _ _ Hmod) as Hwf'.
    destruct (mod_obj _ _ _ _ Hmod) as [a' Ho'].
    destruct (modified_frame x false (set_budget b w) w' o Ho Hmod) as [Hframe _].
    split_and!.
    + done.
    + rewrite (run_size w' x _ Hwf' Ho'), Hes, length_app. cbn. f_equal. lia.
    + rewrite (run_count w' x _ k Hwf' Ho'), Hes, with_key_snoc_same, length_app.
      cbn. f_equal. lia.
    + intros k' Hk'. by rewrite (run_count w' x _ k' Hwf' Ho'), Hes, with_key_snoc_other.
    + rewrite (peek_eq x ABack w' _ Hwf' Ho'), Hes. cbn [select]. by rewrite last_snoc.
    + rewrite (peek_eq x (ALast k) w' _ Hwf' Ho'), Hes. cbn [select].
      by rewrite with_key_snoc_same, last_snoc.
    + rewrite (peek_eq x AFront w' _ Hwf' Ho'), Hes. cbn [select]. by destruct es.
    + intros j Hj. by rewrite (Hframe j Hj).
Qed.

(** [pop()]: when it returns, the queue was not empty and has lost
    exactly its front entry, the one that [front()] showed: [size()] is
    one less, the count of the key of that entry is one less, the key is
    still iterated over exactly when another entry holds it, and the
    counts of the other keys and the other objects are as before. *)
Theorem pop_removes_front (prog : list stmt) w x o b w' :
  exec prog init = Some w → objs w !! x = Some (Some o) →
  run_op (Pop x) (set_budget b w) = Ret tt w' →
  ∃ k v es',
    entries (contents w x) = (k, v) :: es' ∧
    peek x AFront w = Ret (k, v) w ∧
    entries (contents w' x) = es' ∧
    size x w' = Ret (length es') w' ∧
    count x k w = Ret (S (length (with_key k es'))) w ∧
    count x k w' = Ret (length (with_key k es')) w' ∧
    (∀ k', k' ≠ k → ∃ n, count x k' w = Ret n w ∧ count x k' w' = Ret n w') ∧
    (k ∈ keys (contents w' x) ↔ ∃ v', (k, v') ∈ es') ∧
    ∀ j, j ≠ x → contents w' j = contents w j.
Proof.
  intros Hexec Ho Hrun. pose proof (reachable_wf _ _ Hexec) as Hwf.
  pose proof (pop_spec x _ o (wf_set_budget b _ Hwf) Ho) as Hspec.
  cbn [run_op] in Hrun. rewrite Hrun in Hspec. destruct Hspec as (Hmod & Hes & Hne).
  change (entries (contents (set_budget b w) x)) with (entries (contents w x)) in Hes, Hne.
  pose proof (mod_wf _ _ _ _ Hmod) as Hwf'.
  destruct (mod_obj _ _ _ _ Hmod) as [a' Ho'].
  destruct (modified_frame x false (set_budget b w) w' o Ho Hmod) as [Hframe _].
  destruct (entries (contents w x)) as [|[k v] es'] eqn:Hw; [done|]. cbn [tail] in Hes.
  exists k, v, es'. split_and!.
  - done.
  - by rewrite (peek_eq x AFront w o Hwf Ho), Hw.
  - done.
  - by rewrite (run_size w' x _ Hwf' Ho'), Hes.
  - rewrite (run_count w x o k Hwf Ho), Hw. unfold with_key at 1.
    by rewrite filter_cons_True.
  - by rewrite (run_count w' x _ k Hwf' Ho'), Hes.
  - intros k' Hk'. eexists. split.
    + rewrite (run_count w x o k' Hwf Ho), Hw. unfold with_key at 1.
      by rewrite filter_cons_False by (cbn; congruence).
    + by rewrite (run_count w' x _ k' Hwf' Ho'), Hes.
  - rewrite (wf_keys_elem k _ (contents_wf w' x Hwf')). by rewrite Hes.
  - intros j Hj. by rewrite (Hframe j Hj).
Qed.

(** [clear()]: it returns when the allocator does not fail, and at once
    and without any effect on an object that has no storage.  When it
    returns, the object is empty: [size()] is 0, [empty()] is true,
    [count(k)] is 0 for every key, there is no key to iterate over,
    [front()] does what [throw std::invalid_argument("Empty queue")]
    does; the other objects are as before. *)
Theorem clear_empties (prog : list stmt) w x o b :
  exec prog init = Some w → objs w !! x = Some (Some o) →
  (b = None → returns (run_op (Clear x) (set_budget b w))) ∧
  (dataPtr o = None → run_op (Clear x) (set_budget b w) = Ret tt (set_budget b w)) ∧
  (∀ w', run_op (Clear x) (set_budget b w) = Ret tt w' →
     entries (contents w' x) = [] ∧
     size x w' = Ret 0 w' ∧ empty x w' = Ret true w' ∧
     (∀ k, count x k w' = Ret 0 w') ∧
     peek x AFront w' = raise EmptyCollection w' ∧
     keys (contents w' x) = [] ∧
     ∀ j, j ≠ x → contents w' j = contents w j).
Proof.
  intros Hexec Ho. pose proof (reachable_wf _ _ Hexec) as Hwf.
  pose proof (clear_spec x _ o (wf_set_budget b _ Hwf) Ho) as Hspec.
  cbn [run_op]. split_and!.
  - intros ->. destruct (clear x _) as [[] w'|e w'|]; [done| |done].
    by destruct Hspec as (_ & Hb & _).
  - intros Hp. destruct w as [h os gs b0]. cbn in Ho. unfold set_budget. run.
    unfold clear, bind. by rewrite (run_get_obj _ _ _ _ _ _ Ho), Hp.
  - intros w' Hrun. rewrite Hrun in Hspec.
    destruct Hspec as (Hwf' & [Hlen Hframe] & Hes & Hsame & Hmod).
    assert (Ho' : ∃ o', objs w' !! x = Some (Some o')).
    { destruct o as [u [a|]].
      - destruct (mod_obj _ _ _ _ (Hmod ltac:(by eexists))) as [a' Ha']. by eexists.
      - rewrite (Hsame eq_refl). by eexists. }
    destruct Ho' as [o' Ho'].
    destruct (empty_object w' x o' Hwf' Ho' Hes) as (? & ? & ? & ? & ? & ?).
    split_and!; try done. intros j Hj. by destruct (Hframe j Hj).
Qed.

Lemma remove_first_snoc k v (es : list (K * V)) :
  with_key k es = [] → remove_first k (es ++ [(k, v)]) = es.
Proof.
  unfold with_key. induction es as [|e es IH]; intros Hnil; cbn.
  - by case_decide.
  - rewrite filter_cons in Hnil. case_decide; [done|]. by rewrite IH.
Qed.

(** [push] and the two [pop]s together, with an allocator that does
    not fail.  A pair pushed with a key that the queue does not hold is
    taken out again by [pop(k)], and the queue is as it was.  A pair
    pushed on an empty queue is taken out again by [pop()].  On a queue
    that is not empty, [pop()] after [push] takes the old front and
    leaves the new pair last. *)
Theorem push_then_pop (prog : list stmt) w x o k v :
  exec prog init = Some w → objs w !! x = Some (Some o) →
  let es := entries (contents w x) in
  ∃ w1, run_op (Push x k v) (set_budget None w) = Ret tt w1 ∧
    (with_key k es = [] →
     ∃ w2, run_op (PopKey x k) w1 = Ret tt w2 ∧ entries (contents w2 x) = es) ∧
    (∃ w2, run_op (Pop x) w1 = Ret tt w2 ∧
           entries (contents w2 x) = tail (es ++ [(k, v)]) ∧
           (es = [] → entries (contents w2 x) = [])) ∧
    ∀ j, j ≠ x → contents w1 j = contents w j.
Proof.
  intros Hexec Ho es. pose proof (reachable_wf _ _ Hexec) as Hwf.
  destruct (push_ok x k v _ o (wf_set_budget None _ Hwf) Ho eq_refl)
    as (w1 & Hpush & Hmod & Hes).
  change (entries (contents (set_budget None w) x)) with es in Hes.
  pose proof (mod_wf _ _ _ _ Hmod) as Hwf1.
  destruct (mod_obj _ _ _ _ Hmod) as [a1 Ho1].
  pose proof (mod_budget _ _ _ _ Hmod eq_refl) as Hb1.
  destruct (modified_frame x false (set_budget None w) w1 o Ho Hmod) as [Hframe _].
  exists w1. cbn [run_op]. split_and!.
  - done.
  - intros Hnil.
    destruct (pop_key_ok x k w1 _ Hwf1 Ho1 Hb1) as (w2 & Hpop & _ & Hes2).
    { rewrite Hes, with_key_snoc_same. by destruct (with_key k es). }
    exists w2. split; [done|]. by rewrite Hes2, Hes, remove_first_snoc.
  - destruct (es ++ [(k, v)]) as [|e0 es0] eqn:Happ; [by destruct es|].
    destruct (pop_ok x w1 _ e0 es0 Hwf1 Ho1 Hb1) as (w2 & Hpop & _ & Hes2);
      [by rewrite Hes|].
    exists w2. split_and!; [done|done|]. intros Hnil. rewrite Hnil in Happ.
    injection Happ as _ <-. done.
  - intros j Hj. by rewrite (Hframe j Hj).
Qed.

(** ** Construction, assignment and destruction *)

Lemma contents_at h os gs b x u p :
  os !! x = Some (Some (Kvfifo u p)) →
  contents (K:=K) (V:=V) (World h os gs b) x =
    match p with Some a => default empty_container (h !! a) | None => empty_container end.
Proof. intros Hx. unfold contents. cbn [objs heap]. by rewrite Hx. Qed.

Lemma contents_same_objs h os os' gs gs' b b' j :
  os' !! j = os !! j →
  contents (K:=K) (V:=V) (World h os' gs' b') j = contents (World h os gs b) j.
Proof. intros Hj. unfold contents. cbn [objs heap]. by rewrite Hj. Qed.

Lemma run_declare_move h os gs b src o :
  os !! src = Some (Some o) →
  run_op (K:=K) (V:=V) (DeclareMove src) (World h os gs b) =
    Ret tt (World h (<[src := Some (Kvfifo (unshareable o) None)]> os ++ [Some o]) gs b).
Proof.
  intros Ho. cbn [run_op]. unfold bind at 1. rewrite run_declare.
  by rewrite (run_move_ctor _ _ _ _ _ _ Ho).
Qed.

(** [kvfifo(kvfifo &&)]: the declaration [kvfifo y(std::move(x));]
    returns whatever the allocator does, makes no storage cell and asks
    for no memory.  The new object takes over the storage of [x] (and
    its pinned flag); [x] is left without storage: its [size()] is 0
    and [empty()] is true.  The other objects are as before. *)
Theorem move_ctor_transfers (prog : list stmt) w x o b :
  exec prog init = Some w → objs w !! x = Some (Some o) →
  let y := length (objs w) in
  ∃ w', run_op (DeclareMove x) (set_budget b w) = Ret tt w' ∧
        objs w' = <[x := Some (Kvfifo (unshareable o) None)]> (objs w) ++ [Some o] ∧
        heap w' = heap w ∧ alloc_budget w' = b ∧
        contents w' y = contents w x ∧
        contents w' x = empty_container ∧
        size x w' = Ret 0 w' ∧ empty x w' = Ret true w' ∧
        ∀ j, j ≠ x → j ≠ y → contents w' j = contents w j.
Proof.
  intros Hexec Ho y. pose proof (reachable_wf _ _ Hexec) as Hwf.
  pose proof (declare_move_wf x _ (wf_set_budget b _ Hwf)) as Hwf'.
  destruct w as [h os gs b0]. unfold set_budget in *. cbn [heap objs guards] in *.
  rewrite (run_declare_move _ _ _ _ _ _ Ho) in *.
  pose proof (lookup_lt_Some _ _ _ Ho) as Hlt.
  set (os1 := <[x := Some (Kvfifo (unshareable o) None)]> os) in *.
  assert (Hlen : length os1 = length os) by apply length_insert.
  assert (Hx : (os1 ++ [Some o]) !! x = Some (Some (Kvfifo (unshareable o) None))).
  { rewrite lookup_app_l by lia. by apply list_lookup_insert_eq. }
  assert (Hy : (os1 ++ [Some o]) !! y = Some (Some o)).
  { unfold y. rewrite <-Hlen. apply lookup_snoc_eq. }
  assert (Hcx : contents (World h (os1 ++ [Some o]) gs b) x = empty_container)
    by (by rewrite (contents_at _ _ _ _ _ _ _ Hx)).
  eexists. split; [done|]. cbn [heap objs alloc_budget]. split_and!; try done.
  - unfold contents. cbn [objs heap]. by rewrite Hy, Ho.
  - by rewrite (run_size _ x _ Hwf' Hx), Hcx.
  - by rewrite (run_empty _ x _ Hwf' Hx), Hcx.
  - intros j Hjx Hjy. apply contents_same_objs.
    rewrite lookup_snoc_ne by (rewrite Hlen; done). by apply list_lookup_insert_ne.
Qed.

Lemma run_move_assign h os gs b dst src o od :
  os !! src = Some (Some o) →
  <[src := Some (Kvfifo (unshareable o) None)]> os !! dst = Some (Some od) →
  run_op (MoveAssign dst src) (World h os gs b) =
    let os1 := <[src := Some (Kvfifo (unshareable o) None)]> os in
    if negb (unshareable o)
    then Ret tt (World h (<[dst := Some (Kvfifo false (dataPtr o))]> os1) gs b)
    else match dataPtr o with
         | None => Undefined
         | Some a =>
             match h !! a with
             | None => Undefined
             | Some c =>
                 match b with
                 | Some 0 => Throw bad_alloc (World h os1 gs b)
                 | _ => Ret tt (World (h ++ [container_copy c])
                                  (<[dst := Some (Kvfifo false (Some (length h)))]> os1)
                                  gs (pred <$> b))
                 end
             end
         end.
Proof.
  intros Ho Hd. cbn [run_op]. unfold move_assign, bind at 1.
  rewrite (run_move_ctor _ _ _ _ _ _ Ho). by rewrite (run_assign _ _ _ _ _ _ _ Hd).
Qed.


(** Assignment of an object to itself, [x = x] and [x = std::move(x)],
    with an allocator that does not fail: it returns, [x] keeps its
    entries in their order and is not pinned afterwards, and the other
    objects are as before.  (Excluded: a pinned [x] without storage.) *)
Theorem self_assignment_keeps (prog : list stmt) w x o s :
  exec prog init = Some w → objs w !! x = Some (Some o) →
  (unshareable o = true → is_Some (dataPtr o)) →
  s = Assign x x ∨ s = MoveAssign x x →
  ∃ w', run_op s (set_budget None w) = Ret tt w' ∧
        entries (contents w' x) = entries (contents w x) ∧
        (∃ p, objs w' !! x = Some (Some (Kvfifo false p))) ∧
        ∀ j, j ≠ x → contents w' j = contents w j.
Proof.
  intros Hexec Ho Hpin Hs. pose proof (reachable_wf _ _ Hexec) as Hwf.
  pose proof (lookup_lt_Some _ _ _ Ho) as Hlt.
  destruct Hs as [-> | ->].
  - pose proof (assign_spec x x _ o o (wf_set_budget None _ Hwf) Ho Ho) as Hspec.
    destruct (run_op (Assign x x) (set_budget None w)) as [[] w'|e w'|].
    + destruct Hspec as (_ & Hframe & Hes & p & Hos & _). exists w'.
      split_and!; [done|done| |done].
      exists p. rewrite Hos. by apply list_lookup_insert_eq.
    + by destruct Hspec as (_ & _ & Hb).
    + destruct Hspec as [Hu Hp]. destruct (Hpin Hu) as [a Ha]. congruence.
  - destruct w as [h os gs b0]. unfold set_budget. cbn [heap objs guards] in *.
    assert (Hd : <[x := Some (Kvfifo (unshareable o) None)]> os !! x
                 = Some (Some (Kvfifo (unshareable o) None)))
      by (by apply list_lookup_insert_eq).
    rewrite (run_move_assign _ _ _ _ _ _ _ _ Ho Hd). cbn zeta.
    rewrite !list_insert_insert_eq.
    assert (Hother : ∀ p j, j ≠ x → <[x := p]> os !! j = os !! j)
      by (intros p j Hj; by apply list_lookup_insert_ne).
    assert (Hx1 : ∀ p, <[x := p]> os !! x = Some p)
      by (intros p; by apply list_lookup_insert_eq).
    destruct (unshareable o) eqn:Hu; cbn [negb].
    + destruct (Hpin eq_refl) as [a Hp]. rewrite Hp.
      destruct (cell_of _ _ _ _ Hwf Ho Hp) as (c & Hc & Hcont & Hwfc). cbn [heap] in Hc.
      rewrite Hc. eexists. split; [done|]. cbn [objs heap]. split_and!.
      * rewrite (contents_at _ _ _ _ _ _ _ (Hx1 _)), lookup_snoc_eq.
        cbn [default from_option]. unfold id.
        by rewrite container_copy_entries, Hcont.
      * rewrite Hx1. by eexists.
      * intros j Hj. unfold contents. cbn [objs heap]. rewrite (Hother _ _ Hj).
        destruct (os !! j) as [[[uj [aj|]]|]|] eqn:Hoj; try done.
        pose proof (wf_ptrs _ Hwf j _ aj Hoj eq_refl) as Hlt'. cbn [heap] in Hlt'.
        cbn [dataPtr]. by rewrite lookup_app_l.
    + eexists. split; [done|]. cbn [objs heap]. split_and!.
      * rewrite (contents_at _ _ _ _ _ _ _ (Hx1 _)). unfold contents. cbn [objs heap].
        by rewrite Ho.
      * rewrite Hx1. by eexists.
      * intros j Hj. apply contents_same_objs. by apply Hother.
Qed.

(** [~kvfifo()]: the end of the lifetime of [x] returns whatever the
    allocator does; [x] is no longer a live object, and every other
    object is as before: the same pointer and flag, the same storage
    (also when it shared its cell with [x]). *)
Theorem destroy_leaves_others (prog : list stmt) w x o b :
  exec prog init = Some w → objs w !! x = Some (Some o) →
  ∃ w', run_op (Destroy x) (set_budget b w) = Ret tt w' ∧
        ¬ live w' x ∧ heap w' = heap w ∧ alloc_budget w' = b ∧
        ∀ j, j ≠ x → objs w' !! j = objs w !! j ∧ contents w' j = contents w j ∧
                     ∀ k, count j k w' = match count j k w with
                                         | Ret n _ => Ret n w'
                                         | Throw e _ => Throw e w'
                                         | Undefined => Undefined
                                         end.
Proof.
  intros Hexec Ho. pose proof (reachable_wf _ _ Hexec) as Hwf.
  pose proof (destroy_wf x _ (wf_set_budget b _ Hwf)) as Hwf'.
  pose proof (lookup_lt_Some _ _ _ Ho) as Hlt.
  destruct w as [h os gs b0]. unfold set_budget in *. cbn [heap objs guards] in *.
  cbn [run_op] in *. unfold destroy, bind in *.
  rewrite (run_get_obj _ _ _ _ _ _ Ho) in *. cbn [heap objs guards alloc_budget] in *.
  eexists. split; [done|]. cbn [heap objs alloc_budget]. split_and!; try done.
  - intros [o' Ho']. cbn [objs] in Ho'. by rewrite list_lookup_insert_eq in Ho'.
  - intros j Hj.
    assert (Hoj : <[x := None]> os !! j = os !! j) by (by apply list_lookup_insert_ne).
    pose proof (contents_same_objs h os _ gs gs b0 b j Hoj) as Hcj.
    split_and!; [done|done|]. intros k.
    destruct (os !! j) as [[oj|]|] eqn:Hj'.
    + rewrite (run_count _ j oj k Hwf' Hoj), (run_count _ j oj k Hwf Hj').
      by rewrite Hcj.
    + unfold count, bind. by rewrite !run_get_obj_dead by (cbn; congruence).
    + unfold count, bind. by rewrite !run_get_obj_dead by (cbn; congruence).
Qed.

Lemma copy_list_ext (acc l l' : list (node * (K * V))) :
  l.*2 = l'.*2 →
  foldl (λ acc it, list_push_back it.2 acc) acc l =
  foldl (λ acc it, list_push_back it.2 acc) acc l'.
Proof.
  revert acc l'. induction l as [|x l IH]; intros acc [|x' l'] Heq; try done.
  cbn in Heq. injection Heq as Hx Hl. cbn [foldl]. rewrite Hx. by apply IH.
Qed.

Lemma container_copy_ext c c' :
  entries c = entries c' → container_copy c = container_copy c'.
Proof.
  unfold entries, container_copy. intros Heq.
  by rewrite (copy_list_ext [] _ _ Heq).
Qed.

(** [container_t(container_t const &)]: for every cell, whatever its
    index holds, the copy has the same entries in the same order and a
    key index that is rebuilt from them, so that it satisfies I1-I3 and
    finds for each key as many nodes as the queue has entries with that
    key.  The copy depends on the entries of the source only; the copy
    of a copy is the copy. *)
Theorem container_copy_rebuilds c :
  wf_container (container_copy c) ∧
  entries (container_copy c) = entries c ∧
  (∀ k, match map_find k (iterator_list_map (container_copy c)) with
        | Some b => length b
        | None => 0
        end = length (with_key k (entries c))) ∧
  (∀ c', entries c = entries c' → container_copy c = container_copy c') ∧
  container_copy (container_copy c) = container_copy c.
Proof.
  split_and!.
  - apply container_copy_wf.
  - apply container_copy_entries.
  - intros k. rewrite (wf_count k _ (container_copy_wf c)).
    by rewrite container_copy_entries.
  - apply container_copy_ext.
  - apply container_copy_ext, container_copy_entries.
Qed.

Lemma run_declare_copy_shared h os gs b src o :
  os !! src = Some (Some o) → unshareable o = false →
  run_op (K:=K) (V:=V) (DeclareCopy src) (World h os gs b) =
    Ret tt (World h (os ++ [Some (Kvfifo false (dataPtr o))]) gs b).
Proof.
  intros Ho Hu. cbn [run_op]. unfold bind at 1. rewrite run_declare.
  by rewrite (run_copy_ctor _ _ _ _ _ _ Ho), Hu.
Qed.

Lemma run_assign_shared h os gs b dst src o od :
  os !! src = Some (Some o) → os !! dst = Some (Some od) → unshareable o = false →
  run_op (K:=K) (V:=V) (Assign dst src) (World h os gs b) =
    Ret tt (World h (<[dst := Some (Kvfifo false (dataPtr o))]> os) gs b).
Proof.
  intros Ho Hd Hu. cbn [run_op]. unfold copy_assign, bind at 1.
  rewrite (run_copy_ctor _ _ _ _ _ _ Ho), Hu. cbn [negb].
  by rewrite (run_assign _ _ _ _ _ _ _ Hd).
Qed.

(** Copying an object that is not pinned, [kvfifo y(x);] or [y = x],
    returns whatever the allocator does: no memory is asked for and no
    storage cell is made; the copy holds the pointer of [x], so both
    show the same storage, and the copy is not pinned. *)
Theorem copy_shares_storage (prog : list stmt) w x o b :
  exec prog init = Some w → objs w !! x = Some (Some o) → unshareable o = false →
  (∃ w', run_op (DeclareCopy x) (set_budget b w) = Ret tt w' ∧
         objs w' = objs w ++ [Some (Kvfifo false (dataPtr o))] ∧
         heap w' = heap w ∧ alloc_budget w' = b ∧
         contents w' (length (objs w)) = contents w x) ∧
  (∀ y oy, objs w !! y = Some (Some oy) →
     ∃ w', run_op (Assign y x) (set_budget b w) = Ret tt w' ∧
           objs w' = <[y := Some (Kvfifo false (dataPtr o))]> (objs w) ∧
           heap w' = heap w ∧ alloc_budget w' = b ∧
           contents w' y = contents w x).
Proof.
  intros Hexec Ho Hu. destruct w as [h os gs b0]. unfold set_budget.
  cbn [heap objs guards] in *. split.
  - rewrite (run_declare_copy_shared _ _ _ _ _ _ Ho Hu). eexists. split; [done|].
    cbn [heap objs alloc_budget]. split_and!; try done.
    rewrite (contents_at _ _ _ _ _ _ _ (lookup_snoc_eq os _)).
    unfold contents. cbn [objs heap]. by rewrite Ho.
  - intros y oy Hy. rewrite (run_assign_shared _ _ _ _ _ _ _ _ Ho Hy Hu).
    eexists. split; [done|]. cbn [heap objs alloc_budget]. split_and!; try done.
    pose proof (lookup_lt_Some _ _ _ Hy) as Hlt.
    rewrite (contents_at _ _ _ _ y _ _ (list_lookup_insert_eq os y _ Hlt)).
    unfold contents. cbn [objs heap]. by rewrite Ho.
Qed.

(** ** Copy on write *)

Lemma list_filter_nil_at {A} (f : A → bool) (xs : list A) :
  (∀ j y, xs !! j = Some y → f y = false) → List.filter f xs = [].
Proof.
  induction xs as [|z xs IH]; intros Hall; cbn; [done|].
  rewrite (Hall 0 z eq_refl). apply IH. intros j y Hj. by apply (Hall (S j) y).
Qed.

Lemma filter_at_most_one {A} (f : A → bool) (xs : list A) i :
  (∀ j y, j ≠ i → xs !! j = Some y → f y = false) → length (List.filter f xs) ≤ 1.
Proof.
  revert i. induction xs as [|z xs IH]; intros i Hall; cbn; [lia|].
  destruct i as [|i].
  - rewrite (list_filter_nil_at f xs); [destruct (f z); cbn; lia|].
    intros j y Hj. by apply (Hall (S j) y).
  - rewrite (Hall 0 z) by done. apply (IH i). intros j y Hj Hy.
    apply (Hall (S j) y); [congruence|done].
Qed.

Lemma private_count h os g b this a :
  (∀ j oj, j ≠ this → os !! j = Some (Some oj) → dataPtr oj ≠ Some a) →
  (2 <? use_count_at a (World h os [g] b)) = false.
Proof.
  intros Hpriv. apply Nat.ltb_ge. unfold use_count_at. cbn [objs guards].
  assert (H1 : length (List.filter (λ o, points_to a (obj_ptr o)) os) ≤ 1).
  { apply (filter_at_most_one _ os this). intros j [oj|] Hj Hoj; [|done]. cbn.
    destruct (points_to a (dataPtr oj)) eqn:E; [|done].
    apply points_to_true in E. by destruct (Hpriv j oj Hj Hoj). }
  assert (H2 : length (List.filter (λ g, points_to a (guarded_data g)) [g]) ≤ 1)
    by (cbn; destruct (points_to _ _); cbn; lia).
  lia.
Qed.

(** A guarded member function, step by step: the guard, the test of
    [aboutToModify] and the copy it may make, then the body. *)
Lemma guarded_run {A} mark this (rest : M A) h os b u a c :
  os !! this = Some (Some (Kvfifo u (Some a))) → h !! a = Some c →
  with_guard this (do _ <- aboutToModify this mark; rest) (World h os [] b) =
    let g := Guard this (Some a) u true in
    if (2 <? use_count_at a (World h os [g] b)) && negb u
    then match b with
         | Some 0 => Throw bad_alloc (World h os [] b)
         | _ => leave_scope (rest (World (h ++ [container_copy c])
                                     (<[this := Some (Kvfifo mark (Some (length h)))]> os)
                                     [g] (pred <$> b)))
         end
    else leave_scope (rest (World h (<[this := Some (Kvfifo mark (Some a))]> os) [g] b)).
Proof.
  intros Ho Hc. unfold with_guard, bind at 1. rewrite (run_guard_ctor _ _ _ _ _ _ Ho).
  cbn [dataPtr unshareable]. unfold bind at 1.
  rewrite (run_aboutToModify _ _ _ _ _ _ _ _ _ Ho Hc). cbn zeta.
  destruct (_ && _); [|done]. destruct b as [[|n]|]; [|done|done].
  rewrite leave_scope_throw by done. cbn [guarded guarded_data guarded_unshareable].
  by rewrite list_insert_id.
Qed.

Lemma run_update_rest this f h os g b u a c :
  os !! this = Some (Some (Kvfifo u (Some a))) → h !! a = Some c → rollback g = true →
  leave_scope ((do _ <- update_data this f; no_rollback) (World h os [g] b)) =
    match f c with
    | Some c' => Ret tt (World (<[a := c']> h) os [] b)
    | None => Undefined
    end.
Proof.
  intros Ho Hc Hg. unfold bind.
  rewrite (run_update_data _ _ _ _ _ _ _ _ _ Ho eq_refl Hc).
  destruct (f c) as [c'|]; [|done]. rewrite run_no_rollback.
  by rewrite leave_scope_ret.
Qed.

Lemma run_find_rest this k f h os g b u a c :
  os !! this = Some (Some (Kvfifo u (Some a))) → h !! a = Some c → rollback g = true →
  leave_scope ((do c <- read_data this;
                match map_find k (iterator_list_map c) with
                | None => raise KeyNotFound
                | Some _ => do _ <- update_data this f; no_rollback
                end) (World h os [g] b)) =
    match map_find k (iterator_list_map c) with
    | None => leave_scope (raise KeyNotFound (World h os [g] b))
    | Some _ =>
        match f c with
        | Some c' => Ret tt (World (<[a := c']> h) os [] b)
        | None => Undefined
        end
    end.
Proof.
  intros Ho Hc Hg. unfold bind at 1.
  rewrite (run_read_data _ _ _ _ _ _ _ _ Ho eq_refl Hc).
  destruct (map_find k (iterator_list_map c)); [|done].
  by apply (run_update_rest this f h os g b u a c).
Qed.

Lemma run_accessor_rest this acc h os g b u a c :
  os !! this = Some (Some (Kvfifo u (Some a))) → h !! a = Some c → rollback g = true →
  leave_scope (accessor_rest this acc (World h os [g] b)) =
    let found := match pick_of acc c with
                 | Some n => Ret (EntryRef a n) (World h os [] b)
                 | None => Undefined
                 end in
    let missing := leave_scope (raise KeyNotFound (World h os [g] b)) in
    match acc with
    | AFront | ABack => found
    | AFirst key | ALast key =>
        match map_find key (iterator_list_map c) with
        | None => missing
        | Some _ => found
        end
    end.
Proof.
  intros Ho Hc Hg.
  assert (Hfound : ∀ pick,
    leave_scope ((do _ <- no_rollback; return_ref this pick) (World h os [g] b)) =
      match pick c with
      | Some n => Ret (EntryRef a n) (World h os [] b)
      | None => Undefined
      end).
  { intros pick. unfold bind. rewrite run_no_rollback.
    rewrite (run_return_ref _ _ _ _ _ _ _ _ _ Ho eq_refl Hc).
    destruct (pick c); [|done]. by rewrite leave_scope_ret. }
  destruct acc as [| |key|key]; cbn [accessor_rest pick_of]; cbn zeta.
  1,2: apply Hfound.
  all: unfold bind at 1; rewrite (run_read_data _ _ _ _ _ _ _ _ Ho eq_refl Hc);
    destruct (map_find key (iterator_list_map c)); [apply Hfound|done].
Qed.

(** The exception of a [throw std::invalid_argument(...)] inside a
    guarded call: the guard puts the pointer and the flag back. *)
Lemma leave_scope_raise_spec {A} e h os g b :
  rollback g = true →
  match leave_scope (raise (A:=A) e (World h os [g] b)) with
  | Ret _ _ => False
  | Throw _ w' =>
      objs w' = <[guarded g := Some (Kvfifo (guarded_unshareable g) (guarded_data g))]> os
  | Undefined => False
  end.
Proof.
  intros Hg. rewrite leave_scope_raise by done. cbn zeta. by destruct b as [[|n]|].
Qed.

Lemma guarded_body_update this (f : container_t (K:=K) (V:=V) → option container_t) :
  guarded_body this (do _ <- update_data this f; no_rollback) ∧
  asks_no_memory this (do _ <- update_data this f; no_rollback).
Proof.
  split.
  - intros h os g b u a c Ho Hc Hg.
    rewrite (run_update_rest this f h os g b u a c Ho Hc Hg).
    destruct (f c); [|done].
    cbn [objs heap]. split_and!; [done|by rewrite length_insert|].
    intros a' Ha. by rewrite list_lookup_insert_ne.
  - intros h os g b u a c r w1 Ho Hc Hg.
    rewrite !(run_update_rest this f h os g _ u a c Ho Hc Hg).
    destruct (f c); [|done]. by intros [= <- <-].
Qed.

Lemma guarded_body_find this k (f : container_t (K:=K) (V:=V) → option container_t) :
  let rest := (do c <- read_data this;
               match map_find k (iterator_list_map c) with
               | None => raise KeyNotFound
               | Some _ => do _ <- update_data this f; no_rollback
               end) in
  guarded_body this rest ∧ asks_no_memory this rest.
Proof.
  split.
  - intros h os g b u a c Ho Hc Hg.
    rewrite (run_find_rest this k f h os g b u a c Ho Hc Hg).
    destruct (map_find k (iterator_list_map c)).
    + destruct (f c); [|done].
      cbn [objs heap]. split_and!; [done|by rewrite length_insert|].
      intros a' Ha. by rewrite list_lookup_insert_ne.
    + pose proof (leave_scope_raise_spec (A:=unit) KeyNotFound h os g b Hg) as Hr.
      by destruct (leave_scope _).
  - intros h os g b u a c r w1 Ho Hc Hg.
    rewrite !(run_find_rest this k f h os g _ u a c Ho Hc Hg).
    destruct (map_find k (iterator_list_map c)).
    + destruct (f c); [|done]. by intros [= <- <-].
    + pose proof (leave_scope_raise_spec (A:=unit) KeyNotFound h os g None Hg) as Hr.
      intros Hret. by rewrite Hret in Hr.
Qed.

Lemma guarded_body_accessor this acc :
  guarded_body this (accessor_rest (V:=V) this acc) ∧
  asks_no_memory this (accessor_rest (V:=V) this acc).
Proof.
  split.
  - intros h os g b u a c Ho Hc Hg.
    rewrite (run_accessor_rest this acc h os g b u a c Ho Hc Hg). cbn zeta.
    pose proof (leave_scope_raise_spec (A:=entry_ref) KeyNotFound h os g b Hg) as Hr.
    destruct acc as [| |key|key];
      repeat match goal with
             | |- context [match map_find ?k ?m with _ => _ end] => destruct (map_find k m)
             | |- context [match pick_of ?a ?c with _ => _ end] => destruct (pick_of a c)
             end; try done.
    all: by destruct (leave_scope _).
  - intros h os g b u a c r w1 Ho Hc Hg.
    rewrite !(run_accessor_rest this acc h os g _ u a c Ho Hc Hg). cbn zeta.
    pose proof (leave_scope_raise_spec (A:=entry_ref) KeyNotFound h os g None Hg) as Hr.
    destruct acc as [| |key|key];
      repeat match goal with
             | |- context [match map_find ?k ?m with _ => _ end] => destruct (map_find k m)
             | |- context [match pick_of ?a ?c with _ => _ end] => destruct (pick_of a c)
             end; try done; try (by intros [= <- <-]).
    all: intros Hret; by rewrite Hret in Hr.
Qed.

Lemma guarded_body_push this k v :
  guarded_body this
    (do c <- read_data this;
     let it := map_find k (iterator_list_map c) in
     do _ <- alloc;
     do _ <- update_data this (λ c, Some (set_pair_list (list_push_back (k, v)) c));
     do _ <- catch_rethrow (push_index this k it)
               (update_data this (λ c, Some (set_pair_list list_pop_back c)));
     no_rollback).
Proof.
  intros h os g b u a c Ho Hc Hg.
  destruct (push_rest_spec this k v h os g b u a c Ho Hc Hg)
    as [(b' & -> & _)|(b' & _ & ->)]; [|done].
  cbn [objs heap]. split_and!; [done|by rewrite length_insert|].
  intros a' Ha. by rewrite list_lookup_insert_ne.
Qed.

(** What a guarded member function does to the pointer of its object
    and to the heap. *)
Lemma guarded_call_spec {A} mark this (rest : M A) w o a :
  wf_world w → objs w !! this = Some (Some o) → dataPtr o = Some a →
  guarded_body this rest →
  match with_guard this (do _ <- aboutToModify this mark; rest) w with
  | Ret _ w' =>
      (∀ j, j ≠ this → objs w' !! j = objs w !! j) ∧
      ((∀ j oj, j ≠ this → objs w !! j = Some (Some oj) → dataPtr oj ≠ Some a) →
       objs w' !! this = Some (Some (Kvfifo mark (Some a))) ∧
       length (heap w') = length (heap w)) ∧
      (∀ j oj, j ≠ this → objs w !! j = Some (Some oj) → dataPtr oj = Some a →
       objs w' !! this = Some (Some (Kvfifo mark (Some (length (heap w))))) ∧
       length (heap w') = S (length (heap w)) ∧
       heap w' !! a = heap w !! a)
  | Throw _ w' => objs w' = objs w
  | Undefined => True
  end.
Proof.
  intros Hwf Ho Hp Hbody.
  destruct (cell_of _ _ _ _ Hwf Ho Hp) as (c & Hc & _ & _).
  destruct w as [h os gs b], o as [u p]. cbn in Ho, Hp, Hc. subst p.
  pose proof (wf_guards _ Hwf) as Hg. cbn in Hg. subst gs.
  pose proof (lookup_lt_Some _ _ _ Ho) as Hlt.
  pose proof (lookup_lt_Some _ _ _ Hc) as Hlta.
  rewrite (guarded_run mark this rest h os b u a c Ho Hc). cbn zeta. cbn [objs heap].
  set (g := Guard this (Some a) u true).
  assert (Hback : ∀ p, <[this := Some (Kvfifo u (Some a))]> (<[this := p]> os) = os)
    by (intros p; rewrite list_insert_insert_eq; by apply list_insert_id).
  destruct (2 <? _) eqn:Hcount; cbn [andb]; [destruct u; cbn [negb]|].
  - (* pinned: no other object holds the cell *)
    pose proof (Hbody h (<[this := Some (Kvfifo mark (Some a))]> os) g b mark a c
                  (list_lookup_insert_eq os this _ Hlt) Hc eq_refl) as Hrest.
    destruct (leave_scope _) as [r w'|e w'|]; [|by rewrite Hrest, Hback|done].
    destruct Hrest as (Hos & Hlen & Hother). rewrite Hos.
    split_and!; [intros j Hj; by apply list_lookup_insert_ne
                |intros _; split; [by apply list_lookup_insert_eq|done]|].
    intros j oj Hj Hoj Hpj.
    destruct (wf_pinned _ Hwf this j _ oj a (not_eq_sym Hj) Ho Hoj eq_refl eq_refl Hpj).
  - (* shared: a copy is made *)
    destruct b as [[|n]|]; [done| |].
    all: match goal with
         | |- context [leave_scope (_ (World ?h' ?os' _ ?b'))] =>
             pose proof (Hbody h' os' g b' mark (length h) (container_copy c)
                           (list_lookup_insert_eq os this _ Hlt) (lookup_snoc_eq h _)
                           eq_refl) as Hrest
         end;
      destruct (leave_scope _) as [r w'|e w'|]; [|by rewrite Hrest, Hback|done];
      destruct Hrest as (Hos & Hlen & Hother); rewrite Hos; split_and!;
      [ intros j Hj; by apply list_lookup_insert_ne
      | intros Hpriv; by rewrite (private_count h os g _ this a Hpriv) in Hcount
      | intros j oj Hj Hoj Hpj; split_and!;
        [ by apply list_lookup_insert_eq
        | rewrite Hlen, length_app; cbn; lia
        | rewrite Hother by lia; by apply lookup_app_l ] ].
  - (* not shared *)
    pose proof (Hbody h (<[this := Some (Kvfifo mark (Some a))]> os) g b mark a c
                  (list_lookup_insert_eq os this _ Hlt) Hc eq_refl) as Hrest.
    destruct (leave_scope _) as [r w'|e w'|]; [|by rewrite Hrest, Hback|done].
    destruct Hrest as (Hos & Hlen & Hother). rewrite Hos.
    split_and!; [intros j Hj; by apply list_lookup_insert_ne
                |intros _; split; [by apply list_lookup_insert_eq|done]|].
    intros j oj Hj Hoj Hpj.
    by rewrite (shared_count h os g b this a _ j oj Ho eq_refl Hj Hoj Hpj eq_refl) in Hcount.
Qed.

Lemma raise_not_ret {A} e w (r : A) w' : raise e w ≠ Ret r w'.
Proof. destruct w as [h os gs b]. rewrite run_raise. by destruct b as [[|n]|]. Qed.

(** With an allocator that does not fail, [raise] throws what it is
    given. *)
Lemma raise_unfailing {A} e w :
  raise (A:=A) e (set_budget None w) = Throw e (set_budget None w).
Proof. destruct w as [h os gs b]. unfold set_budget. by rewrite run_raise. Qed.

Lemma guarded_call_no_memory {A} mark this (rest : M A) w o a b r w1 :
  wf_world w → objs w !! this = Some (Some o) → dataPtr o = Some a →
  asks_no_memory this rest →
  (∀ j oj, j ≠ this → objs w !! j = Some (Some oj) → dataPtr oj ≠ Some a) →
  with_guard this (do _ <- aboutToModify this mark; rest) (set_budget None w) = Ret r w1 →
  with_guard this (do _ <- aboutToModify this mark; rest) (set_budget b w) =
    Ret r (set_budget b w1).
Proof.
  intros Hwf Ho Hp Hbody Hpriv.
  destruct (cell_of _ _ _ _ Hwf Ho Hp) as (c & Hc & _ & _).
  destruct w as [h os gs b0], o as [u p]. cbn in Ho, Hp, Hc, Hpriv. subst p.
  pose proof (wf_guards _ Hwf) as Hg. cbn in Hg. subst gs.
  pose proof (lookup_lt_Some _ _ _ Ho) as Hlt.
  unfold set_budget. cbn [heap objs guards].
  rewrite !(guarded_run mark this rest h os _ u a c Ho Hc). cbn zeta.
  rewrite !(private_count h os _ _ this a Hpriv). cbn [andb].
  apply (Hbody h _ (Guard this (Some a) u true) b mark a c r w1
           (list_lookup_insert_eq os this _ Hlt) Hc eq_refl).
Qed.

(** A structural mutation of an object with storage is a guarded call,
    or the throw of "Empty queue" or "Key not found" on an empty queue;
    which of the two does not depend on the allocator. *)
Lemma structural_shape s x w o a :
  wf_world w → objs w !! x = Some (Some o) → dataPtr o = Some a → structural x s →
  (∃ e, ∀ b, run_op s (set_budget b w) = raise e (set_budget b w)) ∨
  (∃ rest : M unit,
     guarded_body x rest ∧ (removal x s → asks_no_memory x rest) ∧
     ∀ b, run_op s (set_budget b w) =
          with_guard x (do _ <- aboutToModify x false; rest) (set_budget b w)).
Proof.
  intros Hwf Ho Hp Hs.
  assert (Hemp : ∀ b, empty x (set_budget b w) =
            Ret (match pair_list (contents w x) with [] => true | _ => false end)
                (set_budget b w))
    by (intros b; apply (run_empty _ _ _ (wf_set_budget b _ Hwf) Ho)).
  destruct s as [| | | | | |y k v|y|y k|y k|y| |]; cbn in Hs; try done; subst y;
    cbn [run_op].
  - right. eexists. split_and!; [apply (guarded_body_push x k v)|done|].
    intros b. unfold push, bind at 1. destruct w as [h os gs b0]. cbn in Ho.
    unfold set_budget. cbn [heap objs guards].
    rewrite (run_get_obj _ _ _ _ _ _ Ho), Hp. by unfold bind at 1, ret.
  - assert (Hrun : ∀ b, pop x (set_budget b w) =
              (if match pair_list (contents w x) with [] => true | _ => false end
               then raise EmptyCollection
               else with_guard x (do _ <- aboutToModify x false;
                                  do _ <- update_data x pop_front_cell; no_rollback))
                (set_budget b w))
      by (intros b; unfold pop, bind at 1; by rewrite Hemp).
    destruct (pair_list (contents w x)); [left; by eexists|].
    right. eexists. split_and!; [| |exact Hrun]; intros; apply guarded_body_update.
  - assert (Hrun : ∀ b, pop_key x k (set_budget b w) =
              (if match pair_list (contents w x) with [] => true | _ => false end
               then raise KeyNotFound
               else with_guard x
                      (do _ <- aboutToModify x false;
                       do c <- read_data x;
                       match map_find k (iterator_list_map c) with
                       | None => raise KeyNotFound
                       | Some _ => do _ <- update_data x (pop_key_cell k); no_rollback
                       end)) (set_budget b w))
      by (intros b; unfold pop_key, bind at 1; by rewrite Hemp).
    destruct (pair_list (contents w x)); [left; by eexists|].
    right. eexists. split_and!; [| |exact Hrun]; intros;
      apply (guarded_body_find x k (pop_key_cell k)).
  - assert (Hrun : ∀ b, move_to_back x k (set_budget b w) =
              (if match pair_list (contents w x) with [] => true | _ => false end
               then raise KeyNotFound
               else with_guard x
                      (do _ <- aboutToModify x false;
                       do c <- read_data x;
                       match map_find k (iterator_list_map c) with
                       | None => raise KeyNotFound
                       | Some _ => do _ <- update_data x (move_to_back_cell k); no_rollback
                       end)) (set_budget b w))
      by (intros b; unfold move_to_back, bind at 1; by rewrite Hemp).
    destruct (pair_list (contents w x)); [left; by eexists|].
    right. eexists. split_and!; [| |exact Hrun]; intros;
      apply (guarded_body_find x k (move_to_back_cell k)).
  - right. eexists.
    split_and!; [apply guarded_body_update|intros; apply guarded_body_update|].
    intros b. unfold clear, bind at 1. destruct w as [h os gs b0]. cbn in Ho.
    unfold set_budget. cbn [heap objs guards].
    by rewrite (run_get_obj _ _ _ _ _ _ Ho), Hp.
Qed.

Lemma call_shape acc x w o :
  wf_world w → objs w !! x = Some (Some o) →
  (∀ b, call x acc (set_budget b w) = raise (error_of acc) (set_budget b w)) ∨
  (∃ a, dataPtr o = Some a ∧
     ∀ b, call x acc (set_budget b w) =
          with_guard x (do _ <- aboutToModify x true; accessor_rest x acc) (set_budget b w)).
Proof.
  intros Hwf Ho.
  assert (Hrun : ∀ b, call x acc (set_budget b w) =
            (if match pair_list (contents w x) with [] => true | _ => false end
             then raise (error_of acc)
             else with_guard x (do _ <- aboutToModify x true; accessor_rest x acc))
              (set_budget b w)).
  { intros b. rewrite call_unfold. unfold bind at 1.
    by rewrite (run_empty _ _ _ (wf_set_budget b _ Hwf) Ho). }
  destruct (pair_list (contents w x)) as [|e l] eqn:Hl; [by left|right].
  destruct (not_null_of_entries w x o Ho) as [a Hp]; [|by exists a].
  intros Hnil%pair_list_nil. congruence.
Qed.

Lemma set_budget_self w : set_budget (alloc_budget w) w = w.
Proof. by destruct w. Qed.

(** Copy on write ([aboutToModify]).  A structural mutation, or a
    non-const accessor, that returns on an object with storage: when no
    other object holds the storage, the object keeps its cell and the
    heap has no new cell; when another object holds it, the object gets
    a new cell, the only one added to the heap, and the old cell is
    left as it was to the others.  In both cases the pointers and flags
    of the other objects are not touched, and the object is pinned
    after an accessor and not pinned after a structural mutation. *)
Theorem copy_on_write (prog : list stmt) w x o a b :
  exec prog init = Some w → objs w !! x = Some (Some o) → dataPtr o = Some a →
  let shared := ∃ j oj, j ≠ x ∧ objs w !! j = Some (Some oj) ∧ dataPtr oj = Some a in
  let cow mark w' :=
    (∀ j, j ≠ x → objs w' !! j = objs w !! j) ∧
    (¬ shared → objs w' !! x = Some (Some (Kvfifo mark (Some a))) ∧
                length (heap w') = length (heap w)) ∧
    (shared → objs w' !! x = Some (Some (Kvfifo mark (Some (length (heap w))))) ∧
              length (heap w') = S (length (heap w)) ∧
              heap w' !! a = heap w !! a) in
  (∀ s w', structural x s → run_op s (set_budget b w) = Ret tt w' → cow false w') ∧
  (∀ acc r w', call x acc (set_budget b w) = Ret r w' → cow true w').
Proof.
  intros Hexec Ho Hp shared cow. pose proof (reachable_wf _ _ Hexec) as Hwf.
  pose proof (wf_set_budget b _ Hwf) as Hwfb.
  assert (Hcow : ∀ mark w',
    ((∀ j, j ≠ x → objs w' !! j = objs w !! j) ∧
     ((∀ j oj, j ≠ x → objs w !! j = Some (Some oj) → dataPtr oj ≠ Some a) →
       objs w' !! x = Some (Some (Kvfifo mark (Some a))) ∧
       length (heap w') = length (heap w)) ∧
     (∀ j oj, j ≠ x → objs w !! j = Some (Some oj) → dataPtr oj = Some a →
       objs w' !! x = Some (Some (Kvfifo mark (Some (length (heap w))))) ∧
       length (heap w') = S (length (heap w)) ∧
       heap w' !! a = heap w !! a)) → cow mark w').
  { intros mark w' (Hframe & Hpriv & Hsh). split_and!; [done| |].
    - intros Hns. apply Hpriv. intros j oj Hj Hoj Hpj. apply Hns. by exists j, oj.
    - intros (j & oj & Hj & Hoj & Hpj). by apply (Hsh j oj). }
  split.
  - intros s w' Hs Hrun.
    destruct (structural_shape s x w o a Hwf Ho Hp Hs)
      as [(e & Hthrow)|(rest & Hbody & _ & Heq)].
    { rewrite Hthrow in Hrun. by apply raise_not_ret in Hrun. }
    pose proof (guarded_call_spec false x rest _ o a Hwfb Ho Hp Hbody) as Hcall.
    rewrite <-Heq, Hrun in Hcall. by apply Hcow.
  - intros acc r w' Hrun.
    destruct (call_shape acc x w o Hwf Ho) as [Hthrow|(a0 & Hp0 & Heq)].
    { rewrite Hthrow in Hrun. by apply raise_not_ret in Hrun. }
    pose proof (guarded_call_spec true x (accessor_rest x acc) _ o a Hwfb Ho Hp
                  (proj1 (guarded_body_accessor x acc))) as Hcall.
    rewrite <-Heq, Hrun in Hcall. by apply Hcow.
Qed.

Lemma removal_structural x s : removal x s → structural (K:=K) (V:=V) x s.
Proof. by destruct s. Qed.

Lemma structural_mutates x s : structural x s → mutates (K:=K) (V:=V) x s.
Proof. by destruct s. Qed.

(** A removal on an object without storage throws at the test of
    [empty()], or is the [clear()] that returns at once. *)
Lemma removal_null s x w o :
  wf_world w → objs w !! x = Some (Some o) → dataPtr o = None → removal x s →
  (∃ e, ∀ b, run_op s (set_budget b w) = raise e (set_budget b w)) ∨
  (∀ b, run_op s (set_budget b w) = Ret tt (set_budget b w)).
Proof.
  intros Hwf Ho Hp Hs. pose proof (contents_null w x o Ho Hp) as Hc.
  assert (Hemp : ∀ b, empty x (set_budget b w) = Ret true (set_budget b w)).
  { intros b. rewrite (run_empty _ _ _ (wf_set_budget b _ Hwf) Ho).
    change (contents (set_budget b w) x) with (contents w x). by rewrite Hc. }
  destruct s as [| | | | | |y k v|y|y k|y k|y| |]; cbn in Hs; try done; subst y;
    cbn [run_op].
  - left. exists EmptyCollection. intros b. unfold pop, bind at 1. by rewrite Hemp.
  - left. exists KeyNotFound. intros b. unfold pop_key, bind at 1. by rewrite Hemp.
  - left. exists KeyNotFound. intros b. unfold move_to_back, bind at 1. by rewrite Hemp.
  - right. intros b. unfold clear, bind at 1. destruct w as [h os gs b0]. cbn in Ho.
    unfold set_budget. cbn [heap objs guards].
    by rewrite (run_get_obj _ _ _ _ _ _ Ho), Hp.
Qed.

(** Taking entries out, reordering them and handing out a reference
    take no memory when no other object holds the storage: what
    [pop()], [pop(k)], [move_to_back(k)], [clear()] and the non-const
    accessors do when they return with an allocator that does not fail,
    they do whatever the state of the allocator, and they leave the
    allocator as it is.  (A call that throws is another matter: the
    exception it builds takes memory.) *)
Theorem removal_needs_no_memory (prog : list stmt) w x o b :
  exec prog init = Some w → objs w !! x = Some (Some o) → sole_owner w x →
  (∀ s w1, removal x s →
     run_op s (set_budget None w) = Ret tt w1 →
     run_op s (set_budget b w) = Ret tt (set_budget b w1)) ∧
  (∀ acc r w1,
     call x acc (set_budget None w) = Ret r w1 →
     call x acc (set_budget b w) = Ret r (set_budget b w1)).
Proof.
  intros Hexec Ho Hsole. pose proof (reachable_wf _ _ Hexec) as Hwf.
  split.
  - intros s w1 Hs Hrun. destruct (dataPtr o) as [a|] eqn:Hp.
    + destruct (structural_shape s x w o a Hwf Ho Hp (removal_structural x s Hs))
        as [(e & Hthrow)|(rest & _ & Hbody & Heq)].
      { rewrite Hthrow in Hrun. by apply raise_not_ret in Hrun. }
      rewrite Heq in Hrun. rewrite Heq.
      apply (guarded_call_no_memory false x rest w o a b tt w1 Hwf Ho Hp (Hbody Hs));
        [|done].
      intros j oj Hj Hoj. by apply (Hsole o a j oj Ho Hp Hj Hoj).
    + destruct (removal_null s x w o Hwf Ho Hp Hs) as [(e & Hthrow)|Hret].
      { rewrite Hthrow in Hrun. by apply raise_not_ret in Hrun. }
      rewrite Hret in Hrun. injection Hrun as <-. by rewrite Hret.
  - intros acc r w1 Hrun.
    destruct (call_shape acc x w o Hwf Ho) as [Hthrow|(a & Hp & Heq)].
    { rewrite Hthrow in Hrun. by apply raise_not_ret in Hrun. }
    rewrite Heq in Hrun. rewrite Heq.
    apply (guarded_call_no_memory true x (accessor_rest x acc) w o a b r w1 Hwf Ho Hp
             (proj2 (guarded_body_accessor x acc))); [|done].
    intros j oj Hj Hoj. by apply (Hsole o a j oj Ho Hp Hj Hoj).
Qed.

(** A member function that throws leaves the pointer and the pinned
    flag of every object exactly as they were: a failed non-const
    accessor does not pin its object, and a copy made by
    [aboutToModify] before the failure is dropped.  (Excluded: [push]
    on an object without storage, which makes the storage before the
    guard is set up.) *)
Theorem failed_call_keeps_handle (prog : list stmt) w x o b :
  exec prog init = Some w → objs w !! x = Some (Some o) →
  (∀ s e w', structural x s → (dataPtr o = None → removal x s) →
     run_op s (set_budget b w) = Throw e w' → objs w' = objs w) ∧
  (∀ acc e w', call x acc (set_budget b w) = Throw e w' → objs w' = objs w).
Proof.
  intros Hexec Ho. pose proof (reachable_wf _ _ Hexec) as Hwf.
  pose proof (wf_set_budget b _ Hwf) as Hwfb.
  assert (Hraise : ∀ A e0 (e : exn) w',
            raise (A:=A) e0 (set_budget b w) = Throw e w' → objs w' = objs w).
  { intros A e0 e w' Hr. pose proof (raise_spec (A:=A) e0 _ Hwfb) as Hsp.
    rewrite Hr in Hsp. by destruct Hsp as (_ & ? & _). }
  split.
  - intros s e w' Hs Hnull Hrun. destruct (dataPtr o) as [a|] eqn:Hp.
    + destruct (structural_shape s x w o a Hwf Ho Hp Hs)
        as [(e0 & Hthrow)|(rest & Hbody & _ & Heq)].
      { rewrite Hthrow in Hrun. by eapply Hraise. }
      pose proof (guarded_call_spec false x rest _ o a Hwfb Ho Hp Hbody) as Hcall.
      by rewrite <-Heq, Hrun in Hcall.
    + destruct (removal_null s x w o Hwf Ho Hp (Hnull eq_refl)) as [(e0 & Hthrow)|Hret].
      * rewrite Hthrow in Hrun. by eapply Hraise.
      * by rewrite Hret in Hrun.
  - intros acc e w' Hrun.
    destruct (call_shape acc x w o Hwf Ho) as [Hthrow|(a & Hp & Heq)].
    { rewrite Hthrow in Hrun. by eapply Hraise. }
    pose proof (guarded_call_spec true x (accessor_rest x acc) _ o a Hwfb Ho Hp
                  (proj1 (guarded_body_accessor x acc))) as Hcall.
    by rewrite <-Heq, Hrun in Hcall.
Qed.

(** ** The key iterator, backwards *)

Lemma k_collect_back_spec h os gs b a c i fuel :
  h !! a = Some c → i ≤ length (iterator_list_map c) → i ≤ fuel →
  k_collect_back fuel (KIterator (Some a) i) (KIterator (Some a) 0) (World h os gs b) =
    Ret (reverse (take i (keys c))) (World h os gs b).
Proof.
  intros Hc. revert i. induction fuel as [|fuel IH]; intros i Hi Hfuel.
  - assert (i = 0) as -> by lia. cbn [k_collect_back]. unfold k_iterator_eqb.
    cbn [k_map k_pos]. by rewrite bool_decide_eq_true_2 by done.
  - cbn [k_collect_back]. unfold k_iterator_eqb. cbn [k_map k_pos].
    rewrite bool_decide_eq_true_2 by done. cbn [andb].
    destruct i as [|i]; [done|]. cbn [Nat.eqb].
    assert (Hlt : i < length (iterator_list_map c)) by lia.
    apply lookup_lt_is_Some in Hlt as [[k bk] Hk].
    unfold bind at 1, k_decr, bind at 1. cbn [k_map k_pos].
    rewrite (run_deref _ _ _ _ _ _ Hc), decide_True by lia. unfold ret at 1.
    unfold bind at 1, k_deref, bind at 1. cbn [k_map k_pos].
    rewrite (run_deref _ _ _ _ _ _ Hc), Hk. unfold ret at 1.
    unfold bind at 1. rewrite IH by lia. unfold ret, keys.
    rewrite (take_S_r _ i k) by (by rewrite list_lookup_fmap, Hk).
    by rewrite reverse_snoc.
Qed.

Lemma k_incr_decr it it' w w1 :
  k_incr it w = Ret it' w1 → w1 = w ∧ k_decr it' w = Ret it w.
Proof.
  destruct it as [[a|] i], w as [h os gs b]; unfold k_incr, k_decr, bind, deref;
    cbn [k_map k_pos heap]; [|done].
  destruct (h !! a) as [c|] eqn:Hc; [|done]. case_decide as Hi; [|done].
  unfold ret. intros [= <- <-]. cbn [k_map k_pos heap]. split; [done|].
  by rewrite Hc, decide_True by lia.
Qed.

Lemma k_decr_incr it it' w w1 :
  k_decr it w = Ret it' w1 → w1 = w ∧ k_incr it' w = Ret it w.
Proof.
  destruct it as [[a|] i], w as [h os gs b]; unfold k_incr, k_decr, bind, deref;
    cbn [k_map k_pos heap]; [|done].
  destruct (h !! a) as [c|] eqn:Hc; [|done]. destruct i as [|i]; [done|].
  case_decide as Hi; [|done].
  unfold ret. intros [= <- <-]. cbn [k_map k_pos heap]. split; [done|].
  by rewrite Hc, decide_True by lia.
Qed.

(** [k_iterator], read backwards: [k_begin() == k_end()] exactly when
    the queue is empty; a loop that steps with [--it] from [k_end()]
    down to [k_begin()] reads the keys in descending order, each once;
    [*k_begin()] is the least key and [*--k_end()] the greatest;
    where [++it] is defined, [--] undoes it, and where [--it] is
    defined, [++] undoes it; [++] on [k_end()] and [--] on [k_begin()]
    are undefined. *)
Theorem key_iteration_backwards (prog : list stmt) w x o :
  exec prog init = Some w → objs w !! x = Some (Some o) →
  let ks := keys (contents w x) in
  ∃ b e, k_begin x w = Ret b w ∧ k_end x w = Ret e w ∧
    (k_iterator_eqb b e = true ↔ entries (contents w x) = []) ∧
    (∀ fuel, length ks ≤ fuel → k_collect_back fuel e b w = Ret (reverse ks) w) ∧
    (∀ k, head ks = Some k →
       k_deref b w = Ret k w ∧ ∀ k', k' ∈ ks → k' = k ∨ key_lt k k' = true) ∧
    (∀ k, last ks = Some k →
       (do it <- k_decr e; k_deref it) w = Ret k w ∧
       ∀ k', k' ∈ ks → k' = k ∨ key_lt k' k = true) ∧
    (∀ it it' w1, k_incr it w = Ret it' w1 → w1 = w ∧ k_decr it' w = Ret it w) ∧
    (∀ it it' w1, k_decr it w = Ret it' w1 → w1 = w ∧ k_incr it' w = Ret it w) ∧
    k_incr e w = Undefined ∧ k_decr b w = Undefined.
Proof.
  intros Hexec Ho ks. pose proof (reachable_wf _ _ Hexec) as Hwf.
  pose proof (contents_wf w x Hwf) as Hwfc.
  pose proof (wf_sorted _ Hwfc) as Hsorted. fold ks in Hsorted.
  assert (Hempty : ks = [] ↔ entries (contents w x) = []).
  { split; [|by apply contents_empty_keys].
    intros Hks. destruct (entries (contents w x)) as [|[k v] es] eqn:Hes; [done|].
    assert (Hin : k ∈ ks).
    { apply (wf_keys_elem k _ Hwfc). exists v. rewrite Hes. left. }
    rewrite Hks in Hin. by apply elem_of_nil in Hin. }
  assert (Hleast : ∀ k, head ks = Some k → ∀ k', k' ∈ ks → k' = k ∨ key_lt k k' = true).
  { intros k Hk k' Hin. destruct ks as [|k0 ks']; [done|]. injection Hk as ->.
    apply StronglySorted_inv in Hsorted as [_ Hall].
    apply elem_of_cons in Hin as [->|Hin]; [by left|right].
    by eapply Forall_forall in Hall. }
  assert (Hgreatest : ∀ k, last ks = Some k →
            ∀ k', k' ∈ ks → k' = k ∨ key_lt k' k = true).
  { intros k Hk k' Hin. apply last_Some in Hk as [ks' Hks]. rewrite Hks in Hin, Hsorted.
    apply elem_of_app in Hin as [Hin|Hin].
    - right. apply (StronglySorted_app_1_elem_of _ _ _ k' k Hsorted Hin). left.
    - apply list_elem_of_singleton in Hin. by left. }
  pose proof (λ it it' w1, k_incr_decr it it' w w1) as Hid.
  pose proof (λ it it' w1, k_decr_incr it it' w w1) as Hdi.
  destruct w as [h os gs b] eqn:Hw. cbn in Ho.
  unfold k_begin, k_end, bind. rewrite (run_get_obj _ _ _ _ _ _ Ho).
  destruct (dataPtr o) as [a|] eqn:Hp.
  - destruct (cell_of _ _ _ _ Hwf Ho Hp) as (c & Hcell & Hcont & _). cbn in Hcell.
    rewrite (run_deref _ _ _ _ _ _ Hcell). unfold ret. eexists _, _.
    split; [done|]. split; [done|].
    assert (Hlen : length ks = length (iterator_list_map c))
      by (unfold ks, keys; by rewrite Hcont, length_fmap).
    assert (Hks : ks = keys c) by (unfold ks; by rewrite Hcont).
    split_and!; [| | | |done|done| |].
    + rewrite <-Hempty. unfold k_iterator_eqb. cbn [k_map k_pos].
      rewrite bool_decide_eq_true_2 by done. cbn [andb]. rewrite Nat.eqb_eq, <-Hlen.
      destruct ks; cbn; split; intros; (done || lia).
    + intros fuel Hfuel. rewrite (k_collect_back_spec h os gs b a c _ fuel Hcell); [|lia|lia].
      by rewrite Hks, <-(length_fmap fst), firstn_all.
    + intros k Hk. split; [|by apply Hleast]. unfold k_deref, bind. cbn [k_map k_pos].
      rewrite (run_deref _ _ _ _ _ _ Hcell). rewrite Hks in Hk. unfold keys in Hk.
      destruct (iterator_list_map c) as [|[k0 b0] m]; [done|]. cbn in Hk.
      by injection Hk as ->.
    + intros k Hk. split; [|by apply Hgreatest]. rewrite Hks in Hk. unfold keys in Hk.
      rewrite fmap_last in Hk.
      destruct (last (iterator_list_map c)) as [[k0 b0]|] eqn:Hlast; [|done].
      cbn in Hk. injection Hk as ->. rewrite last_lookup in Hlast.
      unfold k_decr, bind. cbn [k_map k_pos].
      rewrite (run_deref _ _ _ _ _ _ Hcell).
      destruct (length (iterator_list_map c)) as [|i] eqn:Hi.
      { destruct (iterator_list_map c); [done|by cbn in Hi]. }
      rewrite decide_True by lia.
      cbn [pred] in Hlast. unfold ret, k_deref, bind. cbn [k_map k_pos].
      by rewrite (run_deref _ _ _ _ _ _ Hcell), Hlast.
    + unfold k_incr, bind. cbn [k_map k_pos].
      rewrite (run_deref _ _ _ _ _ _ Hcell). by rewrite decide_False by lia.
    + unfold k_decr, bind. cbn [k_map k_pos].
      by rewrite (run_deref _ _ _ _ _ _ Hcell).
  - unfold ret. eexists _, _. split; [done|]. split; [done|].
    assert (Hks : ks = []).
    { unfold ks. by rewrite (contents_null (World h os gs b) x o Ho Hp). }
    split_and!; [| | | |done|done|done|done].
    + rewrite <-Hempty. by rewrite Hks.
    + intros fuel _. rewrite Hks. by destruct fuel.
    + intros k Hk. by rewrite Hks in Hk.
    + intros k Hk. by rewrite Hks in Hk.
Qed.

(** ** References into the queue *)

Lemma accessor_rest_returns this acc h os g b u a c r w' :
  os !! this = Some (Some (Kvfifo u (Some a))) → h !! a = Some c → rollback g = true →
  leave_scope (accessor_rest this acc (World h os [g] b)) = Ret r w' →
  ∃ n, r = EntryRef a n ∧ pick_of acc c = Some n ∧ w' = World h os [] b.
Proof.
  intros Ho Hc Hg. rewrite (run_accessor_rest this acc h os g b u a c Ho Hc Hg). cbn zeta.
  assert (Hmiss : leave_scope (raise (A:=entry_ref) KeyNotFound (World h os [g] b)) = Ret r w' →
                  ∃ n, r = EntryRef a n ∧ pick_of acc c = Some n ∧ w' = World h os [] b).
  { intros Heq. pose proof (leave_scope_raise_spec (A:=entry_ref) KeyNotFound h os g b Hg) as H.
    by rewrite Heq in H. }
  destruct acc as [| |key|key];
    repeat match goal with
           | |- context [match map_find ?k ?m with _ => _ end] => destruct (map_find k m)
           | |- context [match pick_of ?a ?c with _ => _ end] =>
               destruct (pick_of a c) as [n|] eqn:?
           end; try exact Hmiss; intros [= <- <-] || done; by exists n.
Qed.

(** A non-const accessor that returns: the reference goes into the cell
    that the object now holds, to the node that the accessor picks. *)
Lemma call_returns this acc w o r w' :
  wf_world w → objs w !! this = Some (Some o) → call this acc w = Ret r w' →
  ∃ a2 c2 n, r = EntryRef a2 n ∧
    objs w' !! this = Some (Some (Kvfifo true (Some a2))) ∧
    heap w' !! a2 = Some c2 ∧ contents w' this = c2 ∧
    pick_of acc c2 = Some n ∧ entries c2 = entries (contents w this).
Proof.
  intros Hwf Ho Hrun.
  destruct (call_shape acc this w o Hwf Ho) as [Hthrow|(a & Hp & Heq)].
  { pose proof (Hthrow (alloc_budget w)) as Heq. rewrite set_budget_self in Heq.
    rewrite Heq in Hrun. by apply raise_not_ret in Hrun. }
  specialize (Heq (alloc_budget w)). rewrite set_budget_self in Heq.
  rewrite Heq in Hrun. clear Heq.
  destruct (cell_of _ _ _ _ Hwf Ho Hp) as (c & Hc & Hcont & _). rewrite Hcont.
  destruct w as [h os gs b], o as [u p]. cbn in Ho, Hp, Hc. subst p.
  pose proof (wf_guards _ Hwf) as Hg. cbn in Hg. subst gs.
  pose proof (lookup_lt_Some _ _ _ Ho) as Hlt.
  rewrite (guarded_run true this _ h os b u a c Ho Hc) in Hrun. cbn zeta in Hrun.
  assert (Hfin : ∀ h' b' a' c',
    h' !! a' = Some c' → entries c' = entries c →
    leave_scope (accessor_rest this acc
                   (World h' (<[this := Some (Kvfifo true (Some a'))]> os)
                      [Guard this (Some a) u true] b')) = Ret r w' →
    ∃ a2 c2 n, r = EntryRef a2 n ∧
      objs w' !! this = Some (Some (Kvfifo true (Some a2))) ∧
      heap w' !! a2 = Some c2 ∧ contents w' this = c2 ∧
      pick_of acc c2 = Some n ∧ entries c2 = entries c).
  { intros h' b' a' c' Hc' He' Hr.
    pose proof (list_lookup_insert_eq os this (Some (Kvfifo true (Some a'))) Hlt) as Ho'.
    destruct (accessor_rest_returns this acc h' _ (Guard this (Some a) u true) b' true a' c'
                r w' Ho' Hc' eq_refl Hr)
      as (n & -> & Hpick & ->).
    exists a', c', n. cbn [objs heap]. split_and!; try done.
    by rewrite (contents_at _ _ _ _ _ _ _ Ho'), Hc'. }
  destruct (_ && _).
  - destruct b as [[|n0]|]; [done| |].
    all: eapply Hfin; [apply lookup_snoc_eq|apply container_copy_entries|exact Hrun].
  - by eapply Hfin.
Qed.

Lemma set_value_split n v l k v0 :
  list_get n l = Some (k, v0) →
  ∃ l1 l2, l = l1 ++ (n, (k, v0)) :: l2 ∧
           list_set_value n v l = l1 ++ (n, (k, v)) :: l2.
Proof.
  induction l as [|[n' [k' v']] l IH]; [done|]. cbn [list_get list_set_value].
  case_decide as Hn.
  - intros [= -> ->]. subst n'. by exists [], l.
  - intros Hget. destruct (IH Hget) as (l1 & l2 & -> & ->).
    by exists ((n', (k', v')) :: l1), l2.
Qed.

Lemma pick_of_set_value acc n v c :
  pick_of acc (set_pair_list (list_set_value n v) c) = pick_of acc c.
Proof.
  destruct acc as [| |key|key]; cbn [pick_of]; [| |done|done];
    unfold front_node, back_node, set_pair_list; cbn [pair_list].
  - by rewrite <-!head_fmap, set_value_ids.
  - by rewrite <-!fmap_last, set_value_ids.
Qed.

(** The node that an accessor picks holds the entry that it is about. *)
Lemma pick_select acc c n e :
  wf_container c → pick_of acc c = Some n → list_get n (pair_list c) = Some e →
  select acc (entries c) = Some e.
Proof.
  intros Hwf Hpick Hget. pose proof (pick_spec acc c Hwf) as Hspec.
  destruct (select acc (entries c)) as [e'|]; [|congruence].
  destruct Hspec as (n' & Hn' & Hget'). congruence.
Qed.

(** A write through the reference of a non-const accessor,
    [x.front().second = v] and the like: when the statement returns,
    exactly the entry that the accessor is about has the new value, at
    the place it had, with its key; the same accessor then shows the
    new pair; the object is pinned; the other entries and the other
    objects are as before. *)
Theorem write_then_read (prog : list stmt) w x o acc v b w' :
  exec prog init = Some w → objs w !! x = Some (Some o) →
  run_op (Write x acc v) (set_budget b w) = Ret tt w' →
  ∃ k v0 es1 es2,
    entries (contents w x) = es1 ++ (k, v0) :: es2 ∧
    select acc (entries (contents w x)) = Some (k, v0) ∧
    entries (contents w' x) = es1 ++ (k, v) :: es2 ∧
    peek x acc w' = Ret (k, v) w' ∧
    (∃ a, objs w' !! x = Some (Some (Kvfifo true (Some a)))) ∧
    ∀ j, j ≠ x → contents w' j = contents w j.
Proof.
  intros Hexec Ho Hrun. pose proof (reachable_wf _ _ Hexec) as Hwf.
  pose proof (wf_set_budget b _ Hwf) as Hwfb.
  pose proof (write_spec x acc v _ o Hwfb Ho) as Hspec.
  cbn [run_op] in Hrun. rewrite Hrun in Hspec. destruct Hspec as (Hmod & _ & _).
  pose proof (mod_wf _ _ _ _ Hmod) as Hwf'.
  destruct (modified_frame x true (set_budget b w) w' o Ho Hmod) as [Hframe _].
  unfold bind in Hrun.
  pose proof (call_spec x acc _ o Hwfb Ho) as Hcall.
  destruct (call x acc (set_budget b w)) as [r w1|ex w1|] eqn:Hc1; [|done|done].
  destruct Hcall as (Hmod1 & _ & _). pose proof (mod_wf _ _ _ _ Hmod1) as Hwf1.
  destruct (call_returns x acc _ o r w1 Hwfb Ho Hc1)
    as (a2 & c2 & n & -> & Ho1 & Hcell & Hcont1 & Hpick & Hes).
  change (entries (contents (set_budget b w) x)) with (entries (contents w x)) in Hes.
  pose proof (wf_cells _ Hwf1 _ _ Hcell) as Hwf2.
  destruct w1 as [h1 os1 gs1 b1]. cbn [objs heap] in Ho1, Hcell.
  unfold ref_write, bind in Hrun. cbn [ref_cell ref_node] in Hrun.
  rewrite (run_deref _ _ _ _ _ _ Hcell) in Hrun.
  destruct (list_get n (pair_list c2)) as [[k v0]|] eqn:Hget; [|done].
  unfold store in Hrun. cbn [heap objs guards alloc_budget] in Hrun.
  rewrite decide_True in Hrun by (by eapply lookup_lt_Some).
  injection Hrun as <-.
  set (c3 := set_pair_list (list_set_value n v) c2) in *.
  assert (Hcont' : contents (World (<[a2 := c3]> h1) os1 gs1 b1) x = c3).
  { rewrite (contents_at _ _ _ _ _ _ _ Ho1), list_lookup_insert_eq; [done|].
    by eapply lookup_lt_Some. }
  destruct (set_value_split n v _ k v0 Hget) as (l1 & l2 & Hl & Hl').
  exists k, v0, l1.*2, l2.*2. split_and!.
  - rewrite <-Hes. unfold entries. by rewrite Hl, fmap_app.
  - rewrite <-Hes. by apply (pick_select acc c2 n).
  - rewrite Hcont'. unfold entries, c3, set_pair_list. cbn [pair_list].
    by rewrite Hl', fmap_app.
  - rewrite (peek_eq x acc _ _ Hwf' Ho1), Hcont'.
    rewrite (pick_select acc c3 n (k, v)); [done|by apply wf_set_value| |].
    + unfold c3. by rewrite pick_of_set_value.
    + unfold c3, set_pair_list. cbn [pair_list]. by eapply list_get_set_value.
  - by eexists.
  - intros j Hj. by rewrite (Hframe j Hj).
Qed.

(** The two overloads of an accessor agree.  When the non-const one
    returns, its reference shows the pair that the const one shows,
    before and after the call, and the entries are as before.  When it
    throws something else than [bad_alloc], the const one, called with
    an allocator that does not fail, throws the same; and when the
    const one throws with an allocator that does not fail, so does the
    non-const one, the same. *)
Theorem accessor_overloads_agree (prog : list stmt) w x o acc b :
  exec prog init = Some w → objs w !! x = Some (Some o) →
  (∀ r w', call x acc (set_budget b w) = Ret r w' →
     ∃ e, peek x acc w = Ret e w ∧ ref_read r w' = Ret e w' ∧
          peek x acc w' = Ret e w' ∧
          entries (contents w' x) = entries (contents w x)) ∧
  (∀ ex w', call x acc (set_budget b w) = Throw ex w' → ex ≠ bad_alloc →
     peek x acc (set_budget None w) = Throw ex (set_budget None w)) ∧
  (∀ ex w', peek x acc (set_budget None w) = Throw ex w' → b = None →
     raises (call x acc (set_budget b w)) ex).
Proof.
  intros Hexec Ho. pose proof (reachable_wf _ _ Hexec) as Hwf.
  pose proof (wf_set_budget b _ Hwf) as Hwfb.
  pose proof (wf_set_budget None _ Hwf) as Hwfn.
  pose proof (call_spec x acc _ o Hwfb Ho) as Hcall.
  pose proof (peek_eq x acc w o Hwf Ho) as Hpeek.
  pose proof (peek_eq x acc _ o Hwfn Ho) as Hpeekn.
  change (contents (set_budget b w) x) with (contents w x) in Hcall.
  change (contents (set_budget None w) x) with (contents w x) in Hpeekn.
  rewrite raise_unfailing in Hpeekn.
  split_and!.
  - intros r w' Hrun. rewrite Hrun in Hcall.
    destruct Hcall as (Hmod & Hes & e & Hsel & (o' & c & Ho' & Hp' & Hc & Hget)).
    pose proof (mod_wf _ _ _ _ Hmod) as Hwf'.
    exists e. split_and!; [by rewrite Hpeek, Hsel| | |done].
    + unfold ref_read, bind. destruct w' as [h' os' gs' b']. cbn [heap] in Hc.
      by rewrite (run_deref _ _ _ _ _ _ Hc), Hget.
    + by rewrite (peek_eq x acc w' o' Hwf' Ho'), Hes, Hsel.
  - intros ex w' Hrun Hex. rewrite Hrun in Hcall.
    destruct Hcall as (_ & [(-> & Hsel)|(-> & _)]); [|done]. by rewrite Hpeekn, Hsel.
  - intros ex w' Hthrow ->. rewrite Hpeekn in Hthrow.
    destruct (select acc (entries (contents w x))) as [e|] eqn:Hsel; [done|].
    injection Hthrow as <- _.
    destruct (call x acc (set_budget None w)) as [r w1|ex w1|]; [|cbn|done].
    + destruct Hcall as (_ & _ & e & He & _). congruence.
    + destruct Hcall as (_ & [(-> & _)|(_ & Hb)]); [done|]. by destruct w.
Qed.

(** ** Objects that were moved from *)

(** An object without storage is usable again after [push]: the call
    makes new storage, leaves the object not pinned (also when it was
    pinned before it was moved from) with the pushed pair as its only
    entry, and a copy of the object is then well defined. *)
Theorem push_revives_moved_from (prog : list stmt) w x o b k v w' :
  exec prog init = Some w → objs w !! x = Some (Some o) → dataPtr o = None →
  run_op (Push x k v) (set_budget b w) = Ret tt w' →
  (∃ a, objs w' !! x = Some (Some (Kvfifo false (Some a)))) ∧
  entries (contents w' x) = [(k, v)] ∧
  (∀ b', run_op (DeclareCopy x) (set_budget b' w') ≠ Undefined) ∧
  (∀ b' y oy, objs w' !! y = Some (Some oy) →
     run_op (Assign y x) (set_budget b' w') ≠ Undefined).
Proof.
  intros Hexec Ho Hp Hrun. pose proof (reachable_wf _ _ Hexec) as Hwf.
  pose proof (push_spec x k v _ o (wf_set_budget b _ Hwf) Ho) as Hspec.
  cbn [run_op] in Hrun. rewrite Hrun in Hspec. destruct Hspec as (Hmod & Hes & _).
  change (entries (contents (set_budget b w) x)) with (entries (contents w x)) in Hes.
  rewrite (contents_null w x o Ho Hp) in Hes.
  pose proof (mod_wf _ _ _ _ Hmod) as Hwf'.
  destruct (mod_obj _ _ _ _ Hmod) as [a Ho'].
  split_and!; [by exists a|done| |].
  - intros b' Hundef.
    pose proof (declare_copy_spec x _ _ (wf_set_budget b' _ Hwf') Ho') as Hcopy.
    rewrite Hundef in Hcopy. by destruct Hcopy.
  - intros b' y oy Hy Hundef.
    pose proof (assign_spec y x _ oy _ (wf_set_budget b' _ Hwf') Hy Ho') as Hasg.
    rewrite Hundef in Hasg. by destruct Hasg.
Qed.

(** Copying is undefined for exactly one kind of source: an object
    that is pinned and has no storage.  For every other live object of
    a reachable world, [kvfifo y(x)], [y = x] and [y = std::move(x)]
    return or throw [bad_alloc]. *)
Theorem copy_defined_iff (prog : list stmt) w x o b :
  exec prog init = Some w → objs w !! x = Some (Some o) →
  let stale := unshareable o = true ∧ dataPtr o = None in
  (run_op (DeclareCopy x) (set_budget b w) = Undefined ↔ stale) ∧
  (∀ y oy, objs w !! y = Some (Some oy) →
     (run_op (Assign y x) (set_budget b w) = Undefined ↔ stale) ∧
     (run_op (MoveAssign y x) (set_budget b w) = Undefined ↔ stale)) ∧
  (¬ stale → ∀ s, s = DeclareCopy x ∨ (∃ y, live w y ∧ (s = Assign y x ∨ s = MoveAssign y x)) →
     match run_op s (set_budget b w) with
     | Ret _ _ => True
     | Throw e w' => e = bad_alloc ∧ b = Some 0
     | Undefined => False
     end).
Proof.
  intros Hexec Ho stale. pose proof (reachable_wf _ _ Hexec) as Hwf.
  pose proof (wf_set_budget b _ Hwf) as Hwfb.
  assert (Hcopy : run_op (DeclareCopy x) (set_budget b w) = Undefined ↔ stale).
  { split.
    - intros Hundef. pose proof (declare_copy_spec x _ o Hwfb Ho) as Hsp.
      by rewrite Hundef in Hsp.
    - intros [Hu Hp]. destruct w as [h os gs b0]. unfold set_budget. cbn in Ho.
      cbn [run_op heap objs guards]. unfold bind at 1. rewrite run_declare.
      by rewrite (run_copy_ctor _ _ _ _ _ _ Ho), Hu, Hp. }
  assert (Hassign : ∀ y oy, objs w !! y = Some (Some oy) →
            run_op (Assign y x) (set_budget b w) = Undefined ↔ stale).
  { intros y oy Hy. split.
    - intros Hundef. pose proof (assign_spec y x _ oy o Hwfb Hy Ho) as Hsp.
      by rewrite Hundef in Hsp.
    - intros [Hu Hp]. destruct w as [h os gs b0]. unfold set_budget. cbn in Ho.
      cbn [run_op heap objs guards]. unfold copy_assign, bind at 1.
      by rewrite (run_copy_ctor _ _ _ _ _ _ Ho), Hu, Hp. }
  assert (Hmove : ∀ y oy, objs w !! y = Some (Some oy) →
            match run_op (MoveAssign y x) (set_budget b w) with
            | Ret _ _ => ¬ stale
            | Throw e _ => ¬ stale ∧ e = bad_alloc ∧ b = Some 0
            | Undefined => stale
            end).
  { intros y oy Hy. unfold stale.
    destruct w as [h os gs b0]. unfold set_budget. cbn [heap objs guards] in *.
    pose proof (lookup_lt_Some _ _ _ Ho) as Hltx.
    pose proof (lookup_lt_Some _ _ _ Hy) as Hlty.
    assert (Hd : ∃ od, <[x := Some (Kvfifo (unshareable o) None)]> os !! y = Some (Some od)).
    { destruct (decide (y = x)) as [->|Hne].
      - rewrite list_lookup_insert_eq by done. by eexists.
      - rewrite list_lookup_insert_ne by done. by eexists. }
    destruct Hd as [od Hd]. rewrite (run_move_assign _ _ _ _ _ _ _ _ Ho Hd). cbn zeta.
    destruct (unshareable o) eqn:Hu; cbn [negb]; [|by intros [? _]].
    destruct (dataPtr o) as [a|] eqn:Hp; [|done].
    destruct (cell_of _ _ _ _ Hwf Ho Hp) as (c & Hc & _ & _). cbn [heap] in Hc.
    rewrite Hc. destruct b as [[|n]|]; try (by intros [_ ?]).
    split_and!; [by intros [_ ?]|done|done]. }
  split_and!.
  - done.
  - intros y oy Hy. split; [by apply (Hassign y oy)|].
    specialize (Hmove y oy Hy).
    destruct (run_op (MoveAssign y x) (set_budget b w)) as [[] w'|e w'|];
      split; try done; try (by intros Hs; destruct Hmove as [Hns _] || destruct Hmove).
  - intros Hns s [->|(y & [oy Hy] & [->| ->])].
    + pose proof (declare_copy_spec x _ o Hwfb Ho) as Hsp.
      destruct (run_op (DeclareCopy x) (set_budget b w)) as [[] w'|e w'|]; [done| |done].
      by destruct Hsp as (-> & _ & Hb).
    + pose proof (assign_spec y x _ oy o Hwfb Hy Ho) as Hsp.
      destruct (run_op (Assign y x) (set_budget b w)) as [[] w'|e w'|]; [done| |done].
      by destruct Hsp as (-> & _ & Hb).
    + specialize (Hmove y oy Hy).
      destruct (run_op (MoveAssign y x) (set_budget b w)) as [[] w'|e w'|]; [done| |done].
      by destruct Hmove as (_ & -> & ->).
Qed.

End Facts.

(** * The claims on client programs *)

Import Demo.

Lemma C1_index_invariant_witness :
  exec aba init = Some w_aba ∧
  objs w_aba !! 0 = Some (Some (Kvfifo false (Some 0))) ∧
  count 0 a w_aba = Ret 2 w_aba ∧
  map_find a (iterator_list_map (contents w_aba 0)) = Some [1; 3].
Proof.
  assert (H1 : exec aba init = Some w_aba) by reflexivity.
  assert (H2 : objs w_aba !! 0 = Some (Some (Kvfifo false (Some 0)))) by reflexivity.
  split; [exact H1|]. split; [exact H2|].
  destruct (C1_index_invariant aba w_aba 0 _ a H1 H2) as (Hcount & _ & Hbucket & _).
  split; [exact Hcount|]. reflexivity.
Defined.

Lemma C2_fifo_order_witness :
  exec [] init = Some (init (K:=Z) (V:=Z)) ∧
  ∃ w1 w2,
    exec ((None, DeclareNew) :: pushes 0 [(a, 1); (b, 2); (a, 3)]%Z) init = Some w1 ∧
    size 0 w1 = Ret 3 w1 ∧
    drain 3 0 w1 = Ret [(a, 1); (b, 2); (a, 3)]%Z w2 ∧
    size 0 w2 = Ret 0 w2.
Proof.
  split; [reflexivity|].
  exact (C2_fifo_order [] init [(a, 1); (b, 2); (a, 3)]%Z eq_refl).
Defined.

Lemma C3_move_to_back_witness :
  exec aba init = Some w_aba ∧
  objs w_aba !! 0 = Some (Some (Kvfifo false (Some 0))) ∧
  with_key a (entries (contents w_aba 0)) ≠ [] ∧
  ∃ w1, run_op (MoveToBack 0 a) (set_budget None w_aba) = Ret tt w1 ∧
        entries (contents w1 0) = [(b, 2); (a, 1); (a, 3)]%Z.
Proof.
  assert (H1 : exec aba init = Some w_aba) by reflexivity.
  assert (H2 : objs w_aba !! 0 = Some (Some (Kvfifo false (Some 0)))) by reflexivity.
  assert (H3 : with_key a (entries (contents w_aba 0)) ≠ []) by (vm_compute; discriminate).
  split; [exact H1|]. split; [exact H2|]. split; [exact H3|].
  destruct (C3_move_to_back aba w_aba 0 _ a H1 H2 H3) as [(w1 & w2 & Hmv & He & _) _].
  exists w1. split; [exact Hmv|exact He].
Defined.

Lemma C4_failure_atomic_witness :
  exec shared init = Some w_shared ∧
  ∃ w', run_op (Push 1 5 5)%Z (set_budget (Some 2) w_shared) = Throw bad_alloc w' ∧
        contents w' 1 = contents w_shared 1 ∧
        contents w' 0 = contents w_shared 0.
Proof.
  assert (H1 : exec shared init = Some w_shared) by reflexivity.
  split; [exact H1|]. eexists. split; [vm_compute; reflexivity|].
  destruct (C4_failure_atomic shared w_shared H1) as (Hatomic & _).
  split.
  - eapply (Hatomic 1 (Push 1 5 5)%Z (Some 2) bad_alloc _ eq_refl). vm_compute. reflexivity.
  - eapply (Hatomic 1 (Push 1 5 5)%Z (Some 2) bad_alloc _ eq_refl). vm_compute. reflexivity.
Defined.

Lemma C5_copy_independence_witness :
  exec shared init = Some w_shared ∧
  ∃ w', exec [ok (Push 1 5 5)%Z; ok (Pop 1); ok (Write 1 AFront 9%Z)] w_shared = Some w' ∧
        contents w' 0 = contents w_shared 0 ∧
        entries (contents w' 1) = [(b, 9); (a, 3); (5, 5)]%Z.
Proof.
  assert (H1 : exec shared init = Some w_shared) by reflexivity.
  split; [exact H1|]. eexists. split; [vm_compute; reflexivity|].
  destruct (C5_copy_independence shared w_shared H1) as (Hframe & _).
  split; [|reflexivity].
  eapply (Hframe 0 1 [ok (Push 1 5 5)%Z; ok (Pop 1); ok (Write 1 AFront 9%Z)]).
  - discriminate.
  - repeat constructor.
  - vm_compute. reflexivity.
Defined.

(** C6 as it is written fails on a pinned object without storage: after
    the non-const [front()] the object is pinned; a move construction
    from it takes the storage away and leaves the flag; [clear()] then
    returns at once, and the object is still pinned. *)
Lemma C6_counterexample :
  exec moved init = Some w_moved ∧
  objs w_moved !! 0 = Some (Some (Kvfifo true None)) ∧
  structural 0 (Clear (K:=Z) (V:=Z) 0) ∧
  ∃ w', run_op (Clear 0) w_moved = Ret tt w' ∧
        objs w' !! 0 = Some (Some (Kvfifo true None)).
Proof.
  split; [reflexivity|]. split; [reflexivity|]. split; [reflexivity|].
  eexists. split; reflexivity.
Qed.

Lemma C6_pinning_protocol_witness :
  exec pinned init = Some w_pinned ∧
  objs w_pinned !! 0 = Some (Some (Kvfifo true (Some 0))) ∧
  pinned_private w_pinned ∧
  ∃ w1, run_op (DeclareCopy 0) (set_budget None w_pinned) = Ret tt w1 ∧
        objs w1 = objs w_pinned ++ [Some (Kvfifo false (Some 1))].
Proof.
  assert (H1 : exec pinned init = Some w_pinned) by reflexivity.
  assert (H2 : objs w_pinned !! 0 = Some (Some (Kvfifo true (Some 0)))) by reflexivity.
  split; [exact H1|]. split; [exact H2|].
  destruct (C6_pinning_protocol pinned w_pinned 0 _ H1 H2) as (Hpin & _ & Hcopy & _).
  split; [exact Hpin|].
  destruct (Hcopy 0 eq_refl eq_refl) as (c & _ & (w1 & Hrun & Hos & _) & _).
  exists w1. split; [exact Hrun|exact Hos].
Defined.

(** C7 as it is written fails when memory runs out.  The statement
    [throw std::invalid_argument("Empty queue")] has to build its
    exception: with an allocator that fails, [pop()] and [front()] on
    an empty queue, and [pop(k)] for a key that is not there, throw
    [bad_alloc] and not the error of the claim. *)
Lemma C7_counterexample :
  let w := set_budget (Some 0) w_empty in
  exec [ok DeclareNew] init = Some w_empty ∧
  entries (contents w 0) = [] ∧
  pop 0 w = Throw bad_alloc w ∧
  ¬ raises (pop 0 w) EmptyCollection ∧
  call_const 0 AFront w = Throw bad_alloc w ∧
  ¬ raises (call_const 0 AFront w) EmptyCollection ∧
  pop_key 0 a w = Throw bad_alloc w ∧
  ¬ raises (pop_key 0 a w) KeyNotFound.
Proof.
  cbv zeta. split_and!; try reflexivity; vm_compute; discriminate.
Qed.

Lemma C7_error_conditions_witness :
  exec [ok DeclareNew] init = Some w_empty ∧
  objs w_empty !! 0 = Some (Some (Kvfifo false (Some 0))) ∧
  raises (pop 0 (set_budget None w_empty)) EmptyCollection ∧
  raises (pop_key 0 a (set_budget None w_empty)) KeyNotFound ∧
  (raises (pop 0 (set_budget (Some 0) w_empty)) EmptyCollection ∨
   raises (pop 0 (set_budget (Some 0) w_empty)) bad_alloc).
Proof.
  assert (H1 : exec [ok DeclareNew] init = Some w_empty) by reflexivity.
  assert (H2 : objs w_empty !! 0 = Some (Some (Kvfifo false (Some 0)))) by reflexivity.
  split; [exact H1|]. split; [exact H2|].
  destruct (C7_error_conditions [ok DeclareNew] w_empty 0 _ None H1 H2)
    as (Hpop & _ & Hkey).
  destruct (C7_error_conditions [ok DeclareNew] w_empty 0 _ (Some 0) H1 H2)
    as (Hpop0 & _).
  split; [|split].
  - destruct Hpop as (_ & _ & _ & Hnone & _). apply (Hnone eq_refl). reflexivity.
  - destruct (Hkey a) as [_ Hops].
    destruct (Hops (pop_key 0 a) (or_introl eq_refl)) as (_ & _ & _ & Hnone & _).
    apply (Hnone eq_refl). left. reflexivity.
  - destruct Hpop0 as (_ & _ & Hany & _).
    destruct (Hany eq_refl) as [Hr|[_ Hr]]; [left|right]; exact Hr.
Defined.


Lemma C9_key_iteration_witness :
  exec aba init = Some w_aba ∧
  objs w_aba !! 0 = Some (Some (Kvfifo false (Some 0))) ∧
  StronglySorted (λ x y : Z, key_lt x y = true) [a; b] ∧
  ∃ it e, k_begin 0 w_aba = Ret it w_aba ∧ k_end 0 w_aba = Ret e w_aba ∧
          k_collect 2 it e w_aba = Ret [a; b] w_aba.
Proof.
  assert (H1 : exec aba init = Some w_aba) by reflexivity.
  assert (H2 : objs w_aba !! 0 = Some (Some (Kvfifo false (Some 0)))) by reflexivity.
  split; [exact H1|]. split; [exact H2|].
  destruct (C9_key_iteration aba w_aba 0 _ H1 H2) as ((it & e & Hb & He & Hcol) & Hs & _).
  split; [exact Hs|].
  exists it, e. split; [exact Hb|]. split; [exact He|].
  apply (Hcol 2). apply le_n.
Defined.

(** C10.  The copy constructor dereferences the null pointer when its
    argument is pinned and has been moved from: in [w_moved], object 0
    has [unshareable = true] and a null [dataPtr], and both
    [kvfifo y(x)] and [y = x] with it as [x] are undefined. *)
Theorem C10_copy_of_moved_from_pinned :
  exec moved init = Some w_moved ∧
  objs w_moved !! 0 = Some (Some (Kvfifo true None)) ∧
  copy_ctor 0 w_moved = Undefined ∧
  exec (moved ++ [ok (DeclareCopy 0)]) init = None ∧
  exec (moved ++ [ok (Assign 1 0)]) init = None.
Proof. repeat split; reflexivity. Qed.

(** * The further properties on client programs *)

Lemma default_ctor_empty_witness :
  exec aba init = Some w_aba ∧
  ∃ w', run_op DeclareNew (set_budget None w_aba) = Ret tt w' ∧
        size 1 w' = Ret 0 w' ∧ empty 1 w' = Ret true w'.
Proof.
  assert (H1 : exec aba init = Some w_aba) by reflexivity.
  split; [exact H1|].
  destruct (default_ctor_empty aba w_aba None H1) as [_ Hnew].
  destruct (Hnew ltac:(discriminate)) as (w' & Hrun & _ & Hsize & Hempty & _).
  exists w'. split; [exact Hrun|]. split; [exact Hsize|exact Hempty].
Defined.

Lemma size_is_sum_of_counts_witness :
  exec aba init = Some w_aba ∧
  objs w_aba !! 0 = Some (Some (Kvfifo false (Some 0))) ∧
  ∃ n, size 0 w_aba = Ret n w_aba ∧
       n = sum_list_with (count_of w_aba 0) (keys (contents w_aba 0)).
Proof.
  assert (H1 : exec aba init = Some w_aba) by reflexivity.
  assert (H2 : objs w_aba !! 0 = Some (Some (Kvfifo false (Some 0)))) by reflexivity.
  split; [exact H1|]. split; [exact H2|].
  destruct (size_is_sum_of_counts aba w_aba 0 _ H1 H2) as (n & Hsize & _ & _ & Hsum & _).
  exists n. split; [exact Hsize|exact Hsum].
Defined.

Lemma push_appends_witness :
  exec aba init = Some w_aba ∧
  objs w_aba !! 0 = Some (Some (Kvfifo false (Some 0))) ∧
  returns (run_op (Push 0 5 5)%Z (set_budget None w_aba)).
Proof.
  assert (H1 : exec aba init = Some w_aba) by reflexivity.
  assert (H2 : objs w_aba !! 0 = Some (Some (Kvfifo false (Some 0)))) by reflexivity.
  split; [exact H1|]. split; [exact H2|].
  exact (proj1 (push_appends aba w_aba 0 _ None 5%Z 5%Z H1 H2) eq_refl).
Defined.

Lemma pop_removes_front_witness :
  exec aba init = Some w_aba ∧
  objs w_aba !! 0 = Some (Some (Kvfifo false (Some 0))) ∧
  run_op (Pop 0) (set_budget None w_aba) = Ret tt w_popped ∧
  ∃ k v es', entries (contents w_aba 0) = (k, v) :: es' ∧
             entries (contents w_popped 0) = es'.
Proof.
  assert (H1 : exec aba init = Some w_aba) by reflexivity.
  assert (H2 : objs w_aba !! 0 = Some (Some (Kvfifo false (Some 0)))) by reflexivity.
  assert (H3 : run_op (Pop 0) (set_budget None w_aba) = Ret tt w_popped)
    by (vm_compute; reflexivity).
  split; [exact H1|]. split; [exact H2|]. split; [exact H3|].
  destruct (pop_removes_front aba w_aba 0 _ None w_popped H1 H2 H3)
    as (k & v & es' & Hes & _ & Hes' & _).
  exists k, v, es'. split; [exact Hes|exact Hes'].
Defined.

Lemma clear_empties_witness :
  exec aba init = Some w_aba ∧
  objs w_aba !! 0 = Some (Some (Kvfifo false (Some 0))) ∧
  returns (run_op (Clear 0) (set_budget None w_aba)).
Proof.
  assert (H1 : exec aba init = Some w_aba) by reflexivity.
  assert (H2 : objs w_aba !! 0 = Some (Some (Kvfifo false (Some 0)))) by reflexivity.
  split; [exact H1|]. split; [exact H2|].
  exact (proj1 (clear_empties aba w_aba 0 _ None H1 H2) eq_refl).
Defined.

Lemma push_then_pop_witness :
  exec aba init = Some w_aba ∧
  objs w_aba !! 0 = Some (Some (Kvfifo false (Some 0))) ∧
  ∃ w1 w2, run_op (Push 0 5 5)%Z (set_budget None w_aba) = Ret tt w1 ∧
           run_op (PopKey 0 5%Z) w1 = Ret tt w2 ∧
           entries (contents w2 0) = [(a, 1); (b, 2); (a, 3)]%Z.
Proof.
  assert (H1 : exec aba init = Some w_aba) by reflexivity.
  assert (H2 : objs w_aba !! 0 = Some (Some (Kvfifo false (Some 0)))) by reflexivity.
  split; [exact H1|]. split; [exact H2|].
  destruct (push_then_pop aba w_aba 0 _ 5%Z 5%Z H1 H2) as (w1 & Hpush & Hkey & _).
  destruct (Hkey eq_refl) as (w2 & Hpop & Hes).
  exists w1, w2. split; [exact Hpush|]. split; [exact Hpop|exact Hes].
Defined.

Lemma move_ctor_transfers_witness :
  exec pinned init = Some w_pinned ∧
  objs w_pinned !! 0 = Some (Some (Kvfifo true (Some 0))) ∧
  ∃ w', run_op (DeclareMove 0) (set_budget (Some 0) w_pinned) = Ret tt w' ∧
        contents w' 1 = contents w_pinned 0 ∧
        contents w' 0 = empty_container.
Proof.
  assert (H1 : exec pinned init = Some w_pinned) by reflexivity.
  assert (H2 : objs w_pinned !! 0 = Some (Some (Kvfifo true (Some 0)))) by reflexivity.
  split; [exact H1|]. split; [exact H2|].
  destruct (move_ctor_transfers pinned w_pinned 0 _ (Some 0) H1 H2)
    as (w' & Hrun & _ & _ & _ & Hy & Hx & _).
  exists w'. split; [exact Hrun|]. split; [exact Hy|exact Hx].
Defined.


Lemma self_assignment_keeps_witness :
  exec pinned init = Some w_pinned ∧
  objs w_pinned !! 0 = Some (Some (Kvfifo true (Some 0))) ∧
  ∃ w', run_op (MoveAssign 0 0) (set_budget None w_pinned) = Ret tt w' ∧
        entries (contents w' 0) = [(a, 1); (b, 2); (a, 3)]%Z.
Proof.
  assert (H1 : exec pinned init = Some w_pinned) by reflexivity.
  assert (H2 : objs w_pinned !! 0 = Some (Some (Kvfifo true (Some 0)))) by reflexivity.
  split; [exact H1|]. split; [exact H2|].
  destruct (self_assignment_keeps pinned w_pinned 0 _ (MoveAssign 0 0) H1 H2
              (λ _, ex_intro _ 0 eq_refl) (or_intror eq_refl))
    as (w' & Hrun & Hes & _).
  exists w'. split; [exact Hrun|exact Hes].
Defined.

Lemma destroy_leaves_others_witness :
  exec shared init = Some w_shared ∧
  objs w_shared !! 1 = Some (Some (Kvfifo false (Some 0))) ∧
  ∃ w', run_op (Destroy 1) (set_budget None w_shared) = Ret tt w' ∧
        ¬ live w' 1 ∧ contents w' 0 = contents w_shared 0.
Proof.
  assert (H1 : exec shared init = Some w_shared) by reflexivity.
  assert (H2 : objs w_shared !! 1 = Some (Some (Kvfifo false (Some 0)))) by reflexivity.
  split; [exact H1|]. split; [exact H2|].
  destruct (destroy_leaves_others shared w_shared 1 _ None H1 H2)
    as (w' & Hrun & Hdead & _ & _ & Hothers).
  exists w'. split; [exact Hrun|]. split; [exact Hdead|].
  exact (proj1 (proj2 (Hothers 0 ltac:(discriminate)))).
Defined.

Lemma copy_shares_storage_witness :
  exec aba init = Some w_aba ∧
  objs w_aba !! 0 = Some (Some (Kvfifo false (Some 0))) ∧
  ∃ w', run_op (DeclareCopy 0) (set_budget (Some 0) w_aba) = Ret tt w' ∧
        heap w' = heap w_aba ∧ contents w' 1 = contents w_aba 0.
Proof.
  assert (H1 : exec aba init = Some w_aba) by reflexivity.
  assert (H2 : objs w_aba !! 0 = Some (Some (Kvfifo false (Some 0)))) by reflexivity.
  split; [exact H1|]. split; [exact H2|].
  destruct (copy_shares_storage aba w_aba 0 _ (Some 0) H1 H2 eq_refl)
    as [(w' & Hrun & _ & Hheap & _ & Hcont) _].
  exists w'. split; [exact Hrun|]. split; [exact Hheap|exact Hcont].
Defined.

Lemma copy_on_write_witness :
  exec shared init = Some w_shared ∧
  objs w_shared !! 1 = Some (Some (Kvfifo false (Some 0))) ∧
  run_op (Pop 1) (set_budget None w_shared) = Ret tt w_cow ∧
  objs w_cow !! 1 = Some (Some (Kvfifo false (Some 1))) ∧
  length (heap w_cow) = 2 ∧
  heap w_cow !! 0 = heap w_shared !! 0.
Proof.
  assert (H1 : exec shared init = Some w_shared) by reflexivity.
  assert (H2 : objs w_shared !! 1 = Some (Some (Kvfifo false (Some 0)))) by reflexivity.
  assert (H3 : run_op (Pop 1) (set_budget None w_shared) = Ret tt w_cow)
    by (vm_compute; reflexivity).
  split; [exact H1|]. split; [exact H2|]. split; [exact H3|].
  destruct (copy_on_write shared w_shared 1 _ 0 None H1 H2 eq_refl) as [Hcow _].
  destruct (Hcow (Pop 1) w_cow eq_refl H3) as (_ & _ & Hshared).
  apply Hshared. exists 0, (Kvfifo false (Some 0)).
  split; [discriminate|]. split; reflexivity.
Defined.

Lemma removal_needs_no_memory_witness :
  exec aba init = Some w_aba ∧
  objs w_aba !! 0 = Some (Some (Kvfifo false (Some 0))) ∧
  sole_owner w_aba 0 ∧
  run_op (Pop 0) (set_budget None w_aba) = Ret tt w_popped ∧
  run_op (Pop 0) (set_budget (Some 0) w_aba) = Ret tt (set_budget (Some 0) w_popped).
Proof.
  assert (H1 : exec aba init = Some w_aba) by reflexivity.
  assert (H2 : objs w_aba !! 0 = Some (Some (Kvfifo false (Some 0)))) by reflexivity.
  assert (H3 : sole_owner w_aba 0).
  { intros o a0 j oj _ _ Hj Hoj. destruct j as [|j]; [by destruct Hj|].
    simpl in Hoj. discriminate Hoj. }
  assert (H4 : run_op (Pop 0) (set_budget None w_aba) = Ret tt w_popped)
    by (vm_compute; reflexivity).
  split; [exact H1|]. split; [exact H2|]. split; [exact H3|]. split; [exact H4|].
  exact (proj1 (removal_needs_no_memory aba w_aba 0 _ (Some 0) H1 H2 H3)
           (Pop 0) w_popped eq_refl H4).
Defined.

Lemma failed_call_keeps_handle_witness :
  exec shared init = Some w_shared ∧
  objs w_shared !! 1 = Some (Some (Kvfifo false (Some 0))) ∧
  run_op (PopKey 1 7%Z) (set_budget None w_shared) = Throw KeyNotFound w_failed ∧
  objs w_failed = objs w_shared.
Proof.
  assert (H1 : exec shared init = Some w_shared) by reflexivity.
  assert (H2 : objs w_shared !! 1 = Some (Some (Kvfifo false (Some 0)))) by reflexivity.
  assert (H3 : run_op (PopKey 1 7%Z) (set_budget None w_shared) = Throw KeyNotFound w_failed)
    by (vm_compute; reflexivity).
  split; [exact H1|]. split; [exact H2|]. split; [exact H3|].
  exact (proj1 (failed_call_keeps_handle shared w_shared 1 _ None H1 H2)
           (PopKey 1 7%Z) KeyNotFound w_failed eq_refl (λ _, eq_refl) H3).
Defined.

Lemma key_iteration_backwards_witness :
  exec aba init = Some w_aba ∧
  objs w_aba !! 0 = Some (Some (Kvfifo false (Some 0))) ∧
  ∃ it e, k_begin 0 w_aba = Ret it w_aba ∧ k_end 0 w_aba = Ret e w_aba ∧
          k_collect_back 2 e it w_aba = Ret [b; a] w_aba.
Proof.
  assert (H1 : exec aba init = Some w_aba) by reflexivity.
  assert (H2 : objs w_aba !! 0 = Some (Some (Kvfifo false (Some 0)))) by reflexivity.
  split; [exact H1|]. split; [exact H2|].
  destruct (key_iteration_backwards aba w_aba 0 _ H1 H2)
    as (it & e & Hb & He & _ & Hback & _).
  exists it, e. split; [exact Hb|]. split; [exact He|]. apply (Hback 2). apply le_n.
Defined.

Lemma write_then_read_witness :
  exec aba init = Some w_aba ∧
  objs w_aba !! 0 = Some (Some (Kvfifo false (Some 0))) ∧
  run_op (Write 0 AFront 9%Z) (set_budget None w_aba) = Ret tt w_written ∧
  ∃ k, peek 0 AFront w_written = Ret (k, 9%Z) w_written.
Proof.
  assert (H1 : exec aba init = Some w_aba) by reflexivity.
  assert (H2 : objs w_aba !! 0 = Some (Some (Kvfifo false (Some 0)))) by reflexivity.
  assert (H3 : run_op (Write 0 AFront 9%Z) (set_budget None w_aba) = Ret tt w_written)
    by (vm_compute; reflexivity).
  split; [exact H1|]. split; [exact H2|]. split; [exact H3|].
  destruct (write_then_read aba w_aba 0 _ AFront 9%Z None w_written H1 H2 H3)
    as (k & _ & _ & _ & _ & _ & _ & Hpeek & _).
  exists k. exact Hpeek.
Defined.

Lemma accessor_overloads_agree_witness :
  exec aba init = Some w_aba ∧
  objs w_aba !! 0 = Some (Some (Kvfifo false (Some 0))) ∧
  call 0 ABack (set_budget None w_aba) = Ret (EntryRef 0 3) w_pinned ∧
  ∃ e, peek 0 ABack w_aba = Ret e w_aba ∧
       ref_read (EntryRef 0 3) w_pinned = Ret e w_pinned.
Proof.
  assert (H1 : exec aba init = Some w_aba) by reflexivity.
  assert (H2 : objs w_aba !! 0 = Some (Some (Kvfifo false (Some 0)))) by reflexivity.
  assert (H3 : call 0 ABack (set_budget None w_aba) = Ret (EntryRef 0 3) w_pinned)
    by (vm_compute; reflexivity).
  split; [exact H1|]. split; [exact H2|]. split; [exact H3|].
  destruct (proj1 (accessor_overloads_agree aba w_aba 0 _ ABack None H1 H2) _ _ H3)
    as (e & Hpeek & Href & _).
  exists e. split; [exact Hpeek|exact Href].
Defined.

Lemma push_revives_moved_from_witness :
  exec moved init = Some w_moved ∧
  objs w_moved !! 0 = Some (Some (Kvfifo true None)) ∧
  run_op (Push 0 5 5)%Z (set_budget None w_moved) = Ret tt w_revived ∧
  entries (contents w_revived 0) = [(5, 5)]%Z ∧
  run_op (DeclareCopy 0) (set_budget None w_revived) ≠ Undefined.
Proof.
  assert (H1 : exec moved init = Some w_moved) by reflexivity.
  assert (H2 : objs w_moved !! 0 = Some (Some (Kvfifo true None))) by reflexivity.
  assert (H3 : run_op (Push 0 5 5)%Z (set_budget None w_moved) = Ret tt w_revived)
    by (vm_compute; reflexivity).
  split; [exact H1|]. split; [exact H2|]. split; [exact H3|].
  destruct (push_revives_moved_from moved w_moved 0 _ None 5%Z 5%Z w_revived H1 H2 eq_refl H3)
    as (_ & Hes & Hcopy & _).
  split; [exact Hes|exact (Hcopy None)].
Defined.

Lemma copy_defined_iff_witness :
  exec moved init = Some w_moved ∧
  objs w_moved !! 0 = Some (Some (Kvfifo true None)) ∧
  objs w_moved !! 1 = Some (Some (Kvfifo true (Some 0))) ∧
  run_op (MoveAssign 1 0) (set_budget None w_moved) = Undefined ∧
  run_op (DeclareCopy 1) (set_budget None w_moved) ≠ Undefined.
Proof.
  assert (H1 : exec moved init = Some w_moved) by reflexivity.
  assert (H2 : objs w_moved !! 0 = Some (Some (Kvfifo true None))) by reflexivity.
  assert (H3 : objs w_moved !! 1 = Some (Some (Kvfifo true (Some 0)))) by reflexivity.
  split; [exact H1|]. split; [exact H2|]. split; [exact H3|].
  split.
  - destruct (copy_defined_iff moved w_moved 0 _ None H1 H2) as (_ & Hasg & _).
    apply (proj2 (Hasg 1 _ H3)). split; reflexivity.
  - intros Hundef.
    destruct (copy_defined_iff moved w_moved 1 _ None H1 H3) as (Hcopy & _).
    destruct (proj1 Hcopy Hundef) as [_ Hnull]. discriminate Hnull.
Defined.
